(** * consfyi/editor: next-occurrence date projection and annotated JSON printing

    A shallow embedding of the two pure utilities of the series editor
    (src/unnamed/part_003): [addYearSameWeekday] with its helpers
    [getWeekOfMonth] and [getWeekdayInNthWeek], and [myStringifyWithErrors]
    with its inner [stringify].  Further on come [slugify], the suffix and
    the identifier proposed for a new event, and the rows of the viewer. *)

From Stdlib Require Import ZArith Lia Bool List String Ascii.
From Stdlib Require Import DecimalString DecimalZ DecimalPos DecimalN DecimalNat.
From stdpp Require Import gmap strings list.

Local Open Scope Z_scope.

(** ** ECMAScript day arithmetic

    A [Date] of the editor always sits at local midnight (it is parsed from a
    [yyyy-MM-dd] string or built by [new Date(year, month, 1)]), so a Date is
    modelled by its day number: the count of days since 1970-01-01 in the
    naive local calendar.  The abstract operations below are those of the
    ECMAScript specification (section "Date objects"), on day numbers.  The
    clip of time values to 10^8 days around the epoch is left out. *)
Module ES.

Definition DayFromYear (y : Z) : Z :=
    365 * (y - 1970) + (y - 1969) / 4 - (y - 1901) / 100 + (y - 1601) / 400.

Definition InLeapYear (y : Z) : bool :=
    ((y mod 4 =? 0) && negb (y mod 100 =? 0)) || (y mod 400 =? 0).

Definition leapDays (y : Z) : Z := if InLeapYear y then 1 else 0.

Definition DaysInYear (y : Z) : Z := 365 + leapDays y.

(** The largest [y] with [DayFromYear y <= day]: an estimate from the mean
    year length, corrected by at most one year. *)
Definition YearFromDay (day : Z) : Z :=
    let y0 := 1970 + (400 * day) / 146097 in
    if day <? DayFromYear y0 then y0 - 1
    else if DayFromYear (y0 + 1) <=? day then y0 + 1
    else y0.

Definition DayWithinYear (day : Z) : Z := day - DayFromYear (YearFromDay day).

(** Days of the year before month [m] (0-based), [l] being 1 in a leap year. *)
Definition DaysBeforeMonth (l m : Z) : Z :=
    match m with
    | 0 => 0 | 1 => 31 | 2 => 59 + l | 3 => 90 + l | 4 => 120 + l
    | 5 => 151 + l | 6 => 181 + l | 7 => 212 + l | 8 => 243 + l
    | 9 => 273 + l | 10 => 304 + l | _ => 334 + l
    end.

Definition DaysInMonth (y m : Z) : Z :=
    match m with
    | 1 => 28 + leapDays y
    | 3 | 5 | 8 | 10 => 30
    | _ => 31
    end.

Definition MonthFromDay (day : Z) : Z :=
    let d := DayWithinYear day in
    let l := leapDays (YearFromDay day) in
    if d <? 31 then 0
    else if d <? 59 + l then 1
    else if d <? 90 + l then 2
    else if d <? 120 + l then 3
    else if d <? 151 + l then 4
    else if d <? 181 + l then 5
    else if d <? 212 + l then 6
    else if d <? 243 + l then 7
    else if d <? 273 + l then 8
    else if d <? 304 + l then 9
    else if d <? 334 + l then 10
    else 11.

Definition DateFromDay (day : Z) : Z :=
    DayWithinYear day
    - DaysBeforeMonth (leapDays (YearFromDay day)) (MonthFromDay day) + 1.

Definition WeekDay (day : Z) : Z := (day + 4) mod 7.

(** [MakeDay]: months outside 0..11 carry into the year, the day of the
    month is an offset from the first of the month. *)
Definition MakeDay (year month date : Z) : Z :=
    let ym := year + month / 12 in
    let mn := month mod 12 in
    DayFromYear ym + DaysBeforeMonth (leapDays ym) mn + date - 1.

(** [new Date(year, month, date)]: a year in 0..99 means 1900 + year. *)
Definition Date_new (year month date : Z) : Z :=
    let yr := if (0 <=? year) && (year <=? 99) then 1900 + year else year in
    MakeDay yr month date.

(** [Math.ceil(a / b)] for integers [a] and a positive integer [b]. *)
Definition Math_ceil_div (a b : Z) : Z := - ((- a) / b).

End ES.

(** ** The date-fns functions the editor imports *)
Module DateFns.

Definition getDate (date : Z) : Z := ES.DateFromDay date.
Definition getDay (date : Z) : Z := ES.WeekDay date.
Definition getMonth (date : Z) : Z := ES.MonthFromDay date.
Definition getYear (date : Z) : Z := ES.YearFromDay date.

(** [startOfMonth]: [setDate(1)] then [setHours(0, 0, 0, 0)]. *)
Definition startOfMonth (date : Z) : Z :=
    ES.MakeDay (ES.YearFromDay date) (ES.MonthFromDay date) 1.

(** [addDays]: [setDate(getDate() + amount)]. *)
Definition addDays (date amount : Z) : Z :=
    ES.MakeDay (ES.YearFromDay date) (ES.MonthFromDay date)
               (ES.DateFromDay date + amount).

End DateFns.

Import DateFns.

(** ** The date projector (part_003, lines 177-199) *)

Definition getWeekOfMonth (date : Z) : Z :=
  ES.Math_ceil_div (getDate date + getDay (startOfMonth date)) 7.

Definition getWeekdayInNthWeek (year month weekday week : Z) : Z :=
  let firstOfMonth := ES.Date_new year month 1 in
  let firstDayOfWeek := getDay firstOfMonth in
  addDays firstOfMonth (- firstDayOfWeek + weekday + (week - 1) * 7).

Definition addYearSameWeekday (date : Z) : Z :=
  getWeekdayInNthWeek (getYear date + 1) (getMonth date) (getDay date)
                      (getWeekOfMonth date).

(** ** Calendar vocabulary of the specification *)

(** The integers [lo, lo + 1, ..., lo + n - 1]. *)
Definition daysFrom (lo : Z) (n : nat) : list Z :=
  map (fun i => lo + Z.of_nat i) (seq 0 n).

(** Weekday-in-month ordinal: how many days of the month of [date], up to and
    including [date], fall on the weekday of [date]. *)
Definition weekdayOrdinal (date : Z) : Z :=
  Z.of_nat (length (List.filter (fun d => getDay d =? getDay date)
                           (daysFrom (startOfMonth date)
                                     (Z.to_nat (getDate date))))).

(** How many days of month [m] (0-based) of year [y] fall on weekday [w]. *)
Definition occurrencesInMonth (y m w : Z) : Z :=
  Z.of_nat (length (List.filter (fun d => getDay d =? w)
                           (daysFrom (ES.MakeDay y m 1)
                                     (Z.to_nat (ES.DaysInMonth y m))))).

(** [date] lies in month [m] (0-based) of year [y]. *)
Definition inMonth (y m date : Z) : Prop :=
  getYear date = y /\ getMonth date = m.

(** The dates used as examples: month numbers are 0-based as in JavaScript. *)
Definition ymd (y m d : Z) : Z := ES.MakeDay y (m - 1) d.

(** ** JavaScript values and the heap

    The serializer takes a value of type [unknown].  Arrays and objects are
    references into a heap, so that a value may contain the same object twice
    or contain itself.  An object is the list of its own enumerable
    properties in [Object.keys] order, with pairwise distinct keys; a
    property may hold [undefined].  Number leaves are the integers of
    magnitude below 2^53; arrays have no holes. *)

Definition loc := nat.

Inductive value : Type :=
| VUndefined
| VNull
| VBool (b : bool)
| VNumber (n : Z)
| VString (s : string)
| VRef (l : loc).

Inductive cell : Type :=
| CArray (elems : list value)
| CObject (props : list (string * value)).

Definition heap := loc -> cell.

(** The two fields of ajv's [ErrorObject] the serializer reads. *)
Record ErrorObject := { instancePath : string; message : string }.

Definition is_undefined (v : value) : bool :=
  match v with VUndefined => true | _ => false end.

Definition Object_keys (props : list (string * value)) : list string :=
  map fst props.

(** [value[k]]: the property is [undefined] when the object has no such key. *)
Fixpoint get_prop (props : list (string * value)) (k : string) : value :=
  match props with
  | [] => VUndefined
  | (k', v) :: rest => if String.eqb k' k then v else get_prop rest k
  end.

(** ** Strings *)

Definition nl : string := String "010" EmptyString.
Definition dquote : ascii := "034"%char.
Definition backslash : ascii := "092"%char.

(** [s.repeat(n)]. *)
Fixpoint String_repeat (s : string) (n : nat) : string :=
  match n with
  | O => EmptyString
  | S n => s +:+ String_repeat s n
  end.

(** [`${i}`] for an array index. *)
Definition index_string (i : nat) : string :=
  NilZero.string_of_uint (Nat.to_uint i).

Definition hex_digit (n : nat) : ascii :=
  match n with
  | 0 => "0" | 1 => "1" | 2 => "2" | 3 => "3" | 4 => "4" | 5 => "5"
  | 6 => "6" | 7 => "7" | 8 => "8" | 9 => "9" | 10 => "a" | 11 => "b"
  | 12 => "c" | 13 => "d" | 14 => "e" | _ => "f"
  end%nat%char.

(** One character of [QuoteJSONString]: the short escapes, [\u00XX] for the
    other control characters, the character itself otherwise. *)
Definition escape_char (c : ascii) : string :=
  let n := nat_of_ascii c in
  if (n =? 8)%nat then String backslash "b"
  else if (n =? 9)%nat then String backslash "t"
  else if (n =? 10)%nat then String backslash "n"
  else if (n =? 12)%nat then String backslash "f"
  else if (n =? 13)%nat then String backslash "r"
  else if (n =? 34)%nat then String backslash (String dquote EmptyString)
  else if (n =? 92)%nat then String backslash (String backslash EmptyString)
  else if (n <? 32)%nat then
    String backslash
      (String "u" (String "0" (String "0"
        (String (hex_digit (n / 16)) (String (hex_digit (n mod 16)) EmptyString)))))
  else String c EmptyString.

Fixpoint escape (s : string) : string :=
  match s with
  | EmptyString => EmptyString
  | String c rest => escape_char c +:+ escape rest
  end.

Definition QuoteJSONString (s : string) : string :=
  String dquote (escape s +:+ String dquote EmptyString).

(** [Number::toString] on an integer of magnitude below 2^53, where it
    prints every digit.  Larger integers, which a double may not hold and
    which are printed with the shortest digits that identify the double and
    with an exponent from 10^21 on, and numbers with a fraction are not
    numbers of the model. *)
Definition Number_toString (n : Z) : string :=
  NilZero.string_of_int (Z.to_int n).

(** [JSON.stringify] on a value that is not a reference; the result is
    [undefined] ([None]) for [undefined]. *)
Definition JSON_stringify (v : value) : option string :=
  match v with
  | VUndefined => None
  | VNull => Some "null"
  | VBool true => Some "true"
  | VBool false => Some "false"
  | VNumber n => Some (Number_toString n)
  | VString s => Some (QuoteJSONString s)
  | VRef _ => None
  end.

(** A result spliced into a template literal. *)
Definition template (json : option string) : string :=
  default "undefined" json.

(** ** Outcomes: a result, a thrown [TypeError], or recursion that has not
    finished within the given depth. *)

Inductive outcome (A : Type) : Type :=
| Return (a : A)
| Throw (msg : string)
| Unfinished.
Arguments Return {A} a.
Arguments Throw {A} msg.
Arguments Unfinished {A}.

(** A computation that reads and extends the [seen] set. *)
Definition M (A : Type) : Type := gset loc -> outcome (A * gset loc).

Definition ret {A} (a : A) : M A := fun seen => Return (a, seen).

Definition bind {A B} (m : M A) (f : A -> M B) : M B :=
  fun seen =>
    match m seen with
    | Return (a, seen') => f a seen'
    | Throw msg => Throw msg
    | Unfinished => Unfinished
    end.

Definition throw {A} (msg : string) : M A := fun _ => Throw msg.
Definition unfinished {A} : M A := fun _ => Unfinished.
Definition seen_has (l : loc) : M bool := fun seen => Return (bool_decide (l ∈ seen), seen).
Definition seen_add (l : loc) : M unit := fun seen => Return (tt, {[l]} ∪ seen).

Notation "'let*' x ':=' m 'in' k" := (bind m (fun x => k))
  (at level 10, x name, m at level 100, k at level 200).

(** [l.map((x, i) => f x i)] with a callback that runs in [M], left to
    right. *)
Fixpoint map_indexed {A B} (f : A -> nat -> M B) (i : nat) (l : list A)
  : M (list B) :=
  match l with
  | [] => ret []
  | x :: rest =>
      let* y := f x i in
      let* ys := map_indexed f (S i) rest in
      ret (y :: ys)
  end.

(** The same for a pure callback. *)
Fixpoint mapi {A B} (f : A -> nat -> B) (i : nat) (l : list A) : list B :=
  match l with
  | [] => []
  | x :: rest => f x i :: mapi f (S i) rest
  end.

(** ** The serializer (part_003, lines 588-643 and 58-113)

    The two versions of the file differ in the text that opens an
    annotation, [" // "] in the later one and [" // ERROR: "] in the earlier
    one; [marker] is that text.  [errorsByPath] is used as a map from paths
    to error lists; the paths looked up start with a slash. *)

Definition group_errors (errors : list ErrorObject)
  : gmap string (list ErrorObject) :=
  fold_left
    (fun (errorsByPath : gmap string (list ErrorObject)) error =>
       <[instancePath error :=
           default [] (errorsByPath !! instancePath error) ++ [error]]>
         errorsByPath)
    errors ∅.

Section stringify.

Variable errorsByPath : gmap string (list ErrorObject).
Variable indent : string.
Variable marker : string.

(** The end of a template: [errors.length > 0 ? ` // ${...}` : ""]. *)
Definition annotation (path : string) : string :=
  let errors := default [] (errorsByPath !! path) in
  if (0 <? length errors)%nat
  then marker +:+ String.concat ", " (map message errors)
  else EmptyString.

Definition comma (i len : nat) : string :=
  if (i <? len - 1)%nat then "," else EmptyString.

(** The template literal of the array callback. *)
Definition element_line (depth i len : nat) (path : string)
  (json : option string) : string :=
  String_repeat indent (depth + 1) +:+ template json +:+ comma i len
  +:+ annotation path.

(** The template literal of the object callback. *)
Definition property_line (depth i len : nat) (path k : string)
  (json : option string) : string :=
  String_repeat indent (depth + 1) +:+ QuoteJSONString k +:+ ": "
  +:+ template json +:+ comma i len +:+ annotation path.

Definition brackets (open close inner : string) (depth : nat) : string :=
  open +:+ nl +:+ inner +:+ nl +:+ String_repeat indent depth +:+ close.

Variable h : heap.

Fixpoint stringify (fuel : nat) (parent : string) (value : value)
  (depth : nat) {struct fuel} : M (option string) :=
  match fuel with
  | O => unfinished
  | S fuel =>
      match value with
      | VRef l =>
          match h l with
          | CArray elems =>
              if (length elems =? 0)%nat then ret (Some "[]")
              else
                let* inner :=
                  map_indexed
                    (fun v i =>
                       let path := parent +:+ "/" +:+ index_string i in
                       let* json := stringify fuel path v (depth + 1) in
                       ret (element_line depth i (length elems) path json))
                    0%nat elems in
                ret (Some (brackets "[" "]" (String.concat nl inner) depth))
          | CObject props =>
              let* was_seen := seen_has l in
              if was_seen : bool
              then throw "Converting circular structure to JSON"
              else
                let* _ := seen_add l in
                let keys :=
                  List.filter (fun k => negb (is_undefined (get_prop props k)))
                              (Object_keys props) in
                if (length keys =? 0)%nat then ret (Some "{}")
                else
                  let* inner :=
                    map_indexed
                      (fun k i =>
                         let path := parent +:+ "/" +:+ k in
                         let v := get_prop props k in
                         let* json := stringify fuel path v (depth + 1) in
                         ret (property_line depth i (length keys) path k json))
                      0%nat keys in
                  ret (Some (brackets "{" "}" (String.concat nl inner) depth))
          end
      | _ => ret (JSON_stringify value)
      end
  end.

End stringify.

Definition run {A} (m : M A) : outcome A :=
  match m ∅ with
  | Return (a, _) => Return a
  | Throw msg => Throw msg
  | Unfinished => Unfinished
  end.

Definition stringifyWithMarker (marker : string) (fuel : nat) (h : heap)
  (value : value) (errors : list ErrorObject) (space : nat)
  : outcome (option string) :=
  let errorsByPath := group_errors errors in
  let indent := String_repeat " " space in
  run (stringify errorsByPath indent marker h fuel EmptyString value 0%nat).

(** Lines 588-643. *)
Definition myStringifyWithErrors := stringifyWithMarker " // ".

(** Lines 58-113, the earlier version. *)
Definition myStringifyWithErrors_earlier := stringifyWithMarker " // ERROR: ".

(** The serializer [f] returns [out] on [value]: every recursion depth from
    some depth on gives that result. *)
Definition returns
  (f : nat -> heap -> value -> list ErrorObject -> nat -> outcome (option string))
  (h : heap) (value : value) (errors : list ErrorObject) (space : nat)
  (out : option string) : Prop :=
  exists fuel0, forall fuel, (fuel0 <= fuel)%nat ->
    f fuel h value errors space = Return out.

Definition stringifies (marker : string) := returns (stringifyWithMarker marker).

(** ** Trees

    A JsonValue of the specification: the finite unfolding of a value whose
    references form a tree.  A property that holds [undefined] is an entry
    with [JUndefined]. *)

#[local] Unset Elimination Schemes.
Inductive json : Type :=
| JUndefined
| JNull
| JBool (b : bool)
| JNumber (n : Z)
| JString (s : string)
| JArray (elems : list json)
| JObject (props : list (string * json)).
#[local] Set Elimination Schemes.

(** Structural induction on trees, through the lists of children. *)
Section json_induction.

Variable P : json -> Prop.
Hypothesis Pundefined : P JUndefined.
Hypothesis Pnull : P JNull.
Hypothesis Pbool : forall b, P (JBool b).
Hypothesis Pnumber : forall n, P (JNumber n).
Hypothesis Pstring : forall s, P (JString s).
Hypothesis Parray : forall elems, Forall P elems -> P (JArray elems).
Hypothesis Pobject :
  forall props, Forall (fun kv => P (snd kv)) props -> P (JObject props).

Fixpoint json_ind (t : json) : P t :=
  match t with
  | JUndefined => Pundefined
  | JNull => Pnull
  | JBool b => Pbool b
  | JNumber n => Pnumber n
  | JString s => Pstring s
  | JArray elems =>
      Parray elems
        ((fix all (l : list json) : Forall P l :=
            match l with
            | [] => @List.Forall_nil _ P
            | t :: rest => @List.Forall_cons _ P t rest (json_ind t) (all rest)
            end) elems)
  | JObject props =>
      Pobject props
        ((fix all (l : list (string * json)) : Forall (fun kv => P (snd kv)) l :=
            match l with
            | [] => @List.Forall_nil _ (fun kv => P (snd kv))
            | kv :: rest => @List.Forall_cons _ (fun kv => P (snd kv)) kv rest (json_ind (snd kv)) (all rest)
            end) props)
  end.

End json_induction.

Definition json_is_undefined (t : json) : bool :=
  match t with JUndefined => true | _ => false end.

(** The value of a leaf. *)
Definition leaf_value (t : json) : value :=
  match t with
  | JNull => VNull
  | JBool b => VBool b
  | JNumber n => VNumber n
  | JString s => VString s
  | _ => VUndefined
  end.

(** [represents h v t ls]: in the heap [h] the value [v] unfolds to the tree
    [t], and [ls] lists the objects met on the way, in the order the
    serializer visits them. *)
Inductive represents (h : heap) : value -> json -> list loc -> Prop :=
| rep_undefined : represents h VUndefined JUndefined []
| rep_null : represents h VNull JNull []
| rep_bool b : represents h (VBool b) (JBool b) []
| rep_number n : represents h (VNumber n) (JNumber n) []
| rep_string s : represents h (VString s) (JString s) []
| rep_array l elems ts ls :
    h l = CArray elems ->
    represents_elems h elems ts ls ->
    represents h (VRef l) (JArray ts) ls
| rep_object l props pts ls :
    h l = CObject props ->
    NoDup (map fst props) ->
    represents_props h props pts ls ->
    represents h (VRef l) (JObject pts) (l :: ls)
with represents_elems (h : heap) : list value -> list json -> list loc -> Prop :=
| rep_elems_nil : represents_elems h [] [] []
| rep_elems_cons v t ls vs ts ls' :
    represents h v t ls ->
    represents_elems h vs ts ls' ->
    represents_elems h (v :: vs) (t :: ts) (ls ++ ls')
with represents_props (h : heap)
  : list (string * value) -> list (string * json) -> list loc -> Prop :=
| rep_props_nil : represents_props h [] [] []
| rep_props_cons k v t ls ps pts ls' :
    represents h v t ls ->
    represents_props h ps pts ls' ->
    represents_props h ((k, v) :: ps) ((k, t) :: pts) (ls ++ ls').

Scheme represents_min := Minimality for represents Sort Prop
  with represents_elems_min := Minimality for represents_elems Sort Prop
  with represents_props_min := Minimality for represents_props Sort Prop.
Combined Scheme represents_mutind
  from represents_min, represents_elems_min, represents_props_min.

(** The value [v] is a tree in [h]: it unfolds to [t] and no object occurs
    twice in it. *)
Definition is_tree (h : heap) (v : value) (t : json) : Prop :=
  exists ls, represents h v t ls /\ NoDup ls.

Fixpoint height (t : json) : nat :=
  match t with
  | JArray elems => S (list_max (map height elems))
  | JObject props => S (list_max (map (fun kv => height (snd kv)) props))
  | _ => 0
  end.

(** The tree without the object entries that hold [undefined]. *)
Fixpoint prune (t : json) : json :=
  match t with
  | JArray elems => JArray (map prune elems)
  | JObject props =>
      JObject (flat_map (fun kv => if json_is_undefined (snd kv) then []
                                   else [(fst kv, prune (snd kv))]) props)
  | _ => t
  end.

(** The entries of an object that are printed. *)
Definition present (props : list (string * json)) : list (string * json) :=
  List.filter (fun kv => negb (json_is_undefined (snd kv))) props.

(** ** Lines

    The text of a container spans several lines.  An element or entry of a
    container starts on a line that opens with the indentation (and the key)
    and ends on a line that closes with the comma and the annotation. *)

Fixpoint suffix_last (suf : string) (ls : list string) : list string :=
  match ls with
  | [] => []
  | [l] => [l +:+ suf]
  | l :: rest => l :: suffix_last suf rest
  end.

Definition decorate (pre suf : string) (ls : list string) : list string :=
  match ls with
  | [] => []
  | l :: rest => suffix_last suf ((pre +:+ l) :: rest)
  end.

Fixpoint set_last {A} (x : A) (l : list A) : list A :=
  match l with
  | [] => []
  | [_] => [x]
  | y :: rest => y :: set_last x rest
  end.

Fixpoint no_newline (s : string) : Prop :=
  match s with
  | EmptyString => True
  | String c rest => c <> "010"%char /\ no_newline rest
  end.

(** ** The serializer on trees

    [stringify] on a tree, without the [seen] set: what the serializer
    returns when its input is a tree. *)
Section render.

Variable errorsByPath : gmap string (list ErrorObject).
Variable indent : string.
Variable marker : string.

Fixpoint render (t : json) (parent : string) (depth : nat) : option string :=
  match t with
  | JArray elems =>
      if (length elems =? 0)%nat then Some "[]"
      else
        let inner :=
          mapi (fun (r : string -> nat -> option string) i =>
                  let path := parent +:+ "/" +:+ index_string i in
                  element_line errorsByPath indent marker depth i
                               (length elems) path (r path (depth + 1)%nat))
               0%nat (map render elems) in
        Some (brackets indent "[" "]" (String.concat nl inner) depth)
  | JObject props =>
      let keys :=
        List.filter (fun e => negb (json_is_undefined (fst (snd e))))
                    (map (fun kv => (fst kv, (snd kv, render (snd kv)))) props) in
      if (length keys =? 0)%nat then Some "{}"
      else
        let inner :=
          mapi (fun (e : string * (json * (string -> nat -> option string))) i =>
                  let path := parent +:+ "/" +:+ fst e in
                  property_line errorsByPath indent marker depth i
                                (length keys) path (fst e)
                                (snd (snd e) path (depth + 1)%nat))
               0%nat keys in
        Some (brackets indent "{" "}" (String.concat nl inner) depth)
  | _ => JSON_stringify (leaf_value t)
  end.

(** The lines of the elements of an array, and of the printed entries of an
    object, [len] being the number of lines and [i] the index of the first. *)
Definition element_lines (elems : list json) (parent : string) (depth : nat)
  (len i : nat) : list string :=
  mapi (fun t i =>
          let path := parent +:+ "/" +:+ index_string i in
          element_line errorsByPath indent marker depth i len path
                       (render t path (depth + 1)%nat))
       i elems.

Definition property_lines (props : list (string * json)) (parent : string)
  (depth : nat) (len i : nat) : list string :=
  mapi (fun kv i =>
          let path := parent +:+ "/" +:+ fst kv in
          property_line errorsByPath indent marker depth i len path (fst kv)
                        (render (snd kv) path (depth + 1)%nat))
       i props.

(** The lines of the text of a tree. *)
Fixpoint render_lines (t : json) (parent : string) (depth : nat)
  : list string :=
  match t with
  | JArray elems =>
      if (length elems =? 0)%nat then ["[]"]
      else
        "[" :: concat
                 (mapi (fun (r : string -> nat -> list string) i =>
                          let path := parent +:+ "/" +:+ index_string i in
                          decorate (String_repeat indent (depth + 1))
                                   (comma i (length elems)
                                    +:+ annotation errorsByPath marker path)
                                   (r path (depth + 1)%nat))
                       0%nat (map render_lines elems))
            ++ [String_repeat indent depth +:+ "]"]
  | JObject props =>
      let keys :=
        List.filter (fun e => negb (json_is_undefined (fst (snd e))))
                    (map (fun kv => (fst kv, (snd kv, render_lines (snd kv))))
                         props) in
      if (length keys =? 0)%nat then ["{}"]
      else
        "{" :: concat
                 (mapi (fun (e : string * (json * (string -> nat -> list string))) i =>
                          let path := parent +:+ "/" +:+ fst e in
                          decorate (String_repeat indent (depth + 1)
                                    +:+ QuoteJSONString (fst e) +:+ ": ")
                                   (comma i (length keys)
                                    +:+ annotation errorsByPath marker path)
                                   (snd (snd e) path (depth + 1)%nat))
                       0%nat keys)
            ++ [String_repeat indent depth +:+ "}"]
  | _ => [template (JSON_stringify (leaf_value t))]
  end.

(** The line of an object entry, [sep] being what follows the value. *)
Definition property_text (parent : string) (depth : nat) (sep : string)
  (kv : string * json) : string :=
  let path := parent +:+ "/" +:+ fst kv in
  String_repeat indent (depth + 1) +:+ QuoteJSONString (fst kv) +:+ ": "
  +:+ template (render (snd kv) path (depth + 1)%nat) +:+ sep
  +:+ annotation errorsByPath marker path.

End render.

(** ** Vocabulary of the specification *)

(** The messages of the errors whose [instancePath] is exactly [path], in
    the order of the error list. *)
Definition messages_at (errors : list ErrorObject) (path : string)
  : list string :=
  map message (List.filter (fun e => String.eqb (instancePath e) path) errors).

(** The annotation for [path]: nothing when no error has that path. *)
Definition annotation_of (marker : string) (errors : list ErrorObject)
  (path : string) : string :=
  match messages_at errors path with
  | [] => EmptyString
  | ms => marker +:+ String.concat ", " ms
  end.

(** For each line of the text of the tree [t] found at path [parent]: the
    path of the array element or object entry that ends on that line, if
    there is one.  The element at index [i] of a container at path [P] has
    path [P/i], the entry with key [k] has path [P/k]; the lines that open a
    container, and the last line of the root, end no element or entry. *)
Fixpoint line_tags (t : json) (parent : string) : list (option string) :=
  match t with
  | JArray elems =>
      if (length elems =? 0)%nat then [None]
      else
        None :: concat
                  (mapi (fun (r : string -> list (option string)) i =>
                           let path := parent +:+ "/" +:+ index_string i in
                           set_last (Some path) (r path))
                        0%nat (map line_tags elems))
             ++ [None]
  | JObject props =>
      let keys :=
        List.filter (fun e => negb (json_is_undefined (fst (snd e))))
                    (map (fun kv => (fst kv, (snd kv, line_tags (snd kv)))) props) in
      if (length keys =? 0)%nat then [None]
      else
        None :: concat
                  (mapi (fun (e : string * (json * (string -> list (option string)))) i =>
                           let path := parent +:+ "/" +:+ fst e in
                           set_last (Some path) (snd (snd e) path))
                        0%nat keys)
             ++ [None]
  | _ => [None]
  end.

(** What is appended to a line: the annotation of the path it is tagged
    with. *)
Definition tag_annotation (marker : string) (errors : list ErrorObject)
  (tag : option string) : string :=
  match tag with
  | Some path => annotation_of marker errors path
  | None => EmptyString
  end.

Definition annotate (marker : string) (errors : list ErrorObject)
  (lines : list string) (tags : list (option string)) : list string :=
  zip_with (fun line tag => line +:+ tag_annotation marker errors tag)
           lines tags.

(** An array without elements, or an object all of whose properties hold
    [undefined]. *)
Definition empty_container (h : heap) (l : loc) : Prop :=
  match h l with
  | CArray elems => elems = []
  | CObject props => Forall (fun kv => snd kv = VUndefined) props
  end.

Definition empty_text (h : heap) (l : loc) : string :=
  match h l with
  | CArray _ => "[]"
  | CObject _ => "{}"
  end.

(** ** Containment

    [child h l v]: the container at [l] holds the value [v], as an element or
    as the value of a property. *)
Inductive child (h : heap) : loc -> value -> Prop :=
| child_element l elems v :
    h l = CArray elems -> In v elems -> child h l v
| child_property l props k v :
    h l = CObject props -> In (k, v) props -> child h l v.

(** The container at [l] holds a reference to the container at [l']. *)
Definition contains (h : heap) (l l' : loc) : Prop := child h l (VRef l').

(** The container at [l] contains itself, directly or transitively. *)
Definition contains_itself (h : heap) (l : loc) : Prop :=
  Relation_Operators.clos_trans loc (contains h) l l.

(** The container at [l] is the value [v] or is contained in it. *)
Definition reaches (h : heap) (v : value) (l : loc) : Prop :=
  exists l0, v = VRef l0 /\
             Relation_Operators.clos_refl_trans loc (contains h) l0 l.

(** The keys of every object are pairwise distinct. *)
Definition distinct_keys (h : heap) : Prop :=
  forall l props, h l = CObject props -> NoDup (map fst props).

(** ** Elements and entries at any depth *)



(** ** Example inputs *)

(** The two versions of the serializer and the text each puts before the
    messages. *)
Definition versions
  : list ((nat -> heap -> value -> list ErrorObject -> nat
           -> outcome (option string)) * string) :=
  [(myStringifyWithErrors, " // ");
   (myStringifyWithErrors_earlier, " // ERROR: ")].


(** [const a = []; a.push(a)] at location 1, and
    [const o = {}; o.self = o] at location 2. *)
Definition heap_cycles : heap :=
  fun l =>
    match l with
    | 1%nat => CArray [VRef 1%nat]
    | _ => CObject [("self", VRef 2%nat)]
    end.

Definition error_at (path msg : string) : ErrorObject :=
  {| instancePath := path; message := msg |}.

(** [{ a: { b: 1, u: undefined } }] at location 1, and the tree it unfolds
    to. *)
Definition heap_nested : heap :=
  fun l =>
    match l with
    | 1%nat => CObject [("a", VRef 2%nat)]
    | _ => CObject [("b", VNumber 1); ("u", VUndefined)]
    end.

Definition tree_nested : json :=
  JObject [("a", JObject [("b", JNumber 1); ("u", JUndefined)])].

Definition errors_nested : list ErrorObject :=
  [error_at "/a/b" "must be string"; error_at "/a" "must have property c";
   error_at "/a/b" "must match format"].




(** ** A JSON parser

    The grammar of RFC 8259, for the part of it the serializer can produce:
    number tokens are the canonical integers (a fraction or an exponent is
    not accepted), and a [\u] escape is accepted for the code points below
    U+0080.  Whatever this parser accepts, [JSON.parse] accepts with the same
    result.  An object is built as [JSON.parse] builds it: a repeated key
    keeps its first position and takes the last value. *)

Definition is_ws (c : ascii) : bool :=
  Ascii.eqb c " " || Ascii.eqb c "009" || Ascii.eqb c "010" || Ascii.eqb c "013".

Fixpoint skip_ws (s : string) : string :=
  match s with
  | EmptyString => EmptyString
  | String c rest => if is_ws c then skip_ws rest else s
  end.

(** The rest of [s] after the prefix [p], if [s] starts with [p]. *)
Fixpoint strip_prefix (p s : string) : option string :=
  match p with
  | EmptyString => Some s
  | String c p' =>
      match s with
      | EmptyString => None
      | String d s' => if Ascii.eqb c d then strip_prefix p' s' else None
      end
  end.

Definition is_number_char (c : ascii) : bool :=
  Ascii.eqb c "-" || ((48 <=? nat_of_ascii c)%nat && (nat_of_ascii c <=? 57)%nat).

(** The longest prefix of number characters, and what follows it. *)
Fixpoint span_number (s : string) : string * string :=
  match s with
  | EmptyString => (EmptyString, EmptyString)
  | String c rest =>
      if is_number_char c
      then let (tok, rest') := span_number rest in (String c tok, rest')
      else (EmptyString, s)
  end.

Definition continues_number (s : string) : bool :=
  match s with
  | String c _ =>
      Ascii.eqb c "." || Ascii.eqb c "e" || Ascii.eqb c "E" || Ascii.eqb c "+"
  | EmptyString => false
  end.

(** An integer token in canonical form: the one [Number::toString] prints. *)
Definition parse_number (s : string) : option (Z * string) :=
  let (tok, rest) := span_number s in
  if continues_number rest then None
  else
    match NilZero.int_of_string tok with
    | Some d =>
        let n := Z.of_int d in
        if String.eqb (Number_toString n) tok then Some (n, rest) else None
    | None => None
    end.

Definition hex_value (c : ascii) : option nat :=
  let n := nat_of_ascii c in
  if (48 <=? n)%nat && (n <=? 57)%nat then Some (n - 48)%nat
  else if (97 <=? n)%nat && (n <=? 102)%nat then Some (n - 87)%nat
  else if (65 <=? n)%nat && (n <=? 70)%nat then Some (n - 55)%nat
  else None.

(** The code point of [\uXXXX], when it is below U+0080. *)
Definition unicode_escape (a b c d : ascii) : option ascii :=
  match hex_value a, hex_value b, hex_value c, hex_value d with
  | Some 0%nat, Some 0%nat, Some x, Some y =>
      if (x <? 8)%nat then Some (ascii_of_nat (16 * x + y)) else None
  | _, _, _, _ => None
  end.

Definition simple_escape (e : ascii) : option ascii :=
  if Ascii.eqb e dquote then Some dquote
  else if Ascii.eqb e backslash then Some backslash
  else if Ascii.eqb e "/" then Some "/"%char
  else if Ascii.eqb e "b" then Some "008"%char
  else if Ascii.eqb e "f" then Some "012"%char
  else if Ascii.eqb e "n" then Some "010"%char
  else if Ascii.eqb e "r" then Some "013"%char
  else if Ascii.eqb e "t" then Some "009"%char
  else None.

(** The characters of a string up to its closing quote. *)
Fixpoint parse_chars (s : string) : option (string * string) :=
  match s with
  | EmptyString => None
  | String c rest =>
      if Ascii.eqb c dquote then Some (EmptyString, rest)
      else if Ascii.eqb c backslash then
        match rest with
        | String e rest' =>
            if Ascii.eqb e "u" then
              match rest' with
              | String h1 (String h2 (String h3 (String h4 rest''))) =>
                  match unicode_escape h1 h2 h3 h4, parse_chars rest'' with
                  | Some x, Some (str, r) => Some (String x str, r)
                  | _, _ => None
                  end
              | _ => None
              end
            else
              match simple_escape e, parse_chars rest' with
              | Some x, Some (str, r) => Some (String x str, r)
              | _, _ => None
              end
        | EmptyString => None
        end
      else if (nat_of_ascii c <? 32)%nat then None
      else
        match parse_chars rest with
        | Some (str, r) => Some (String c str, r)
        | None => None
        end
  end.

(** [CreateDataProperty] on an object in key order. *)
Fixpoint set_prop (props : list (string * json)) (k : string) (v : json)
  : list (string * json) :=
  match props with
  | [] => [(k, v)]
  | (k', v') :: rest =>
      if String.eqb k' k then (k', v) :: rest else (k', v') :: set_prop rest k v
  end.

Section parse_loops.

(** The parser of one value. *)
Variable parse_value : string -> option (json * string).

(** The elements of an array after the first bracket, up to and including
    the closing bracket. *)
Fixpoint parse_elements (n : nat) (s : string) : option (list json * string) :=
  match n with
  | O => None
  | S n =>
      match parse_value s with
      | Some (v, rest) =>
          match skip_ws rest with
          | String c rest' =>
              if Ascii.eqb c "," then
                match parse_elements n rest' with
                | Some (vs, r) => Some (v :: vs, r)
                | None => None
                end
              else if Ascii.eqb c "]" then Some ([v], rest')
              else None
          | EmptyString => None
          end
      | None => None
      end
  end.

(** The members of an object after the first brace, added to [acc], up to
    and including the closing brace. *)
Fixpoint parse_members (n : nat) (acc : list (string * json)) (s : string)
  : option (list (string * json) * string) :=
  match n with
  | O => None
  | S n =>
      match skip_ws s with
      | String q s1 =>
          if Ascii.eqb q dquote then
            match parse_chars s1 with
            | Some (k, s2) =>
                match skip_ws s2 with
                | String colon s3 =>
                    if Ascii.eqb colon ":" then
                      match parse_value s3 with
                      | Some (v, rest) =>
                          match skip_ws rest with
                          | String c rest' =>
                              if Ascii.eqb c "," then
                                parse_members n (set_prop acc k v) rest'
                              else if Ascii.eqb c "}" then
                                Some (set_prop acc k v, rest')
                              else None
                          | EmptyString => None
                          end
                      | None => None
                      end
                    else None
                | EmptyString => None
                end
            | None => None
            end
          else None
      | EmptyString => None
      end
  end.

End parse_loops.

Fixpoint parse_value (fuel : nat) (s : string) : option (json * string) :=
  match fuel with
  | O => None
  | S fuel =>
      match skip_ws s with
      | EmptyString => None
      | String c rest =>
          if Ascii.eqb c "[" then
            match skip_ws rest with
            | String c' rest' =>
                if Ascii.eqb c' "]" then Some (JArray [], rest')
                else
                  match parse_elements (parse_value fuel) fuel rest with
                  | Some (vs, r) => Some (JArray vs, r)
                  | None => None
                  end
            | EmptyString => None
            end
          else if Ascii.eqb c "{" then
            match skip_ws rest with
            | String c' rest' =>
                if Ascii.eqb c' "}" then Some (JObject [], rest')
                else
                  match parse_members (parse_value fuel) fuel [] rest with
                  | Some (ps, r) => Some (JObject ps, r)
                  | None => None
                  end
            | EmptyString => None
            end
          else if Ascii.eqb c dquote then
            match parse_chars rest with
            | Some (str, r) => Some (JString str, r)
            | None => None
            end
          else
            match strip_prefix "null" (String c rest) with
            | Some r => Some (JNull, r)
            | None =>
                match strip_prefix "true" (String c rest) with
                | Some r => Some (JBool true, r)
                | None =>
                    match strip_prefix "false" (String c rest) with
                    | Some r => Some (JBool false, r)
                    | None =>
                        match parse_number (String c rest) with
                        | Some (n, r) => Some (JNumber n, r)
                        | None => None
                        end
                    end
                end
            end
      end
  end.

(** [JSON.parse]: one value, then nothing but white space. *)
Definition JSON_parse (fuel : nat) (s : string) : option json :=
  match parse_value fuel s with
  | Some (v, rest) =>
      match skip_ws rest with
      | EmptyString => Some v
      | String _ _ => None
      end
  | None => None
  end.






Fixpoint all_number_chars (s : string) : Prop :=
  match s with
  | EmptyString => True
  | String c rest => is_number_char c = true /\ all_number_chars rest
  end.


(** ** Further vocabulary for the serializer *)

(** An [instancePath] as ajv writes it, a JSON pointer: empty, or starting
    with a slash. *)
Definition is_pointer (path : string) : bool :=
  match path with
  | EmptyString => true
  | String c _ => Ascii.eqb c "/"
  end.

(** The paths of the elements and entries that are printed. *)
Definition printed_paths (t : json) : list string :=
  omap id (line_tags t EmptyString).

(** An outcome other than unfinished recursion; the only error thrown is the
    [TypeError] of line 617 (line 87 in the earlier version). *)
Definition finished {A} (o : outcome A) : Prop :=
  match o with
  | Return _ => True
  | Throw msg => msg = "Converting circular structure to JSON"
  | Unfinished => False
  end.

(** With recursion depth [fuel] the serializer finishes on every value that
    unfolds to a tree of smaller height. *)
Definition finishes_on (errorsByPath : gmap string (list ErrorObject))
  (indent marker : string) (h : heap) (fuel : nat) : Prop :=
  forall v t ls, represents h v t ls -> (height t < fuel)%nat ->
  forall parent depth seen,
    finished (stringify errorsByPath indent marker h fuel parent v depth seen).

(** [const o = {}; const a = [o, o]]: the array at location 1 holds the
    object at location 2 twice. *)
Definition heap_shared : heap :=
  fun l =>
    match l with
    | 1%nat => CArray [VRef 2%nat; VRef 2%nat]
    | _ => CObject []
    end.

(** ** The series identifier (part_003, lines 166-175 and 696-705)

    [slugify] is the same function in every version of the editor.  The
    model covers text made of ASCII characters, on which [normalize("NFKC")]
    changes nothing, and locale tags made of a two-letter language, then
    optionally a script and a region.  Outside of that the model gives
    [None]: other characters need the Unicode tables, a three-letter
    language may stand for a two-letter one ([tur] for [tr]), and Turkish and
    Azerbaijani lower-case the letter I to a character outside ASCII. *)

Fixpoint string_forall (p : ascii -> bool) (s : string) : bool :=
  match s with
  | EmptyString => true
  | String c rest => p c && string_forall p rest
  end.

Fixpoint string_map (f : ascii -> ascii) (s : string) : string :=
  match s with
  | EmptyString => EmptyString
  | String c rest => String (f c) (string_map f rest)
  end.

Fixpoint string_filter (p : ascii -> bool) (s : string) : string :=
  match s with
  | EmptyString => EmptyString
  | String c rest =>
      if p c then String c (string_filter p rest) else string_filter p rest
  end.

Definition code_in (lo hi : nat) (c : ascii) : bool :=
  ((lo <=? nat_of_ascii c) && (nat_of_ascii c <=? hi))%nat.

Definition is_ascii7 : ascii -> bool := code_in 0 127.
Definition is_upper : ascii -> bool := code_in 65 90.
Definition is_lower : ascii -> bool := code_in 97 122.
Definition is_digit : ascii -> bool := code_in 48 57.

(** [\p{L}] and [\p{N}] on ASCII. *)
Definition is_letter (c : ascii) : bool := is_upper c || is_lower c.
Definition is_number : ascii -> bool := is_digit.

(** [\s], and what [trim] removes, on ASCII: tab, line feed, vertical tab,
    form feed, carriage return and space. *)
Definition is_space (c : ascii) : bool := code_in 9 13 c || code_in 32 32 c.

Definition is_hyphen (c : ascii) : bool := Ascii.eqb c "-".
Definition is_ampersand (c : ascii) : bool := Ascii.eqb c "&".

(** [s.normalize("NFKC")]. *)
Definition normalize_NFKC (s : string) : option string :=
  if string_forall is_ascii7 s then Some s else None.

(** The subtags of a locale tag. *)
Fixpoint subtags (tag : string) : list string :=
  match tag with
  | EmptyString => [EmptyString]
  | String c rest =>
      if is_hyphen c then EmptyString :: subtags rest
      else match subtags rest with
           | t :: ts => String c t :: ts
           | [] => [String c EmptyString]
           end
  end.

Definition is_language (t : string) : bool :=
  (String.length t =? 2)%nat && string_forall is_letter t.
Definition is_script (t : string) : bool :=
  (String.length t =? 4)%nat && string_forall is_letter t.
Definition is_region (t : string) : bool :=
  ((String.length t =? 2)%nat && string_forall is_letter t)
  || ((String.length t =? 3)%nat && string_forall is_digit t).

(** Tags such as [en], [en-US], [sr-Cyrl] and [en-Latn-US]. *)
Definition is_locale (tag : string) : bool :=
  match subtags tag with
  | [l] => is_language l
  | [l; x] => is_language l && (is_script x || is_region x)
  | [l; x; r] => is_language l && is_script x && is_region r
  | _ => false
  end.

Definition lower (c : ascii) : ascii :=
  if is_upper c then ascii_of_nat (nat_of_ascii c + 32) else c.

(** Turkish and Azerbaijani have their own lower-case form of I.  With a
    two-letter language no other tag stands for one of the two. *)
Definition is_turkic (tag : string) : bool :=
  match subtags tag with
  | l :: _ =>
      String.eqb (string_map lower l) "tr" || String.eqb (string_map lower l) "az"
  | [] => false
  end.

(** [s.toLocaleLowerCase(locale)]. *)
Definition toLocaleLowerCase (locale s : string) : option string :=
  if is_locale locale && string_forall is_ascii7 s
     && negb (is_turkic locale && negb (string_forall (fun c => negb (Ascii.eqb c "I")) s))
  then Some (string_map lower s)
  else None.

(** [s.replace(/&/g, "and")]. *)
Fixpoint replace_ampersands (s : string) : string :=
  match s with
  | EmptyString => EmptyString
  | String c rest =>
      if is_ampersand c then "and" +:+ replace_ampersands rest
      else String c (replace_ampersands rest)
  end.

(** [s.replace(/[^\p{L}\p{N}\s-]+/gu, "")]. *)
Definition kept (c : ascii) : bool :=
  is_letter c || is_number c || is_space c || is_hyphen c.

Definition remove_others (s : string) : string := string_filter kept s.

Fixpoint trimStart (s : string) : string :=
  match s with
  | EmptyString => EmptyString
  | String c rest => if is_space c then trimStart rest else s
  end.

Fixpoint trimEnd (s : string) : string :=
  match s with
  | EmptyString => EmptyString
  | String c rest =>
      match trimEnd rest with
      | EmptyString => if is_space c then EmptyString else String c EmptyString
      | rest' => String c rest'
      end
  end.

Definition trim (s : string) : string := trimEnd (trimStart s).

(** [s.split(/\s+/)]: the pieces between the runs of white space; a run at
    the start or at the end of [s] leaves an empty piece there, and the
    empty text gives one empty piece.  [in_run] tells that the character
    before was white space. *)
Fixpoint split_spaces (in_run : bool) (s : string) : list string :=
  match s with
  | EmptyString => [EmptyString]
  | String c rest =>
      if is_space c then
        if in_run then split_spaces true rest
        else EmptyString :: split_spaces true rest
      else
        match split_spaces false rest with
        | piece :: pieces => String c piece :: pieces
        | [] => [String c EmptyString]
        end
  end.

Definition slugify (s locale : string) : option string :=
  match normalize_NFKC s with
  | Some normal =>
      match toLocaleLowerCase locale normal with
      | Some lowered =>
          Some (String.concat "-"
                  (split_spaces false
                     (trim (remove_others (replace_ampersands lowered)))))
      | None => None
      end
  | None => None
  end.

(** The inputs the model covers. *)
Definition slugify_modelled (s locale : string) : bool :=
  string_forall is_ascii7 s && is_locale locale
  && negb (is_turkic locale
           && negb (string_forall (fun c => negb (Ascii.eqb c "I")) s)).

(** What a slug is made of. *)
Definition is_slug_char (c : ascii) : bool :=
  is_lower c || is_digit c || is_hyphen c.

Definition is_word_char (c : ascii) : bool := is_lower c || is_digit c.

(** ** The suffix proposed for the next event (part_003, lines 229-233 and
    757-761)

    [name.match(/(\d+)$/)]: the digits the name ends with, when it ends with
    a digit. *)
Fixpoint trailing_digits (name : string) : option string :=
  match name with
  | EmptyString => None
  | String _ rest =>
      if string_forall is_digit name then Some name else trailing_digits rest
  end.

(** The suffix, [year] being [getYear(new Date(templateEvent.startDate))]:
    one more than the number the name of the last event ends with, or else
    one more than [year].  The number is a double: up to 2^53 the sum is
    exact, beyond that the model gives [None]. *)
Definition next_suffix (year : Z) (name : string) : option string :=
  match trailing_digits name with
  | Some digits =>
      match NilZero.uint_of_string digits with
      | Some d =>
          if Z.of_uint d <? 2 ^ 53
          then Some (Number_toString (Z.of_uint d + 1))
          else None
      | None => None
      end
  | None => Some (Number_toString (year + 1))
  end.

(** [new Date(s)] for a date-only text [YYYY-MM-DD] with a month from 01
    to 12 and a day that the month has: the instant is midnight UTC of that
    day, given by its day number.  What other texts give depends on the
    engine; they are outside the model. *)
Definition digit_value (c : ascii) : Z := Z.of_nat (nat_of_ascii c) - 48.

Definition Date_parse (s : string) : option Z :=
  match s with
  | String y1 (String y2 (String y3 (String y4 (String s1
      (String m1 (String m2 (String s2
        (String d1 (String d2 EmptyString))))))))) =>
      if forallb is_digit [y1; y2; y3; y4; m1; m2; d1; d2]
         && Ascii.eqb s1 "-" && Ascii.eqb s2 "-"
      then
        let y := 1000 * digit_value y1 + 100 * digit_value y2
                 + 10 * digit_value y3 + digit_value y4 in
        let m := 10 * digit_value m1 + digit_value m2 in
        let d := 10 * digit_value d1 + digit_value d2 in
        if (1 <=? m) && (m <=? 12) && (1 <=? d) && (d <=? ES.DaysInMonth y (m - 1))
        then Some (ES.MakeDay y (m - 1) d)
        else None
      else None
  | _ => None
  end.

(** The local calendar day of the instant midnight UTC of day [day], in a
    zone that is [tz] minutes east of Greenwich at that instant. *)
Definition local_day (tz day : Z) : Z := (day * 1440 + tz) / 1440.

(** [getYear(new Date(startDate))]: the date-only text is read as UTC, the
    year is read in local time. *)
Definition start_year (tz : Z) (startDate : string) : option Z :=
  option_map (fun day => getYear (local_day tz day)) (Date_parse startDate).

(** Lines 229-233: the suffix proposed from the start date and the name of
    the last event. *)
Definition initial_suffix (tz : Z) (startDate name : string) : option string :=
  match start_year tz startDate with
  | Some year => next_suffix year name
  | None => None
  end.

Fixpoint last_is_digit (s : string) : bool :=
  match s with
  | EmptyString => false
  | String c EmptyString => is_digit c
  | String _ rest => last_is_digit rest
  end.

(** ** The rows of the viewer (part_003, lines 1011-1033) *)

(** [raw.split("\n")]. *)
Fixpoint split_lines (raw : string) : list string :=
  match raw with
  | EmptyString => [EmptyString]
  | String c rest =>
      if Ascii.eqb c "010" then EmptyString :: split_lines rest
      else match split_lines rest with
           | line :: lines => String c line :: lines
           | [] => [String c EmptyString]
           end
  end.

(** [v.indexOf(needle)], [None] standing for -1. *)
Fixpoint indexOf (needle v : string) : option nat :=
  if String.prefix needle v then Some 0%nat
  else match v with
       | EmptyString => None
       | String _ rest => option_map S (indexOf needle rest)
       end.

(** [v.slice(0, j)] and [v.slice(j)]. *)
Fixpoint slice_to (j : nat) (v : string) : string :=
  match j, v with
  | S j, String c rest => String c (slice_to j rest)
  | _, _ => EmptyString
  end.

Fixpoint slice_from (j : nat) (v : string) : string :=
  match j, v with
  | S j, String _ rest => slice_from j rest
  | _, _ => v
  end.

(** One row: the text shown as it is and, from the first [//] on, the text
    shown in the error colour. *)
Definition highlight (v : string) : string * option string :=
  match indexOf "//" v with
  | Some j => (slice_to j v, Some (slice_from j v))
  | None => (v, None)
  end.

(** ** The identifier of the new event (part_003, lines 283-293 and 810-820)

    [startDate] and [endDate] are the dates of the form, valid dates or
    [None] for [null]. *)
Definition generatedEventId (seriesId suffix : string)
  (startDate endDate : option Z) : string :=
  let idSuffix :=
    if match endDate with
       | Some e => String.eqb (Number_toString (getYear e)) suffix
       | None => false
       end
    then suffix
    else match startDate with
         | Some s => Number_toString (getYear s)
         | None => EmptyString
         end in
  if negb (String.eqb idSuffix EmptyString)
  then seriesId +:+ "-" +:+ idSuffix
  else seriesId.
(** * Theorems *)

Section day_arithmetic.

Lemma DayFromYear_succ y :
    ES.DayFromYear (y + 1) = ES.DayFromYear y + ES.DaysInYear y.
Proof.
    unfold ES.DayFromYear, ES.DaysInYear, ES.leapDays, ES.InLeapYear.
    destruct (y mod 4 =? 0) eqn:E4, (y mod 100 =? 0) eqn:E100,
             (y mod 400 =? 0) eqn:E400; cbn [andb orb negb];
      rewrite ?Z.eqb_eq, ?Z.eqb_neq in *; Z.div_mod_to_equations; lia.
Qed.

Lemma YearFromDay_spec day :
    ES.DayFromYear (ES.YearFromDay day) <= day
    < ES.DayFromYear (ES.YearFromDay day + 1).
Proof.
    unfold ES.YearFromDay.
    set (y0 := 1970 + 400 * day / 146097).
    destruct (day <? ES.DayFromYear y0) eqn:E1;
      [| destruct (ES.DayFromYear (y0 + 1) <=? day) eqn:E2];
      rewrite ?Z.ltb_lt, ?Z.ltb_ge, ?Z.leb_le, ?Z.leb_gt in *;
      subst y0; unfold ES.DayFromYear in *; Z.div_mod_to_equations; lia.
Qed.

Lemma DayFromYear_mono a b : a <= b -> ES.DayFromYear a <= ES.DayFromYear b.
Proof. unfold ES.DayFromYear. intros. Z.div_mod_to_equations. lia. Qed.

Lemma YearFromDay_unique y day :
    ES.DayFromYear y <= day < ES.DayFromYear (y + 1) -> ES.YearFromDay day = y.
Proof.
    intros [Hlo Hhi]. pose proof (YearFromDay_spec day) as [Ylo Yhi].
    destruct (Z.lt_trichotomy (ES.YearFromDay day) y) as [Hlt | [Heq | Hgt]];
      [exfalso | exact Heq | exfalso].
    - pose proof (DayFromYear_mono (ES.YearFromDay day + 1) y). lia.
    - pose proof (DayFromYear_mono (y + 1) (ES.YearFromDay day)). lia.
Qed.

Lemma leapDays_range y : 0 <= ES.leapDays y <= 1.
Proof. unfold ES.leapDays. destruct (ES.InLeapYear y); lia. Qed.

Lemma DayWithinYear_range day :
    0 <= ES.DayWithinYear day < 365 + ES.leapDays (ES.YearFromDay day).
Proof.
    unfold ES.DayWithinYear. pose proof (YearFromDay_spec day) as H.
    rewrite DayFromYear_succ in H. unfold ES.DaysInYear in H. lia.
Qed.

Lemma MakeDay_month y m dt :
    0 <= m <= 11 ->
    ES.MakeDay y m dt
    = ES.DayFromYear y + ES.DaysBeforeMonth (ES.leapDays y) m + dt - 1.
Proof.
    intros Hm. unfold ES.MakeDay.
    rewrite Z.div_small, Z.mod_small, Z.add_0_r by lia. reflexivity.
Qed.

(** The three civil fields of a day determine it. *)
Lemma civil_fields day :
    0 <= ES.MonthFromDay day <= 11 /\
    1 <= ES.DateFromDay day
      <= ES.DaysInMonth (ES.YearFromDay day) (ES.MonthFromDay day) /\
    ES.MakeDay (ES.YearFromDay day) (ES.MonthFromDay day) (ES.DateFromDay day)
    = day.
Proof.
    pose proof (DayWithinYear_range day) as Hd.
    pose proof (leapDays_range (ES.YearFromDay day)) as Hl.
    assert (Hm : 0 <= ES.MonthFromDay day <= 11).
    { unfold ES.MonthFromDay.
      repeat match goal with
             | |- context [?a <? ?b] => destruct (a <? b)
             end; lia. }
    split; [exact Hm |]. rewrite MakeDay_month by exact Hm.
    unfold ES.DateFromDay, ES.MonthFromDay in *.
    assert (Hdw : ES.DayWithinYear day = day - ES.DayFromYear (ES.YearFromDay day))
      by reflexivity.
    set (l := ES.leapDays (ES.YearFromDay day)) in *.
    set (d := ES.DayWithinYear day) in *.
    repeat match goal with
           | |- context [?a <? ?b] => destruct (Z.ltb_spec a b)
           end;
      cbn [ES.DaysInMonth ES.DaysBeforeMonth]; fold l; lia.
Qed.

End day_arithmetic.

Section civil.

Ltac month_cases m H :=
    assert (m = 0 \/ m = 1 \/ m = 2 \/ m = 3 \/ m = 4 \/ m = 5 \/ m = 6 \/
            m = 7 \/ m = 8 \/ m = 9 \/ m = 10 \/ m = 11) as H by lia;
    repeat (destruct H as [H | H]; [subst m |]); [.. | subst m].

Lemma MakeDay_year y m dt :
    0 <= m <= 11 -> 1 <= dt <= ES.DaysInMonth y m ->
    ES.YearFromDay (ES.MakeDay y m dt) = y.
Proof.
    intros Hm Hdt. apply YearFromDay_unique.
    rewrite DayFromYear_succ, MakeDay_month by exact Hm.
    unfold ES.DaysInYear. pose proof (leapDays_range y) as Hl.
    month_cases m Hc; cbn [ES.DaysInMonth ES.DaysBeforeMonth] in *; lia.
Qed.

Lemma MakeDay_fields y m dt :
    0 <= m <= 11 -> 1 <= dt <= ES.DaysInMonth y m ->
    ES.YearFromDay (ES.MakeDay y m dt) = y /\
    ES.MonthFromDay (ES.MakeDay y m dt) = m /\
    ES.DateFromDay (ES.MakeDay y m dt) = dt.
Proof.
    intros Hm Hdt. pose proof (MakeDay_year y m dt Hm Hdt) as Hy.
    split; [exact Hy |].
    assert (Hmo : ES.MonthFromDay (ES.MakeDay y m dt) = m).
    { unfold ES.MonthFromDay, ES.DayWithinYear. rewrite Hy.
      rewrite MakeDay_month by exact Hm.
      pose proof (leapDays_range y) as Hl.
      month_cases m Hc; cbn [ES.DaysInMonth ES.DaysBeforeMonth] in *;
        repeat match goal with
               | |- context [?a <? ?b] =>
                   first [ rewrite (proj2 (Z.ltb_lt a b)) by lia
                         | rewrite (proj2 (Z.ltb_ge a b)) by lia ]
               end; reflexivity. }
    split; [exact Hmo |].
    unfold ES.DateFromDay, ES.DayWithinYear. rewrite Hmo, Hy.
    rewrite MakeDay_month by exact Hm. lia.
Qed.

Lemma MakeDay_date_add y m dt n :
    ES.MakeDay y m (dt + n) = ES.MakeDay y m dt + n.
Proof. unfold ES.MakeDay. lia. Qed.

Lemma addDays_add date n : addDays date n = date + n.
Proof.
    unfold addDays. rewrite MakeDay_date_add.
    destruct (civil_fields date) as (_ & _ & ->). reflexivity.
Qed.

Lemma startOfMonth_eq date : startOfMonth date = date - (getDate date - 1).
Proof.
    unfold startOfMonth, getDate.
    destruct (civil_fields date) as (_ & _ & H).
    rewrite <- H at 3.
    replace 1 with (ES.DateFromDay date + - (ES.DateFromDay date - 1)) at 1 by lia.
    rewrite MakeDay_date_add. lia.
Qed.

Lemma getDay_range date : 0 <= getDay date <= 6.
Proof. unfold getDay, ES.WeekDay. pose proof (Z.mod_pos_bound (date + 4) 7). lia. Qed.

Lemma getDay_add date n : getDay (date + n) = (getDay date + n) mod 7.
Proof.
    unfold getDay, ES.WeekDay.
    rewrite Z.add_mod_idemp_l by lia. f_equal. lia.
Qed.

End civil.

Section weekday_counting.

Lemma daysFrom_snoc lo n :
    daysFrom lo (S n) = daysFrom lo n ++ [lo + Z.of_nat n].
Proof. unfold daysFrom. rewrite seq_S, map_app. reflexivity. Qed.

(** Closed form of the number of days on weekday [w] among [n] consecutive
    days starting at [lo]. *)
Lemma count_weekday lo w n :
    0 <= w <= 6 ->
    Z.of_nat (length (List.filter (fun d => getDay d =? w) (daysFrom lo n)))
    = (Z.of_nat n + 6 - (w - getDay lo) mod 7) / 7.
Proof.
    intros Hw. pose proof (getDay_range lo) as Hlo.
    induction n as [| n IH].
    - cbn. Z.div_mod_to_equations. lia.
    - rewrite daysFrom_snoc, List.filter_app, length_app, Nat2Z.inj_add, IH.
      cbn [List.filter]. rewrite getDay_add.
      destruct (Z.eqb_spec ((getDay lo + Z.of_nat n) mod 7) w) as [E | E];
        cbn [length]; Z.div_mod_to_equations; lia.
Qed.

Lemma getDate_range date :
    1 <= getDate date <= ES.DaysInMonth (getYear date) (getMonth date).
Proof. exact (proj1 (proj2 (civil_fields date))). Qed.

Lemma getDay_startOfMonth date :
    getDay date = (getDay (startOfMonth date) + (getDate date - 1)) mod 7.
Proof.
    rewrite <- getDay_add. f_equal. rewrite startOfMonth_eq. lia.
Qed.

Lemma weekdayOrdinal_eq date : weekdayOrdinal date = (getDate date - 1) / 7 + 1.
Proof.
    unfold weekdayOrdinal. pose proof (getDate_range date) as Hd.
    rewrite count_weekday by apply getDay_range.
    rewrite Z2Nat.id by lia. rewrite (getDay_startOfMonth date) at 1.
    pose proof (getDay_range (startOfMonth date)).
    Z.div_mod_to_equations. lia.
Qed.

Lemma occurrencesInMonth_eq y m w :
    0 <= w <= 6 ->
    occurrencesInMonth y m w
    = (ES.DaysInMonth y m + 6 - (w - getDay (ES.MakeDay y m 1)) mod 7) / 7.
Proof.
    intros Hw. unfold occurrencesInMonth. rewrite count_weekday by exact Hw.
    rewrite Z2Nat.id; [reflexivity |].
    unfold ES.DaysInMonth. pose proof (leapDays_range y).
    repeat match goal with |- context [match ?x with _ => _ end] => destruct x end; lia.
Qed.

Lemma DaysInMonth_range y m : 28 <= ES.DaysInMonth y m <= 31.
Proof.
    unfold ES.DaysInMonth. pose proof (leapDays_range y).
    repeat match goal with |- context [match ?x with _ => _ end] => destruct x end; lia.
Qed.

End weekday_counting.

Section month_boundaries.

Lemma MakeDay_carry y m dt :
    0 <= m <= 11 ->
    ES.MakeDay y (m + 1) dt = ES.MakeDay y m (dt + ES.DaysInMonth y m).
Proof.
    intros Hm. destruct (Z.eq_dec m 11) as [-> | Hne].
    - unfold ES.MakeDay. change ((11 + 1) / 12) with 1.
      change ((11 + 1) mod 12) with 0. change (11 / 12) with 0.
      change (11 mod 12) with 11. rewrite !Z.add_0_r, DayFromYear_succ.
      unfold ES.DaysInYear. cbn [ES.DaysBeforeMonth ES.DaysInMonth]. lia.
    - rewrite !MakeDay_month by lia.
      assert (m = 0 \/ m = 1 \/ m = 2 \/ m = 3 \/ m = 4 \/ m = 5 \/ m = 6 \/
              m = 7 \/ m = 8 \/ m = 9 \/ m = 10) as Hc by lia.
      repeat (destruct Hc as [Hc | Hc]; [subst m |]); [.. | subst m];
        match goal with
        | |- context [ES.DaysBeforeMonth _ (?a + 1)] =>
            let v := eval compute in (a + 1) in change (a + 1) with v
        end;
        cbn [ES.DaysBeforeMonth ES.DaysInMonth]; lia.
Qed.

Lemma MakeDay_normal y m dt :
    ES.MakeDay y m dt = ES.MakeDay (y + m / 12) (m mod 12) dt.
Proof.
    unfold ES.MakeDay. rewrite Z.mod_mod by lia.
    rewrite (Z.div_small (m mod 12)) by (apply Z.mod_pos_bound; lia).
    rewrite Z.add_0_r. reflexivity.
Qed.

Lemma first_offset y m off :
    ES.MakeDay y m 1 + off = ES.MakeDay y m (1 + off).
Proof. unfold ES.MakeDay. lia. Qed.

(** A day offset that stays below the month length stays in the month. *)
Lemma inMonth_offset y m off :
    0 <= m <= 11 -> 0 <= off < ES.DaysInMonth y m ->
    inMonth y m (ES.MakeDay y m 1 + off) /\
    getDate (ES.MakeDay y m 1 + off) = 1 + off.
Proof.
    intros Hm Hoff. rewrite first_offset.
    destruct (MakeDay_fields y m (1 + off)) as (Hy & Hmo & Hd); [lia .. |].
    unfold inMonth, getYear, getMonth, getDate. auto.
Qed.

(** An offset past the end of the month, by less than four weeks, lands in
    the following month. *)
Lemma inMonth_next y m off :
    0 <= m <= 11 ->
    ES.DaysInMonth y m <= off < ES.DaysInMonth y m + 28 ->
    inMonth (y + (m + 1) / 12) ((m + 1) mod 12) (ES.MakeDay y m 1 + off).
Proof.
    intros Hm Hoff. rewrite first_offset.
    replace (1 + off) with (1 + off - ES.DaysInMonth y m + ES.DaysInMonth y m)
      by lia.
    rewrite <- MakeDay_carry by exact Hm. rewrite MakeDay_normal.
    pose proof (DaysInMonth_range (y + (m + 1) / 12) ((m + 1) mod 12)).
    destruct (MakeDay_fields (y + (m + 1) / 12) ((m + 1) mod 12)
                             (1 + off - ES.DaysInMonth y m)) as (Hy & Hmo & _);
      [pose proof (Z.mod_pos_bound (m + 1) 12); lia | lia |].
    unfold inMonth, getYear, getMonth. auto.
Qed.

(** A negative offset of less than four weeks lands in the preceding
    month. *)
Lemma inMonth_prev y m off :
    0 <= m <= 11 -> -28 <= off < 0 ->
    inMonth (y + (m - 1) / 12) ((m - 1) mod 12) (ES.MakeDay y m 1 + off).
Proof.
    intros Hm Hoff. rewrite first_offset.
    set (y' := y + (m - 1) / 12). set (m' := (m - 1) mod 12).
    assert (Hm' : 0 <= m' <= 11) by (subst m'; pose proof (Z.mod_pos_bound (m - 1) 12); lia).
    assert (E : forall dt, ES.MakeDay y m dt = ES.MakeDay y' (m' + 1) dt).
    { intros dt. subst y' m'. destruct (Z.eq_dec m 0) as [-> | Hne].
      - change ((0 - 1) / 12) with (-1). change ((0 - 1) mod 12 + 1) with 12.
        rewrite (MakeDay_normal _ 12). change (12 / 12) with 1.
        change (12 mod 12) with 0. f_equal. lia.
      - rewrite Z.div_small, Z.mod_small by lia. f_equal; lia. }
    rewrite E, MakeDay_carry by exact Hm'.
    pose proof (DaysInMonth_range y' m').
    destruct (MakeDay_fields y' m' (1 + off + ES.DaysInMonth y' m'))
      as (Hy & Hmo & _); [lia .. |].
    unfold inMonth, getYear, getMonth. auto.
Qed.

Lemma Date_new_eq y m dt :
    ~ 0 <= y <= 99 -> ES.Date_new y m dt = ES.MakeDay y m dt.
Proof.
    intros Hy. unfold ES.Date_new.
    destruct (Z.leb_spec 0 y), (Z.leb_spec y 99); cbn [andb]; solve [reflexivity | lia].
Qed.

End month_boundaries.

Section projector.

Lemma addYearSameWeekday_offset date :
    addYearSameWeekday date
    = ES.Date_new (getYear date + 1) (getMonth date) 1
      + (getDay date
         - getDay (ES.Date_new (getYear date + 1) (getMonth date) 1)
         + 7 * (getWeekOfMonth date - 1)).
Proof.
    unfold addYearSameWeekday, getWeekdayInNthWeek. rewrite addDays_add. lia.
Qed.

Lemma getDay_addYearSameWeekday date :
    getDay (addYearSameWeekday date) = getDay date.
Proof.
    rewrite addYearSameWeekday_offset, getDay_add.
    pose proof (getDay_range date).
    Z.div_mod_to_equations. lia.
Qed.

Lemma getMonth_range date : 0 <= getMonth date <= 11.
Proof. exact (proj1 (civil_fields date)). Qed.

(** The numbers a projection depends on, and how they are related. *)
Lemma projection_facts date :
    let dom := getDate date in
    let fdw := getDay (startOfMonth date) in
    let wd := getDay date in
    1 <= dom <= 31 /\ 0 <= fdw <= 6 /\ 0 <= wd <= 6 /\
    wd = (fdw + (dom - 1)) mod 7 /\
    getWeekOfMonth date = (dom + fdw + 6) / 7 /\
    weekdayOrdinal date = (dom - 1) / 7 + 1.
Proof.
    intros dom fdw wd. pose proof (getDate_range date) as Hd.
    pose proof (DaysInMonth_range (getYear date) (getMonth date)).
    repeat split; try apply getDay_range; try lia.
    - apply getDay_startOfMonth.
    - unfold getWeekOfMonth, ES.Math_ceil_div. fold dom fdw.
      Z.div_mod_to_equations. lia.
    - apply weekdayOrdinal_eq.
Qed.

End projector.

Section projector_claims.

(** Everything the claims need about one projection, in terms of the target
    month's first day [first'] and the offset added to it. *)
Lemma projection_target date :
    ~ 0 <= getYear date + 1 <= 99 ->
    let y' := getYear date + 1 in
    let m := getMonth date in
    let first' := ES.MakeDay y' m 1 in
    let off := getDay date - getDay first' + 7 * (getWeekOfMonth date - 1) in
    addYearSameWeekday date = first' + off /\
    occurrencesInMonth y' m (getDay date)
    = (ES.DaysInMonth y' m + 6 - (getDay date - getDay first') mod 7) / 7.
Proof.
    intros Hy y' m first' off. split.
    - rewrite addYearSameWeekday_offset. fold y' m.
      rewrite Date_new_eq by exact Hy. reflexivity.
    - apply occurrencesInMonth_eq, getDay_range.
Qed.

(** C1, amended: for every date [D] whose following year is not in 0..99
    the projection has the weekday of [D]; and when the weekday of [D] lies
    on the same side of the first-day weekday in the source month and in the
    target month, and the target month has as many occurrences of that
    weekday as the ordinal of [D], the projection lies in the same month of
    the following year and has the weekday-in-month ordinal of [D]. *)
Theorem addYearSameWeekday_same_slot (D : Z) :
    ~ 0 <= getYear D + 1 <= 99 ->
    getDay (addYearSameWeekday D) = getDay D /\
    ((getDay (ES.MakeDay (getYear D + 1) (getMonth D) 1) <= getDay D
      <-> getDay (startOfMonth D) <= getDay D) ->
     weekdayOrdinal D
     <= occurrencesInMonth (getYear D + 1) (getMonth D) (getDay D) ->
     inMonth (getYear D + 1) (getMonth D) (addYearSameWeekday D) /\
     weekdayOrdinal (addYearSameWeekday D) = weekdayOrdinal D).
Proof.
    intros Hy. split; [apply getDay_addYearSameWeekday |]. intros Hside Hocc.
    destruct (projection_target D Hy) as [HD' Hocc'].
    destruct (projection_facts D) as (Hdom & Hfdw & Hwd & Hwdeq & Hk & Hord).
    cbv zeta in *.
    pose proof (getDay_range (ES.MakeDay (getYear D + 1) (getMonth D) 1)) as Hfdw'.
    pose proof (DaysInMonth_range (getYear D + 1) (getMonth D)) as HL.
    pose proof (getMonth_range D) as Hm.
    rewrite Hocc', Hord in Hocc.
    set (off := getDay D - getDay (ES.MakeDay (getYear D + 1) (getMonth D) 1)
                + 7 * (getWeekOfMonth D - 1)) in *.
    assert (Hoff : 0 <= off < ES.DaysInMonth (getYear D + 1) (getMonth D) /\
                   off / 7 = (getDate D - 1) / 7).
    { subst off. rewrite Hk.
      revert Hside Hocc Hwdeq.
      generalize dependent (getDay (ES.MakeDay (getYear D + 1) (getMonth D) 1)).
      generalize dependent (ES.DaysInMonth (getYear D + 1) (getMonth D)).
      generalize dependent (getDay (startOfMonth D)).
      generalize dependent (getDay D). generalize dependent (getDate D).
      clear. intros dom Hdom wd Hwd fdw Hfdw L HL fdw' Hfdw' Hside Hocc Hwdeq.
      Z.div_mod_to_equations. lia. }
    destruct Hoff as [Hoff Hdiv].
    destruct (inMonth_offset (getYear D + 1) (getMonth D) off Hm Hoff) as [Hin Hdate].
    rewrite HD'. split; [exact Hin |].
    rewrite weekdayOrdinal_eq, Hord, Hdate.
    replace (1 + off - 1) with off by lia. rewrite Hdiv. reflexivity.
Qed.

Lemma MakeDay_of_fields date :
  ES.MakeDay (getYear date) (getMonth date) (getDate date) = date.
Proof. exact (proj2 (proj2 (civil_fields date))). Qed.

Lemma same_slot_arith_converse dom wd fdw L fdw' :
  1 <= dom <= 31 -> 0 <= wd <= 6 -> 0 <= fdw <= 6 -> 28 <= L <= 31 -> 0 <= fdw' <= 6 ->
  (wd - fdw' + 7 * ((dom + fdw + 6) / 7 - 1)) / 7 + 1 = (dom - 1) / 7 + 1 ->
  0 <= wd - fdw' + 7 * ((dom + fdw + 6) / 7 - 1) < L ->
  wd = (fdw + (dom - 1)) mod 7 ->
  (fdw' <= wd <-> fdw <= wd) /\ (dom - 1) / 7 + 1 <= (L + 6 - (wd - fdw') mod 7) / 7.
Proof.
  intros Hdom Hwd Hfdw HL Hfdw' Hsame Hrange Hwdeq.
  pose proof (Z.div_mod (dom - 1) 7 ltac:(lia)) as E1.
  pose proof (Z.mod_pos_bound (dom - 1) 7 ltac:(lia)) as B1.
  set (q := (dom - 1) / 7) in *. set (r := (dom - 1) mod 7) in *.
  assert (Hdomeq : dom = 7 * q + r + 1) by lia.
  assert (Hq : 0 <= q <= 4) by lia.
  clearbody q r. subst dom.
  destruct (Z_lt_le_dec (fdw + r) 7) as [Hs | Hs].
  - assert (wd = fdw + r) by (subst wd; replace (fdw + (7 * q + r + 1 - 1)) with (fdw + r + q * 7) by lia; rewrite Z.mod_add by lia; apply Z.mod_small; lia).
    assert (Hk : (7 * q + r + 1 + fdw + 6) / 7 = q + 1).
    { replace (7 * q + r + 1 + fdw + 6) with ((r + fdw + 7) + q * 7) by lia. rewrite Z.div_add by lia.
      replace (r + fdw + 7) with ((r + fdw) + 1 * 7) by lia. rewrite Z.div_add by lia. rewrite Z.div_small by lia. lia. }
    rewrite Hk in *.
    destruct (Z_lt_le_dec wd fdw') as [Hs' | Hs'].
    + exfalso. replace (wd - fdw' + 7 * (q + 1 - 1)) with ((wd - fdw' + 7) + (q - 1) * 7) in Hsame by lia.
      rewrite Z.div_add in Hsame by lia. rewrite Z.div_small in Hsame by lia. lia.
    + split; [lia |]. rewrite (Z.mod_small (wd - fdw')) by lia.
      apply Z.div_le_lower_bound; lia.
  - assert (wd = fdw + r - 7) by (subst wd; replace (fdw + (7 * q + r + 1 - 1)) with (fdw + r - 7 + (q + 1) * 7) by lia; rewrite Z.mod_add by lia; apply Z.mod_small; lia).
    assert (Hk : (7 * q + r + 1 + fdw + 6) / 7 = q + 2).
    { replace (7 * q + r + 1 + fdw + 6) with ((r + fdw - 7) + (q + 2) * 7) by lia. rewrite Z.div_add by lia.
      rewrite Z.div_small by lia. lia. }
    rewrite Hk in *.
    destruct (Z_lt_le_dec wd fdw') as [Hs' | Hs'].
    + split; [lia |].
      rewrite <- (Z.mod_unique (wd - fdw') 7 (-1) (wd - fdw' + 7)) by lia.
      apply Z.div_le_lower_bound; lia.
    + exfalso. replace (wd - fdw' + 7 * (q + 2 - 1)) with ((wd - fdw') + (q + 1) * 7) in Hsame by lia.
      rewrite Z.div_add in Hsame by lia. rewrite Z.div_small in Hsame by lia. lia.
Qed.

(** The two conditions of the amended C1 are also necessary: whenever the
    projection lies in the same month of the following year with the ordinal
    of [D], the weekday of [D] lies on the same side of the first-day weekday
    in both months and the target month has that many occurrences. *)
Lemma same_slot_conditions_necessary (D : Z) :
  ~ 0 <= getYear D + 1 <= 99 ->
  inMonth (getYear D + 1) (getMonth D) (addYearSameWeekday D) ->
  weekdayOrdinal (addYearSameWeekday D) = weekdayOrdinal D ->
  (getDay (ES.MakeDay (getYear D + 1) (getMonth D) 1) <= getDay D
   <-> getDay (startOfMonth D) <= getDay D) /\
  weekdayOrdinal D <= occurrencesInMonth (getYear D + 1) (getMonth D) (getDay D).
Proof.
  intros Hy [HinY HinM] Hsame.
  destruct (projection_target D Hy) as [HD' Hocc'].
  destruct (projection_facts D) as (Hdom & Hfdw & Hwd & Hwdeq & Hk & Hord).
  cbv zeta in *.
  pose proof (getDay_range (ES.MakeDay (getYear D + 1) (getMonth D) 1)) as Hfdw'.
  pose proof (DaysInMonth_range (getYear D + 1) (getMonth D)) as HL.
  pose proof (getDate_range (addYearSameWeekday D)) as Hdate.
  rewrite HinY, HinM in Hdate.
  pose proof (MakeDay_of_fields (addYearSameWeekday D)) as Hciv.
  rewrite HinY, HinM in Hciv.
  pose proof (first_offset (getYear D + 1) (getMonth D)
                           (getDate (addYearSameWeekday D) - 1)) as Hfirst.
  replace (1 + (getDate (addYearSameWeekday D) - 1))
    with (getDate (addYearSameWeekday D)) in Hfirst by lia.
  rewrite weekdayOrdinal_eq, Hord in Hsame. rewrite Hocc', Hord.
  assert (Hoff : getDate (addYearSameWeekday D) - 1
                 = getDay D - getDay (ES.MakeDay (getYear D + 1) (getMonth D) 1)
                   + 7 * (getWeekOfMonth D - 1)) by lia.
  rewrite Hoff in Hsame. rewrite Hk in Hoff, Hsame.
  apply (same_slot_arith_converse (getDate D) (getDay D) (getDay (startOfMonth D)));
    try assumption; lia.
Qed.

Lemma addYearSameWeekday_same_slot_witness :
  (let D := ymd 2024 9 1 in
   ~ 0 <= getYear D + 1 <= 99 /\
   getDay (addYearSameWeekday D) = getDay D) /\
  (let D := ymd 2024 3 9 in
   ~ 0 <= getYear D + 1 <= 99 /\
   getDay (addYearSameWeekday D) = getDay D /\
   inMonth (getYear D + 1) (getMonth D) (addYearSameWeekday D) /\
   weekdayOrdinal (addYearSameWeekday D) = weekdayOrdinal D).
Proof.
  assert (Hy1 : ~ 0 <= getYear (ymd 2024 9 1) + 1 <= 99).
  { change (getYear (ymd 2024 9 1) + 1) with 2025. lia. }
  assert (Hy2 : ~ 0 <= getYear (ymd 2024 3 9) + 1 <= 99).
  { change (getYear (ymd 2024 3 9) + 1) with 2025. lia. }
  split.
  - split; [exact Hy1 |].
    exact (proj1 (addYearSameWeekday_same_slot (ymd 2024 9 1) Hy1)).
  - split; [exact Hy2 |].
    destruct (addYearSameWeekday_same_slot (ymd 2024 3 9) Hy2) as [Hday Hslot].
    split; [exact Hday |]. apply Hslot.
    + vm_compute. split; intros _ H; discriminate H.
    + vm_compute. intros H; discriminate H.
Defined.

(** The claim C1 as stated fails on 2024-09-01, a Sunday that opens its month:
    the projection is 2025-08-31, outside September 2025.  It also fails on
    2024-06-29, the fifth Saturday of June: the projection is 2025-07-05. *)
Lemma addYearSameWeekday_slot_counterexample :
  (let D := ymd 2024 9 1 in
   let D' := addYearSameWeekday D in
   (getYear D, getMonth D, getDate D) = (2024, 8, 1) /\
   (getYear D', getMonth D', getDate D') = (2025, 7, 31) /\
   ~ (inMonth (getYear D + 1) (getMonth D) D' /\ getDay D' = getDay D /\
      weekdayOrdinal D' = weekdayOrdinal D)) /\
  (let D := ymd 2024 6 29 in
   let D' := addYearSameWeekday D in
   (getYear D, getMonth D, getDate D) = (2024, 5, 29) /\
   (getYear D', getMonth D', getDate D') = (2025, 6, 5) /\
   ~ (inMonth (getYear D + 1) (getMonth D) D' /\ getDay D' = getDay D /\
      weekdayOrdinal D' = weekdayOrdinal D)).
Proof.
  split; cbv zeta; (split; [reflexivity |]); (split; [reflexivity |]);
    intros [[_ H] _]; vm_compute in H; discriminate H.
Qed.

Lemma week_row_arith dom fdw wd :
  1 <= dom <= 31 -> 0 <= fdw <= 6 -> wd = (fdw + (dom - 1)) mod 7 ->
  (fdw <= wd -> (dom + fdw + 6) / 7 = (dom - 1) / 7 + 1) /\
  (wd < fdw -> (dom + fdw + 6) / 7 = (dom - 1) / 7 + 2).
Proof. intros Hdom Hfdw ->. split; intros H; Z.div_mod_to_equations; lia. Qed.

(** C6, amended: [k] is the Sunday-based week row of [D] in its month (the
    weekday ordinal of [D] only when the weekday of [D] is not before that of
    the first of the month, one more otherwise); the projection is the first
    of the target month, moved to the weekday of [D] within the first week
    row, plus [k - 1] weeks; it is the [k]-th occurrence of that weekday in
    the target month when the weekday is not before that of the target
    month's first day and the month has [k] of them, and the [k - 1]-th when
    the weekday is before it, [k >= 2] and the month has [k - 1] of them. *)
Theorem getWeekdayInNthWeek_lands (D : Z) :
  ~ 0 <= getYear D + 1 <= 99 ->
  let k := getWeekOfMonth D in
  let y' := getYear D + 1 in
  let first' := ES.MakeDay y' (getMonth D) 1 in
  let D' := addYearSameWeekday D in
  k = ES.Math_ceil_div (getDate D + getDay (startOfMonth D)) 7 /\
  (getDay (startOfMonth D) <= getDay D -> k = weekdayOrdinal D) /\
  (getDay D < getDay (startOfMonth D) -> k = weekdayOrdinal D + 1) /\
  D' = first' + (getDay D - getDay first') + (k - 1) * 7 /\
  getDay D' = getDay D /\
  (getDay first' <= getDay D ->
   k <= occurrencesInMonth y' (getMonth D) (getDay D) ->
   inMonth y' (getMonth D) D' /\ weekdayOrdinal D' = k) /\
  (getDay D < getDay first' -> 2 <= k ->
   k - 1 <= occurrencesInMonth y' (getMonth D) (getDay D) ->
   inMonth y' (getMonth D) D' /\ weekdayOrdinal D' = k - 1).
Proof.
  intros Hy k y' first' D'.
  destruct (projection_target D Hy) as [HD' Hocc'].
  destruct (projection_facts D) as (Hdom & Hfdw & Hwd & Hwdeq & Hk & Hord).
  cbv zeta in *. fold y' first' D' k in HD', Hocc', Hk.
  pose proof (getDay_range first') as Hfdw'.
  pose proof (DaysInMonth_range y' (getMonth D)) as HL.
  pose proof (getMonth_range D) as Hm.
  assert (Hland : forall j, 0 <= D' - first' < ES.DaysInMonth y' (getMonth D) ->
                        (D' - first') / 7 + 1 = j ->
                        inMonth y' (getMonth D) D' /\ weekdayOrdinal D' = j).
  { intros j Hoff Hj.
    destruct (inMonth_offset y' (getMonth D) (D' - first') Hm Hoff) as [Hin Hdate].
    fold first' in Hin, Hdate.
    replace (first' + (D' - first')) with D' in Hin, Hdate by lia.
    split; [exact Hin |]. rewrite weekdayOrdinal_eq, Hdate, <- Hj. f_equal. f_equal. lia. }
  split; [reflexivity |].
  split; [| split; [| split; [lia | split; [apply getDay_addYearSameWeekday |]]]].
  - intros Hside. rewrite Hord, Hk.
    apply (week_row_arith _ _ _ Hdom Hfdw Hwdeq), Hside.
  - intros Hside. rewrite Hord, Hk.
    rewrite (proj2 (week_row_arith _ _ _ Hdom Hfdw Hwdeq) Hside). lia.
  - split.
    + intros Hside Hocc. rewrite Hocc' in Hocc. apply Hland.
      * Z.div_mod_to_equations. lia.
      * Z.div_mod_to_equations. lia.
    + intros Hside Hk2 Hocc. rewrite Hocc' in Hocc. apply Hland.
      * Z.div_mod_to_equations. lia.
      * Z.div_mod_to_equations. lia.
Qed.

Lemma getWeekdayInNthWeek_lands_witness :
  let D := ymd 2024 3 9 in
  ~ 0 <= getYear D + 1 <= 99 /\
  getWeekOfMonth D = 2 /\
  addYearSameWeekday D = ymd 2025 3 1 + (6 - 6) + (2 - 1) * 7 /\
  weekdayOrdinal (addYearSameWeekday D) = 2.
Proof.
  assert (Hy : ~ 0 <= getYear (ymd 2024 3 9) + 1 <= 99).
  { change (getYear (ymd 2024 3 9) + 1) with 2025. lia. }
  split; [exact Hy |].
  destruct (getWeekdayInNthWeek_lands (ymd 2024 3 9) Hy)
    as (_ & _ & _ & Hoff & _ & Hge & _).
  split; [reflexivity |]. split; [exact Hoff |].
  apply Hge; vm_compute; intros H; discriminate H.
Defined.

(** The claim C6 as stated fails on 2024-03-03, the first Sunday of March
    2024: the computed [k] is 2, and the projection 2025-03-02 is the first
    Sunday of March 2025, not the second. *)
Lemma getWeekdayInNthWeek_lands_counterexample :
  let D := ymd 2024 3 3 in
  let k := getWeekOfMonth D in
  let D' := addYearSameWeekday D in
  (getYear D, getMonth D, getDate D) = (2024, 2, 3) /\
  k = ES.Math_ceil_div (getDate D + getDay (startOfMonth D)) 7 /\ k = 2 /\
  weekdayOrdinal D = 1 /\
  (getYear D', getMonth D', getDate D') = (2025, 2, 2) /\
  getDay D' = getDay D /\
  ~ weekdayOrdinal D' = k.
Proof.
  cbv zeta. repeat (split; [reflexivity |]).
  vm_compute. intros H; discriminate H.
Qed.

(** C7: 2024-03-09, the second Saturday of March 2024, projects to
    2025-03-08, the second Saturday of March 2025. *)
Theorem addYearSameWeekday_2024_03_09 :
  let D := ymd 2024 3 9 in
  let D' := addYearSameWeekday D in
  (getYear D, getMonth D, getDate D) = (2024, 2, 9) /\
  getDay D = 6 /\ weekdayOrdinal D = 2 /\
  D' = ymd 2025 3 8 /\
  (getYear D', getMonth D', getDate D') = (2025, 2, 8) /\
  getDay D' = 6 /\ weekdayOrdinal D' = 2.
Proof. cbv zeta. repeat split; reflexivity. Qed.

Lemma spill_arith dom fdw wd fdw' L :
  1 <= dom <= 31 -> 0 <= fdw <= 6 -> 0 <= fdw' <= 6 -> 28 <= L <= 31 ->
  wd = (fdw + (dom - 1)) mod 7 ->
  (dom - 1) / 7 + 1 = 5 ->
  (L + 6 - (wd - fdw') mod 7) / 7 = 4 ->
  let k := (dom + fdw + 6) / 7 in
  let off := wd - fdw' + 7 * (k - 1) in
  5 <= k <= 6 /\
  (fdw' <= wd \/ k = 6 -> L <= off < L + 28) /\
  (wd < fdw' -> k = 5 -> 0 <= off < L /\ off / 7 + 1 = 4).
Proof.
  intros Hdom Hfdw Hfdw' HL -> Hord Hocc k off. subst k off.
  repeat split; intros; Z.div_mod_to_equations; lia.
Qed.

(** C8, amended: when [D] is the fifth occurrence of its weekday and the same
    month of the next year has only four, the projection is the first of that
    month moved to the weekday within the first week row plus [k - 1] weeks,
    with [k] the week row of [D] (5 or 6).  It lies in the following month
    when the weekday of [D] is not before that of the target month's first
    day, or when [k = 6]; when the weekday is before it and [k = 5] it is
    the fourth, last, occurrence within the target month. *)
Theorem addYearSameWeekday_spill (D : Z) :
  ~ 0 <= getYear D + 1 <= 99 ->
  weekdayOrdinal D = 5 ->
  occurrencesInMonth (getYear D + 1) (getMonth D) (getDay D) = 4 ->
  let k := getWeekOfMonth D in
  let y' := getYear D + 1 in
  let m := getMonth D in
  let first' := ES.MakeDay y' m 1 in
  let D' := addYearSameWeekday D in
  5 <= k <= 6 /\
  D' = first' + (getDay D - getDay first') + (k - 1) * 7 /\
  (getDay first' <= getDay D \/ k = 6 ->
   inMonth (y' + (m + 1) / 12) ((m + 1) mod 12) D') /\
  (getDay D < getDay first' -> k = 5 ->
   inMonth y' m D' /\ weekdayOrdinal D' = 4).
Proof.
  intros Hy Hord Hocc k y' m first' D'.
  destruct (projection_target D Hy) as [HD' Hocc'].
  destruct (projection_facts D) as (Hdom & Hfdw & Hwd & Hwdeq & Hk & Hord').
  cbv zeta in *. fold y' m first' D' k in HD', Hocc', Hk, Hocc.
  pose proof (getDay_range first') as Hfdw'.
  pose proof (DaysInMonth_range y' m) as HL.
  pose proof (getMonth_range D) as Hm. fold m in Hm.
  rewrite Hord' in Hord. rewrite Hocc' in Hocc.
  destruct (spill_arith _ _ _ _ _ Hdom Hfdw Hfdw' HL Hwdeq Hord Hocc)
    as (Hk56 & Hnext & Hstay).
  rewrite <- Hk in Hk56, Hnext, Hstay.
  split; [exact Hk56 |]. split; [lia |]. split.
  - intros Hc. rewrite HD'. apply inMonth_next; [exact Hm | apply Hnext, Hc].
  - intros Hlt Hk5. destruct (Hstay Hlt Hk5) as [Hoff Hdiv].
    destruct (inMonth_offset y' m _ Hm Hoff) as [Hin Hdate].
    fold first' in Hin, Hdate. rewrite <- HD' in Hin, Hdate.
    split; [exact Hin |]. rewrite weekdayOrdinal_eq, Hdate, <- Hdiv.
    f_equal. f_equal. lia.
Qed.

Lemma addYearSameWeekday_spill_witness :
  let D := ymd 2024 6 29 in
  weekdayOrdinal D = 5 /\
  occurrencesInMonth (getYear D + 1) (getMonth D) (getDay D) = 4 /\
  inMonth 2025 6 (addYearSameWeekday D).
Proof.
  assert (Hy : ~ 0 <= getYear (ymd 2024 6 29) + 1 <= 99).
  { change (getYear (ymd 2024 6 29) + 1) with 2025. lia. }
  split; [reflexivity |]. split; [reflexivity |].
  destruct (addYearSameWeekday_spill (ymd 2024 6 29) Hy eq_refl eq_refl)
    as (_ & _ & Hnext & _).
  apply Hnext. left. vm_compute. intros H; discriminate H.
Defined.

(** The claim C8 as stated fails on 2024-03-29, the fifth Friday of March
    2024: March 2025 has four Fridays, and the projection is 2025-03-28, the
    fourth of them, not a date in April. *)
Lemma addYearSameWeekday_spill_counterexample :
  let D := ymd 2024 3 29 in
  let D' := addYearSameWeekday D in
  (getYear D, getMonth D, getDate D) = (2024, 2, 29) /\
  getDay D = 5 /\ weekdayOrdinal D = 5 /\
  occurrencesInMonth (getYear D + 1) (getMonth D) (getDay D) = 4 /\
  (getYear D', getMonth D', getDate D') = (2025, 2, 28) /\
  ~ inMonth 2025 3 D'.
Proof.
  cbv zeta. repeat (split; [reflexivity |]).
  intros [_ H]. vm_compute in H. discriminate H.
Qed.

Lemma Date_new_MakeDay y m dt : exists yr, ES.Date_new y m dt = ES.MakeDay yr m dt.
Proof. unfold ES.Date_new. eauto. Qed.

(** C10: 2024-09-01 is a Sunday in a month that starts on a Sunday, the
    first of September 2025 is a Monday, and the projection of 2024-09-01 is
    2025-08-31, before the first of September 2025, in August.  In general,
    when the weekday of [D] is before that of the first day of the target
    month and the computed week of [D] is 1, the offset from that first day
    is negative and the projection lies in the month that precedes the month
    of [D]. *)
Theorem addYearSameWeekday_precedes_month :
  (exists D,
     (getYear D, getMonth D, getDate D) = (2024, 8, 1) /\
     getDay D = 0 /\ getDay (startOfMonth D) = 0 /\
     getDay (ES.Date_new (getYear D + 1) (getMonth D) 1) = 1 /\
     ES.Date_new (getYear D + 1) (getMonth D) 1 = ymd 2025 9 1 /\
     addYearSameWeekday D < ymd 2025 9 1 /\
     addYearSameWeekday D = ymd 2025 8 31 /\
     inMonth 2025 7 (addYearSameWeekday D)) /\
  (forall D,
     let first' := ES.Date_new (getYear D + 1) (getMonth D) 1 in
     getDay D < getDay first' -> getWeekOfMonth D = 1 ->
     addYearSameWeekday D = first' + (- getDay first' + getDay D + (1 - 1) * 7) /\
     addYearSameWeekday D < first' /\
     getMonth (addYearSameWeekday D) = (getMonth D - 1) mod 12).
Proof.
  split.
  - exists (ymd 2024 9 1). repeat split; reflexivity.
  - intros D first' Hlt Hk.
    pose proof (addYearSameWeekday_offset D) as HD'. fold first' in HD'.
    rewrite Hk in HD'. pose proof (getDay_range D). pose proof (getDay_range first').
    split; [lia |]. split; [lia |].
    destruct (Date_new_MakeDay (getYear D + 1) (getMonth D) 1) as [yr Hyr].
    fold first' in Hyr. clearbody first'. subst first'. rewrite HD'.
    apply (inMonth_prev yr (getMonth D)); [apply getMonth_range | lia].
Qed.

Lemma addYearSameWeekday_precedes_month_witness :
  let D := ymd 2024 9 1 in
  getDay D < getDay (ES.Date_new (getYear D + 1) (getMonth D) 1) /\
  getWeekOfMonth D = 1 /\
  getMonth (addYearSameWeekday D) = (getMonth D - 1) mod 12.
Proof.
  assert (Hlt : getDay (ymd 2024 9 1)
                < getDay (ES.Date_new (getYear (ymd 2024 9 1) + 1)
                                      (getMonth (ymd 2024 9 1)) 1))
    by reflexivity.
  split; [exact Hlt |]. split; [reflexivity |].
  exact (proj2 (proj2 (proj2 addYearSameWeekday_precedes_month (ymd 2024 9 1)
                             Hlt eq_refl))).
Defined.

End projector_claims.

(** ** The projector as the editor uses it

    The editor projects the start and the end date of the last event of a
    series (part_003, lines 246-248 and 774-776).  The facts below describe
    the projection as a shift of the date. *)

Section projector_shift.

Lemma leapDays_consecutive y : ES.leapDays y + ES.leapDays (y + 1) <= 1.
Proof.
  unfold ES.leapDays, ES.InLeapYear.
  destruct (y mod 4 =? 0) eqn:E4, (y mod 100 =? 0) eqn:E100,
           (y mod 400 =? 0) eqn:E400,
           ((y + 1) mod 4 =? 0) eqn:F4, ((y + 1) mod 100 =? 0) eqn:F100,
           ((y + 1) mod 400 =? 0) eqn:F400; cbn [andb orb negb];
    rewrite ?Z.eqb_eq, ?Z.eqb_neq in *; Z.div_mod_to_equations; lia.
Qed.

(** The first of a month is 365 or 366 days after the first of the same
    month of the year before. *)
Lemma MakeDay_next_year y m :
  0 <= m <= 11 ->
  ES.MakeDay (y + 1) m 1 - ES.MakeDay y m 1 = 365 \/
  ES.MakeDay (y + 1) m 1 - ES.MakeDay y m 1 = 366.
Proof.
  intros Hm. rewrite !MakeDay_month by exact Hm. rewrite DayFromYear_succ.
  unfold ES.DaysInYear. pose proof (leapDays_consecutive y).
  pose proof (leapDays_range y). pose proof (leapDays_range (y + 1)).
  assert (Hc : m = 0 \/ m = 1 \/ m = 2 \/ m = 3 \/ m = 4 \/ m = 5 \/ m = 6 \/
               m = 7 \/ m = 8 \/ m = 9 \/ m = 10 \/ m = 11) by lia.
  repeat (destruct Hc as [Hc | Hc]; [subst m; cbn [ES.DaysBeforeMonth]; lia |]).
  subst m; cbn [ES.DaysBeforeMonth]; lia.
Qed.

Lemma shift_arith dom fdw wd k delta fdw' :
  1 <= dom <= 31 -> 0 <= fdw <= 6 ->
  wd = (fdw + (dom - 1)) mod 7 ->
  k = (dom + fdw + 6) / 7 ->
  delta = 365 \/ delta = 366 ->
  fdw' = (fdw + delta) mod 7 ->
  delta + (wd - fdw' + 7 * (k - 1)) - (dom - 1)
  = if fdw' <? fdw then 371 else 364.
Proof.
  intros Hdom Hfdw Hwd Hk Hdelta Hfdw'.
  destruct (Z.ltb_spec fdw' fdw); Z.div_mod_to_equations; lia.
Qed.

(** The projection written as a shift of the date. *)
Lemma addYearSameWeekday_shift D :
  ~ 0 <= getYear D + 1 <= 99 ->
  addYearSameWeekday D
  = D + (if getDay (ES.Date_new (getYear D + 1) (getMonth D) 1)
            <? getDay (startOfMonth D)
         then 371 else 364).
Proof.
  intros Hy. rewrite addYearSameWeekday_offset.
  rewrite Date_new_eq by exact Hy.
  destruct (projection_facts D) as (Hdom & Hfdw & _ & Hwd & Hk & _).
  pose proof (getMonth_range D) as Hm.
  pose proof (MakeDay_next_year (getYear D) (getMonth D) Hm) as Hdelta.
  set (first' := ES.MakeDay (getYear D + 1) (getMonth D) 1) in *.
  assert (Hfirst : startOfMonth D = ES.MakeDay (getYear D) (getMonth D) 1)
    by reflexivity.
  assert (HD : D = startOfMonth D + (getDate D - 1))
    by (rewrite startOfMonth_eq; lia).
  assert (Hfdw' : getDay first'
                  = (getDay (startOfMonth D) + (first' - startOfMonth D)) mod 7).
  { rewrite <- getDay_add. f_equal. lia. }
  rewrite <- Hfirst in Hdelta.
  pose proof (shift_arith _ _ _ _ _ _ Hdom Hfdw Hwd Hk Hdelta Hfdw') as Hs.
  lia.
Qed.

Lemma projected_year (D : Z) :
  ~ 0 <= getYear D + 1 <= 99 ->
  getMonth D <> 0 \/ 3 <= getDate D ->
  getMonth D <> 11 \/ getDate D <= 25 ->
  getYear (addYearSameWeekday D) = getYear D + 1.
Proof.
  intros Hy Hjan Hdec. rewrite (addYearSameWeekday_shift D Hy).
  unfold getYear. apply YearFromDay_unique.
  rewrite !DayFromYear_succ. unfold ES.DaysInYear.
  pose proof (leapDays_range (ES.YearFromDay D)).
  pose proof (leapDays_range (ES.YearFromDay D + 1)).
  pose proof (leapDays_consecutive (ES.YearFromDay D)).
  pose proof (MakeDay_of_fields D) as HD.
  pose proof (getMonth_range D) as Hm. pose proof (getDate_range D) as Hd.
  rewrite MakeDay_month in HD by exact Hm.
  unfold getYear, getMonth, getDate in *.
  set (m := ES.MonthFromDay D) in *. set (dt := ES.DateFromDay D) in *.
  set (l := ES.leapDays (ES.YearFromDay D)) in *.
  assert (Hc : m = 0 \/ m = 1 \/ m = 2 \/ m = 3 \/ m = 4 \/ m = 5 \/ m = 6 \/
               m = 7 \/ m = 8 \/ m = 9 \/ m = 10 \/ m = 11) by lia.
  destruct (_ <? _);
    repeat (destruct Hc as [Hc | Hc];
            [rewrite Hc in *; cbn [ES.DaysBeforeMonth ES.DaysInMonth] in *; lia |]);
    rewrite Hc in *; cbn [ES.DaysBeforeMonth ES.DaysInMonth] in *; lia.
Qed.


End projector_shift.

Section projector_extras.

Ltac year_ok :=
  match goal with
  | |- ~ 0 <= ?e <= 99 => let v := eval vm_compute in e in change e with v; lia
  end.

(** X1: The projection moves a date forward by exactly 52 weeks, or by exactly
    53 weeks when the first day of the target month falls earlier in the
    week than the first day of the month of [D]. *)
Theorem addYearSameWeekday_52_or_53_weeks (D : Z) :
  ~ 0 <= getYear D + 1 <= 99 ->
  let firstOfMonth := ES.Date_new (getYear D + 1) (getMonth D) 1 in
  addYearSameWeekday D
  = D + 7 * (if getDay firstOfMonth <? getDay (startOfMonth D) then 53 else 52).
Proof.
  intros Hy firstOfMonth. rewrite (addYearSameWeekday_shift D Hy).
  fold firstOfMonth. destruct (_ <? _); lia.
Qed.

Lemma addYearSameWeekday_52_or_53_weeks_witness :
  addYearSameWeekday (ymd 2024 6 29) = ymd 2024 6 29 + 7 * 53 /\
  addYearSameWeekday (ymd 2024 7 1) = ymd 2024 7 1 + 7 * 52.
Proof.
  split.
  - apply (addYearSameWeekday_52_or_53_weeks (ymd 2024 6 29)). year_ok.
  - apply (addYearSameWeekday_52_or_53_weeks (ymd 2024 7 1)). year_ok.
Defined.

(** X2: Two dates of one month are projected with the same shift: the projection
    keeps the number of days between them, so an event inside one month keeps
    its length. *)
Theorem addYearSameWeekday_keeps_length_in_month (D1 D2 : Z) :
  ~ 0 <= getYear D1 + 1 <= 99 ->
  getYear D1 = getYear D2 -> getMonth D1 = getMonth D2 ->
  addYearSameWeekday D2 - addYearSameWeekday D1 = D2 - D1.
Proof.
  intros Hy Hyear Hmonth.
  rewrite (addYearSameWeekday_shift D1 Hy).
  rewrite (addYearSameWeekday_shift D2) by (rewrite <- Hyear; exact Hy).
  unfold startOfMonth, getYear, getMonth in *. rewrite <- Hyear, <- Hmonth. lia.
Qed.

Lemma addYearSameWeekday_keeps_length_in_month_witness :
  addYearSameWeekday (ymd 2024 3 10) - addYearSameWeekday (ymd 2024 3 8)
  = ymd 2024 3 10 - ymd 2024 3 8.
Proof.
  apply (addYearSameWeekday_keeps_length_in_month (ymd 2024 3 8) (ymd 2024 3 10)).
  - year_ok.
  - vm_compute. reflexivity.
  - vm_compute. reflexivity.
Defined.

(** X3: Across months the two shifts may differ: the number of days between two
    projected dates is the original number, or a week less, or a week
    more. *)
Theorem addYearSameWeekday_length_changes_by_week (D1 D2 : Z) :
  ~ 0 <= getYear D1 + 1 <= 99 -> ~ 0 <= getYear D2 + 1 <= 99 ->
  let change := (addYearSameWeekday D2 - addYearSameWeekday D1) - (D2 - D1) in
  change = -7 \/ change = 0 \/ change = 7.
Proof.
  intros Hy1 Hy2 change. subst change.
  rewrite (addYearSameWeekday_shift D1 Hy1), (addYearSameWeekday_shift D2 Hy2).
  destruct (_ <? _), (_ <? _); lia.
Qed.

Lemma addYearSameWeekday_length_changes_by_week_witness :
  let change := (addYearSameWeekday (ymd 2024 7 1)
                 - addYearSameWeekday (ymd 2024 6 29))
                - (ymd 2024 7 1 - ymd 2024 6 29) in
  change = -7 \/ change = 0 \/ change = 7.
Proof.
  apply (addYearSameWeekday_length_changes_by_week (ymd 2024 6 29) (ymd 2024 7 1));
    year_ok.
Defined.

(** X4: The projection neither keeps the order of dates nor keeps dates apart.
    A start date at the end of a month can be projected after an end date
    at the start of the next month: 2024-06-29 and 2024-07-01 go to
    2025-07-05 and 2025-06-30.  Two dates a week apart can be projected to
    one date: 2024-06-29 and 2024-07-06 both go to 2025-07-05. *)
Theorem addYearSameWeekday_not_monotone :
  (exists D1 D2,
      D1 < D2 /\ addYearSameWeekday D2 < addYearSameWeekday D1 /\
      D1 = ymd 2024 6 29 /\ D2 = ymd 2024 7 1 /\
      addYearSameWeekday D1 = ymd 2025 7 5 /\
      addYearSameWeekday D2 = ymd 2025 6 30) /\
  (exists D1 D2,
      D1 < D2 /\ addYearSameWeekday D1 = addYearSameWeekday D2 /\
      D1 = ymd 2024 6 29 /\ D2 = ymd 2024 7 6).
Proof.
  split.
  - exists (ymd 2024 6 29), (ymd 2024 7 1). vm_compute. repeat split; reflexivity.
  - exists (ymd 2024 6 29), (ymd 2024 7 6). vm_compute. repeat split; reflexivity.
Qed.

(** X5: Asked for the weekday and the week of a date in the date's own month,
    [getWeekdayInNthWeek] gives the date back: week row and weekday
    determine the day. *)
Theorem getWeekdayInNthWeek_round_trip (D : Z) :
  ~ 0 <= getYear D <= 99 ->
  getWeekdayInNthWeek (getYear D) (getMonth D) (getDay D) (getWeekOfMonth D) = D.
Proof.
  intros Hy. unfold getWeekdayInNthWeek. rewrite addDays_add.
  rewrite Date_new_eq by exact Hy.
  change (ES.MakeDay (getYear D) (getMonth D) 1) with (startOfMonth D).
  destruct (projection_facts D) as (Hdom & Hfdw & _ & Hwd & Hk & _).
  rewrite startOfMonth_eq in *. rewrite Hk.
  set (fdw := getDay (D - (getDate D - 1))) in *. rewrite Hwd.
  Z.div_mod_to_equations. lia.
Qed.

Lemma getWeekdayInNthWeek_round_trip_witness :
  getWeekdayInNthWeek 2024 2 6 2 = ymd 2024 3 9.
Proof.
  apply (getWeekdayInNthWeek_round_trip (ymd 2024 3 9)). year_ok.
Defined.

(** X6: Away from the turn of the year the projected date lies in the following
    year: this holds for every date from 3 January to 25 December. *)
Theorem addYearSameWeekday_next_year (D : Z) :
  ~ 0 <= getYear D + 1 <= 99 ->
  getMonth D <> 0 \/ 3 <= getDate D ->
  getMonth D <> 11 \/ getDate D <= 25 ->
  getYear (addYearSameWeekday D) = getYear D + 1.
Proof. exact (projected_year D). Qed.

Lemma addYearSameWeekday_next_year_witness :
  getYear (addYearSameWeekday (ymd 2024 3 9)) = 2025.
Proof.
  apply (addYearSameWeekday_next_year (ymd 2024 3 9)).
  - year_ok.
  - left. vm_compute. discriminate.
  - left. vm_compute. discriminate.
Defined.

(** X7: A 1 January that falls on a Sunday to a Thursday is projected into the
    last days of December of the same year, not into the following year. *)
Theorem addYearSameWeekday_new_years_day (D : Z) :
  ~ 0 <= getYear D + 1 <= 99 ->
  getMonth D = 0 -> getDate D = 1 -> getDay D <= 4 ->
  addYearSameWeekday D = D + 364 /\
  getYear (addYearSameWeekday D) = getYear D /\
  getMonth (addYearSameWeekday D) = 11.
Proof.
  intros Hy Hm Hd Hwd.
  assert (Hshift : addYearSameWeekday D = D + 364).
  { rewrite (addYearSameWeekday_shift D Hy). rewrite Date_new_eq by exact Hy.
    assert (Hstart : startOfMonth D = D) by (rewrite startOfMonth_eq; lia).
    rewrite Hstart. rewrite Hm.
    destruct (MakeDay_next_year (getYear D) 0 ltac:(lia)) as [Hdelta | Hdelta];
      pose proof (MakeDay_of_fields D) as HD; rewrite Hm, Hd in HD;
      rewrite HD in Hdelta;
      replace (ES.MakeDay (getYear D + 1) 0 1) with (D + (ES.MakeDay (getYear D + 1) 0 1 - D)) by lia;
      rewrite Hdelta, getDay_add; pose proof (getDay_range D);
      destruct (_ <? _) eqn:Hlt; try reflexivity;
      apply Z.ltb_lt in Hlt; exfalso; Z.div_mod_to_equations; lia. }
  split; [exact Hshift |]. rewrite Hshift.
  pose proof (MakeDay_of_fields D) as HD. rewrite Hm, Hd in HD.
  rewrite MakeDay_month in HD by lia. cbn [ES.DaysBeforeMonth] in HD.
  pose proof (leapDays_range (getYear D)) as Hl.
  assert (Hfields : D + 364 = ES.MakeDay (getYear D) 11 (31 - ES.leapDays (getYear D))).
  { rewrite MakeDay_month by lia. cbn [ES.DaysBeforeMonth]. lia. }
  rewrite Hfields.
  destruct (MakeDay_fields (getYear D) 11 (31 - ES.leapDays (getYear D)))
    as (Hyear & Hmonth & _); [lia | cbn [ES.DaysInMonth]; lia |].
  split; [exact Hyear | exact Hmonth].
Qed.

Lemma addYearSameWeekday_new_years_day_witness :
  addYearSameWeekday (ymd 2025 1 1) = ymd 2025 12 31 /\
  getYear (addYearSameWeekday (ymd 2025 1 1)) = 2025.
Proof.
  destruct (addYearSameWeekday_new_years_day (ymd 2025 1 1)) as (Hs & Hyear & _).
  - year_ok.
  - vm_compute. reflexivity.
  - vm_compute. reflexivity.
  - vm_compute. discriminate.
  - split; [rewrite Hs; vm_compute; reflexivity | exact Hyear].
Defined.

(** X8: The week of the month is a number from 1 to 6, and the first day of a
    month is in week 1. *)
Theorem getWeekOfMonth_range (D : Z) :
  1 <= getWeekOfMonth D <= 6 /\ getWeekOfMonth (startOfMonth D) = 1.
Proof.
  destruct (projection_facts D) as (Hdom & Hfdw & _ & _ & Hk & _).
  split; [rewrite Hk; Z.div_mod_to_equations; lia |].
  destruct (projection_facts (startOfMonth D)) as (_ & Hfdw1 & _ & _ & Hk1 & _).
  assert (Hfirst : getDate (startOfMonth D) = 1).
  { unfold startOfMonth, getDate.
    destruct (MakeDay_fields (ES.YearFromDay D) (ES.MonthFromDay D) 1) as (_ & _ & ->);
      [apply getMonth_range | | reflexivity].
    pose proof (DaysInMonth_range (ES.YearFromDay D) (ES.MonthFromDay D)). lia. }
  rewrite Hk1, Hfirst. Z.div_mod_to_equations. lia.
Qed.

End projector_extras.

(** ** The serializer on a tree *)

#[local] Set Warnings "-clear-no-such-hyp".

Section list_helpers.

Context {A B C : Type}.

Lemma mapi_map (f : B -> nat -> C) (g : A -> B) i (l : list A) :
  mapi f i (map g l) = mapi (fun x j => f (g x) j) i l.
Proof.
  revert i. induction l as [| x l IH]; intros i; cbn; [reflexivity |].
  rewrite IH. reflexivity.
Qed.

Lemma mapi_ext (f g : A -> nat -> B) i (l : list A) :
  (forall x j, In x l -> f x j = g x j) -> mapi f i l = mapi g i l.
Proof.
  revert i. induction l as [| x l IH]; intros i Hfg; cbn; [reflexivity |].
  rewrite Hfg by (left; reflexivity). rewrite IH; [reflexivity |].
  intros y j Hy. apply Hfg. right. exact Hy.
Qed.

Lemma mapi_length (f : A -> nat -> B) i (l : list A) :
  length (mapi f i l) = length l.
Proof. revert i. induction l as [| x l IH]; intros i; cbn; [| rewrite IH]; reflexivity. Qed.

Lemma filter_map_swap (p : B -> bool) (g : A -> B) (l : list A) :
  List.filter p (map g l) = map g (List.filter (fun x => p (g x)) l).
Proof.
  induction l as [| x l IH]; cbn; [reflexivity |].
  destruct (p (g x)); cbn; rewrite IH; reflexivity.
Qed.

End list_helpers.

Section render_equations.

Variable errorsByPath : gmap string (list ErrorObject).
Variable indent : string.
Variable marker : string.

#[local] Abbreviation render' := (render errorsByPath indent marker).
#[local] Abbreviation element_lines' := (element_lines errorsByPath indent marker).
#[local] Abbreviation property_lines' := (property_lines errorsByPath indent marker).

Lemma render_array elems parent depth :
  render' (JArray elems) parent depth
  = if (length elems =? 0)%nat then Some "[]"
    else Some (brackets indent "[" "]"
                 (String.concat nl
                    (element_lines' elems parent depth (length elems) 0))
                 depth).
Proof. cbn [render]. rewrite mapi_map. reflexivity. Qed.

Lemma render_object props parent depth :
  render' (JObject props) parent depth
  = if (length (present props) =? 0)%nat then Some "{}"
    else Some (brackets indent "{" "}"
                 (String.concat nl
                    (property_lines' (present props) parent depth
                                     (length (present props)) 0))
                 depth).
Proof.
  cbn [render]. rewrite filter_map_swap. cbn [fst snd].
  fold (present props). rewrite length_map, mapi_map. reflexivity.
Qed.

End render_equations.

Section tree_serialization.

Variable errorsByPath : gmap string (list ErrorObject).
Variable indent : string.
Variable marker : string.
Variable h : heap.

#[local] Abbreviation stringify' := (stringify errorsByPath indent marker h).
#[local] Abbreviation render' := (render errorsByPath indent marker).
#[local] Abbreviation element_lines' := (element_lines errorsByPath indent marker).
#[local] Abbreviation property_lines' := (property_lines errorsByPath indent marker).
#[local] Abbreviation element_line' := (element_line errorsByPath indent marker).
#[local] Abbreviation property_line' := (property_line errorsByPath indent marker).

Lemma represents_is_undefined v t ls :
  represents h v t ls ->
  is_undefined v = json_is_undefined t /\ (is_undefined v = true -> ls = []).
Proof. intros H. destruct H; cbn; split; congruence. Qed.

Lemma represents_elems_length vs ts ls :
  represents_elems h vs ts ls -> length vs = length ts.
Proof. induction 1; cbn; congruence. Qed.

Lemma get_prop_In (ps : list (string * value)) k v :
  NoDup (map fst ps) -> (k, v) ∈ ps -> get_prop ps k = v.
Proof.
  induction ps as [| [k' v'] ps IH]; cbn [map fst get_prop]; intros Hnd Hin.
  - inversion Hin.
  - apply NoDup_cons in Hnd as [Hk' Hnd].
    apply elem_of_cons in Hin as [Heq | Hin].
    + injection Heq as -> ->. rewrite String.eqb_refl. reflexivity.
    + destruct (String.eqb_spec k' k) as [-> | Hne]; [| apply IH; assumption].
      exfalso. apply Hk'. apply list_elem_of_In.
      apply (in_map fst ps (k, v)), list_elem_of_In, Hin.
Qed.

Lemma height_elems fuel ts :
  (height (JArray ts) < S fuel)%nat -> Forall (fun t => (height t < fuel)%nat) ts.
Proof.
  cbn [height]. intros Hlt.
  assert (Hmax : (list_max (map height ts) <= list_max (map height ts))%nat) by lia.
  apply list_max_le in Hmax. rewrite List.Forall_map in Hmax.
  eapply List.Forall_impl; [| exact Hmax]. cbn. intros t Ht. lia.
Qed.

Lemma height_props fuel pts :
  (height (JObject pts) < S fuel)%nat ->
  Forall (fun kv => (height (snd kv) < fuel)%nat) pts.
Proof.
  cbn [height]. intros Hlt.
  assert (Hmax : (list_max (map (fun kv => height (snd kv)) pts)
                  <= list_max (map (fun kv => height (snd kv)) pts))%nat) by lia.
  apply list_max_le in Hmax. rewrite List.Forall_map in Hmax.
  eapply List.Forall_impl; [| exact Hmax]. cbn. intros t Ht. lia.
Qed.

(** The callbacks of the two [map] calls. *)
Definition element_callback (fuel len : nat) (parent : string) (depth : nat)
  : value -> nat -> M string :=
  fun v i =>
    let path := parent +:+ "/" +:+ index_string i in
    let* json := stringify' fuel path v (depth + 1)%nat in
    ret (element_line' depth i len path json).

Definition property_callback (props : list (string * value)) (fuel len : nat)
  (parent : string) (depth : nat) : string -> nat -> M string :=
  fun k i =>
    let path := parent +:+ "/" +:+ k in
    let v := get_prop props k in
    let* json := stringify' fuel path v (depth + 1)%nat in
    ret (property_line' depth i len path k json).

Definition extends (seen' : gset loc) (ls : list loc) (seen : gset loc) : Prop :=
  forall x, x ∈ seen' <-> x ∈ ls \/ x ∈ seen.

Definition fresh (ls : list loc) (seen : gset loc) : Prop :=
  forall x, x ∈ ls -> x ∉ seen.

Lemma stringify_represents_mut :
  (forall v t ls, represents h v t ls ->
     forall fuel parent depth seen,
       (height t < fuel)%nat -> NoDup ls -> fresh ls seen ->
       exists seen',
         stringify' fuel parent v depth seen
         = Return (render' t parent depth, seen') /\ extends seen' ls seen) /\
  (forall vs ts ls, represents_elems h vs ts ls ->
     forall fuel len parent depth i seen,
       Forall (fun t => (height t < fuel)%nat) ts -> NoDup ls -> fresh ls seen ->
       exists seen',
         map_indexed (element_callback fuel len parent depth) i vs seen
         = Return (element_lines' ts parent depth len i, seen') /\
         extends seen' ls seen) /\
  (forall ps pts ls, represents_props h ps pts ls ->
     forall props fuel len parent depth i seen,
       (forall k v, (k, v) ∈ ps -> get_prop props k = v) ->
       Forall (fun kv => (height (snd kv) < fuel)%nat) pts ->
       NoDup ls -> fresh ls seen ->
       List.filter (fun k => negb (is_undefined (get_prop props k))) (map fst ps)
       = map fst (present pts) /\
       exists seen',
         map_indexed (property_callback props fuel len parent depth) i
                     (map fst (present pts)) seen
         = Return (property_lines' (present pts) parent depth len i, seen') /\
         extends seen' ls seen).
Proof.
  apply represents_mutind.
  - intros [| fuel] parent depth seen Hh _ _; [cbn in Hh; lia |].
    exists seen. split; [reflexivity | unfold extends; set_solver].
  - intros [| fuel] parent depth seen Hh _ _; [cbn in Hh; lia |].
    exists seen. split; [reflexivity | unfold extends; set_solver].
  - intros b [| fuel] parent depth seen Hh _ _; [cbn in Hh; lia |].
    exists seen. split; [reflexivity | unfold extends; set_solver].
  - intros n [| fuel] parent depth seen Hh _ _; [cbn in Hh; lia |].
    exists seen. split; [reflexivity | unfold extends; set_solver].
  - intros s [| fuel] parent depth seen Hh _ _; [cbn in Hh; lia |].
    exists seen. split; [reflexivity | unfold extends; set_solver].
  - (* array *)
    intros l elems ts ls Hl Hrep IH [| fuel] parent depth seen Hh Hnd Hfr;
      [cbn in Hh; lia |].
    rewrite render_array. cbn [stringify]. rewrite Hl.
    rewrite <- (represents_elems_length _ _ _ Hrep).
    destruct (length elems =? 0)%nat eqn:Elen.
    + exists seen. split; [reflexivity |].
      apply Nat.eqb_eq in Elen. destruct elems; [| discriminate].
      inversion Hrep; subst. unfold extends; set_solver.
    + destruct (IH fuel (length elems) parent depth 0%nat seen
                   (height_elems _ _ Hh) Hnd Hfr) as (seen' & Hrun & Hext).
      exists seen'. split; [| exact Hext].
      unfold bind at 1. fold (element_callback fuel (length elems) parent depth).
      rewrite Hrun. reflexivity.
  - (* object *)
    intros l props pts ls Hl Hkeys Hrep IH [| fuel] parent depth seen Hh Hnd Hfr;
      [cbn in Hh; lia |].
    rewrite render_object. cbn [stringify]. rewrite Hl.
    apply NoDup_cons in Hnd as [Hl_ls Hnd].
    assert (Hnot : l ∉ seen) by (apply Hfr; left).
    assert (Hfr' : fresh ls ({[l]} ∪ seen)).
    { intros x Hx. specialize (Hfr x). set_solver. }
    destruct (IH props fuel (length (present pts)) parent depth 0%nat
                 ({[l]} ∪ seen) (fun k v => get_prop_In props k v Hkeys)
                 (height_props _ _ Hh) Hnd Hfr') as (Hfilter & seen' & Hrun & Hext).
    unfold bind at 1. unfold seen_has. rewrite bool_decide_eq_false_2 by exact Hnot.
    unfold bind at 1. unfold seen_add. unfold Object_keys. rewrite Hfilter.
    rewrite length_map.
    destruct (length (present pts) =? 0)%nat eqn:Elen.
    + exists ({[l]} ∪ seen). split; [reflexivity |].
      apply Nat.eqb_eq in Elen. apply length_zero_iff_nil in Elen.
      rewrite Elen in Hrun. cbn in Hrun. injection Hrun as <-.
      unfold extends in *. intros x. rewrite Hext. set_solver.
    + exists seen'. split.
      * unfold bind at 1.
        fold (property_callback props fuel (length (present pts)) parent depth).
        rewrite Hrun. reflexivity.
      * unfold extends in *. intros x. rewrite Hext. set_solver.
  - (* no elements *)
    intros fuel len parent depth i seen _ _ _. exists seen.
    split; [reflexivity | unfold extends; set_solver].
  - (* one more element *)
    intros v t ls vs ts ls' Hv IHv Hvs IHvs fuel len parent depth i seen Hh Hnd Hfr.
    apply Forall_cons in Hh as [Hht Hhts].
    apply NoDup_app in Hnd as (Hnd1 & Hdisj & Hnd2).
    destruct (IHv fuel (parent +:+ "/" +:+ index_string i) (depth + 1)%nat seen
                  Hht Hnd1) as (seen1 & Hrun1 & Hext1).
    { intros x Hx. apply Hfr. set_solver. }
    destruct (IHvs fuel len parent depth (S i) seen1 Hhts Hnd2)
      as (seen2 & Hrun2 & Hext2).
    { intros x Hx Hin. apply Hext1 in Hin as [Hin | Hin].
      - exact (Hdisj x Hin Hx).
      - apply (Hfr x); [set_solver | exact Hin]. }
    exists seen2. split.
    + cbn [map_indexed]. unfold bind at 1. unfold element_callback at 1.
      unfold bind at 1. rewrite Hrun1. unfold ret at 1.
      unfold bind at 1. rewrite Hrun2. reflexivity.
    + unfold extends in *. intros x. rewrite Hext2, Hext1. set_solver.
  - (* no properties *)
    intros props fuel len parent depth i seen _ _ _ _. split; [reflexivity |].
    exists seen. split; [reflexivity | unfold extends; set_solver].
  - (* one more property *)
    intros k v t ls ps pts ls' Hv IHv Hps IHps props fuel len parent depth i seen
           Hget Hh Hnd Hfr.
    apply Forall_cons in Hh as [Hht Hhts]. cbn [snd] in Hht.
    apply NoDup_app in Hnd as (Hnd1 & Hdisj & Hnd2).
    assert (Hk : get_prop props k = v) by (apply Hget; left).
    assert (Hget' : forall k' v', (k', v') ∈ ps -> get_prop props k' = v')
      by (intros k' v' Hin; apply Hget; right; exact Hin).
    destruct (represents_is_undefined _ _ _ Hv) as [Hundef Hnil].
    cbn [map fst List.filter]. unfold present. cbn [List.filter snd].
    fold (present pts). rewrite Hk, Hundef.
    destruct (json_is_undefined t) eqn:Et; cbn [negb].
    + (* the entry holds undefined: skipped *)
      rewrite Hnil in * by (rewrite Hundef; reflexivity). cbn [app] in *.
      apply (IHps props fuel len parent depth i seen Hget' Hhts Hnd2).
      intros x Hx. apply Hfr. set_solver.
    + destruct (IHv fuel (parent +:+ "/" +:+ k) (depth + 1)%nat seen Hht Hnd1)
        as (seen1 & Hrun1 & Hext1).
      { intros x Hx. apply Hfr. set_solver. }
      destruct (IHps props fuel len parent depth (S i) seen1 Hget' Hhts Hnd2)
        as (Hfilter & seen2 & Hrun2 & Hext2).
      { intros x Hx Hin. apply Hext1 in Hin as [Hin | Hin].
        - exact (Hdisj x Hin Hx).
        - apply (Hfr x); [set_solver | exact Hin]. }
      split; [cbn [map fst]; rewrite Hfilter; reflexivity |].
      exists seen2. split.
      * cbn [map fst map_indexed]. unfold bind at 1.
        unfold property_callback at 1. unfold bind at 1. rewrite Hk, Hrun1.
        unfold ret at 1. unfold bind at 1. rewrite Hrun2. reflexivity.
      * unfold extends in *. intros x. rewrite Hext2, Hext1. set_solver.
Qed.

End tree_serialization.

Section grouping.

Lemma group_errors_lookup_from errors (m : gmap string (list ErrorObject)) path :
  default [] (fold_left
                (fun (errorsByPath : gmap string (list ErrorObject)) error =>
                   <[instancePath error :=
                       default [] (errorsByPath !! instancePath error) ++ [error]]>
                     errorsByPath)
                errors m !! path)
  = default [] (m !! path)
    ++ List.filter (fun e => String.eqb (instancePath e) path) errors.
Proof.
  revert m. induction errors as [| e errors IH]; intros m; cbn [fold_left List.filter].
  - rewrite app_nil_r. reflexivity.
  - rewrite IH. destruct (String.eqb_spec (instancePath e) path) as [-> | Hne].
    + rewrite lookup_insert_eq. cbn. rewrite <- app_assoc. reflexivity.
    + rewrite lookup_insert_ne by exact Hne. reflexivity.
Qed.

(** Grouping by path, then looking a path up, selects the errors with exactly
    that path, in their order. *)
Lemma group_errors_lookup errors path :
  default [] (group_errors errors !! path)
  = List.filter (fun e => String.eqb (instancePath e) path) errors.
Proof. unfold group_errors. rewrite group_errors_lookup_from, lookup_empty. reflexivity. Qed.

Lemma annotation_group marker errors path :
  annotation (group_errors errors) marker path = annotation_of marker errors path.
Proof.
  unfold annotation, annotation_of, messages_at. rewrite group_errors_lookup.
  destruct (List.filter _ errors); reflexivity.
Qed.

End grouping.

Section on_trees.

Variable marker : string.
Variable h : heap.

Lemma run_stringify_tree errorsByPath indent v t fuel :
  is_tree h v t -> (height t < fuel)%nat ->
  run (stringify errorsByPath indent marker h fuel EmptyString v 0)
  = Return (render errorsByPath indent marker t EmptyString 0).
Proof.
  intros (ls & Hrep & Hnd) Hfuel.
  destruct (proj1 (stringify_represents_mut errorsByPath indent marker h)
                  v t ls Hrep fuel EmptyString 0%nat ∅ Hfuel Hnd)
    as (seen' & Hrun & _).
  { intros x _. set_solver. }
  unfold run. rewrite Hrun. reflexivity.
Qed.

(** On a tree the serializer returns what [render] computes. *)
Lemma stringifies_tree v t errors space :
  is_tree h v t ->
  stringifies marker h v errors space
    (render (group_errors errors) (String_repeat " " space) marker t EmptyString 0).
Proof.
  intros Htree. exists (S (height t)). intros fuel Hfuel.
  unfold stringifyWithMarker. apply run_stringify_tree; [exact Htree | lia].
Qed.

Lemma stringifies_unique v errors space out1 out2 :
  stringifies marker h v errors space out1 ->
  stringifies marker h v errors space out2 -> out1 = out2.
Proof.
  intros [f1 H1] [f2 H2].
  specialize (H1 (max f1 f2)). specialize (H2 (max f1 f2)).
  rewrite H1 in H2 by lia. injection H2 as ->; [reflexivity | lia].
Qed.

End on_trees.

Section empty_containers.

Variable marker : string.
Variable h : heap.

Lemma get_prop_all_undefined props k :
  Forall (fun kv => snd kv = VUndefined) props -> get_prop props k = VUndefined.
Proof.
  induction 1 as [| [k' v'] props Hv _ IH]; cbn [get_prop]; [reflexivity |].
  cbn in Hv. subst v'. destruct (String.eqb k' k); [reflexivity | exact IH].
Qed.

Lemma no_keys_all_undefined props (keys : list string) :
  Forall (fun kv => snd kv = VUndefined) props ->
  List.filter (fun k => negb (is_undefined (get_prop props k))) keys = [].
Proof.
  intros Hall. induction keys as [| k keys IH]; cbn [List.filter]; [reflexivity |].
  rewrite (get_prop_all_undefined props k Hall). exact IH.
Qed.

Lemma stringify_empty errorsByPath indent fuel parent depth seen l :
  empty_container h l -> l ∉ seen ->
  exists seen',
    stringify errorsByPath indent marker h (S fuel) parent (VRef l) depth seen
    = Return (Some (empty_text h l), seen').
Proof.
  unfold empty_container, empty_text. intros Hempty Hseen. cbn [stringify].
  destruct (h l) as [elems | props].
  - subst elems. eexists. reflexivity.
  - unfold bind at 1. unfold seen_has. rewrite bool_decide_eq_false_2 by exact Hseen.
    unfold bind at 1. unfold seen_add.
    rewrite (no_keys_all_undefined props _ Hempty). eexists. reflexivity.
Qed.

Lemma empty_container_lines errors space l :
  empty_container h l ->
  let indent := String_repeat " " space in
  stringifies marker h (VRef l) errors space (Some (empty_text h l)) /\
  (forall p, h p = CArray [VRef l] ->
     stringifies marker h (VRef p) errors space
       (Some (brackets indent "[" "]"
                (String_repeat indent 1 +:+ empty_text h l
                 +:+ annotation_of marker errors "/0") 0))) /\
  (forall p k, h p = CObject [(k, VRef l)] ->
     stringifies marker h (VRef p) errors space
       (Some (brackets indent "{" "}"
                (String_repeat indent 1 +:+ QuoteJSONString k +:+ ": "
                 +:+ empty_text h l
                 +:+ annotation_of marker errors ("/" +:+ k)) 0))).
Proof.
  intros Hempty indent. subst indent. split; [| split].
  - exists 1%nat. intros [| fuel] Hfuel; [lia |].
    unfold stringifyWithMarker, run. cbv zeta.
    destruct (stringify_empty (group_errors errors) (String_repeat " " space)
                              fuel EmptyString
                              0%nat ∅ l Hempty) as [seen' ->]; [set_solver |].
    reflexivity.
  - intros p Hp. exists 2%nat. intros [| fuel] Hfuel; [lia |].
    unfold stringifyWithMarker, run. cbv zeta. cbn [stringify]. rewrite Hp.
    destruct fuel as [| fuel]; [lia |].
    cbn [length Nat.eqb map_indexed]. unfold bind at 1. unfold bind at 1.
    unfold bind at 1.
    destruct (stringify_empty (group_errors errors) (String_repeat " " space)
                fuel (EmptyString +:+ "/" +:+ index_string 0) (0 + 1)%nat ∅ l Hempty)
      as [seen' ->]; [set_solver |].
    unfold ret. unfold element_line. rewrite annotation_group. reflexivity.
  - intros p k Hp. exists 2%nat. intros [| fuel] Hfuel; [lia |].
    assert (Hpl : p <> l).
    { intros ->. unfold empty_container in Hempty. rewrite Hp in Hempty.
      apply Forall_cons in Hempty as [Hv _]. discriminate Hv. }
    unfold stringifyWithMarker, run. cbv zeta. cbn [stringify]. rewrite Hp.
    unfold bind at 1. unfold seen_has.
    rewrite bool_decide_eq_false_2 by set_solver.
    unfold bind at 1. unfold seen_add.
    cbn [Object_keys map fst List.filter get_prop]. rewrite String.eqb_refl.
    cbn [is_undefined negb length Nat.eqb map_indexed get_prop].
    rewrite String.eqb_refl.
    unfold bind at 1. unfold bind at 1. unfold bind at 1.
    destruct fuel as [| fuel]; [lia |].
    destruct (stringify_empty (group_errors errors) (String_repeat " " space)
                fuel (EmptyString +:+ "/" +:+ k) (0 + 1)%nat ({[p]} ∪ ∅) l Hempty)
      as [seen' ->]; [set_solver |].
    unfold ret. unfold property_line. rewrite annotation_group. reflexivity.
Qed.

End empty_containers.

Section claims_on_containers.


Lemma array_cycle_unfinished errorsByPath indent marker h l :
  h l = CArray [VRef l] ->
  forall fuel parent depth seen,
    stringify errorsByPath indent marker h fuel parent (VRef l) depth seen
    = Unfinished.
Proof.
  intros Hl. induction fuel as [| fuel IH]; intros parent depth seen;
    [reflexivity |].
  cbn [stringify]. rewrite Hl. cbn [length Nat.eqb map_indexed].
  unfold bind at 1. unfold bind at 1. unfold bind at 1. rewrite IH. reflexivity.
Qed.

End claims_on_containers.


Section pruning.

Variable errorsByPath : gmap string (list ErrorObject).
Variable indent : string.
Variable marker : string.

#[local] Abbreviation render' := (render errorsByPath indent marker).

Lemma prune_is_undefined t : json_is_undefined (prune t) = json_is_undefined t.
Proof. destruct t; reflexivity. Qed.

Lemma present_prune props :
  present (flat_map (fun kv => if json_is_undefined (snd kv) then []
                               else [(fst kv, prune (snd kv))]) props)
  = map (fun kv => (fst kv, prune (snd kv))) (present props).
Proof.
  unfold present. induction props as [| [k t] props IH]; [reflexivity |].
  cbn [flat_map List.filter fst snd].
  destruct (json_is_undefined t) eqn:Et; cbn [negb app]; [exact IH |].
  cbn [List.filter snd map fst]. rewrite prune_is_undefined, Et. cbn [negb].
  rewrite IH. reflexivity.
Qed.

(** Deleting the entries that hold [undefined] does not change the text. *)
Lemma render_prune t :
  forall parent depth, render' (prune t) parent depth = render' t parent depth.
Proof.
  induction t as [| | b | n | s | elems IH | props IH] using json_ind;
    intros parent depth; try reflexivity.
  - cbn [prune]. rewrite !render_array, length_map.
    destruct (length elems =? 0)%nat; [reflexivity |].
    unfold element_lines. rewrite mapi_map. do 3 f_equal.
    apply mapi_ext. intros t j Ht. cbv zeta.
    rewrite List.Forall_forall in IH. rewrite (IH t Ht). reflexivity.
  - cbn [prune]. rewrite !render_object, present_prune, length_map.
    destruct (length (present props) =? 0)%nat; [reflexivity |].
    unfold property_lines. rewrite mapi_map. do 3 f_equal.
    apply mapi_ext. intros [k t] j Hkt. cbn [fst snd].
    rewrite List.Forall_forall in IH.
    assert (Hin : In (k, t) props).
    { unfold present in Hkt. apply filter_In in Hkt. tauto. }
    rewrite (IH (k, t) Hin). reflexivity.
Qed.

(** Every printed entry but the last is followed by a comma, the last one is
    not. *)
Lemma property_lines_commas es kv parent depth len i :
  len = (i + length es + 1)%nat ->
  property_lines errorsByPath indent marker (es ++ [kv]) parent depth len i
  = map (property_text errorsByPath indent marker parent depth ",") es
    ++ [property_text errorsByPath indent marker parent depth EmptyString kv].
Proof.
  unfold property_lines. revert i.
  induction es as [| e es IH]; intros i Hlen; cbn [app mapi map length] in *.
  - unfold property_line, property_text, comma.
    replace (i <? len - 1)%nat with false
      by (symmetry; apply Nat.ltb_ge; lia). reflexivity.
  - rewrite IH by lia. f_equal.
    unfold property_line, property_text, comma.
    replace (i <? len - 1)%nat with true
      by (symmetry; apply Nat.ltb_lt; lia). reflexivity.
Qed.

Lemma render_object_commas props parent depth es kv :
  present props = es ++ [kv] ->
  render' (JObject props) parent depth
  = Some (brackets indent "{" "}"
            (String.concat nl
               (map (property_text errorsByPath indent marker parent depth ",") es
                ++ [property_text errorsByPath indent marker parent depth
                                  EmptyString kv]))
            depth).
Proof.
  intros Hpresent. rewrite render_object, Hpresent.
  rewrite length_app. cbn [length].
  replace (length es + 1 =? 0)%nat with false
    by (symmetry; apply Nat.eqb_neq; lia).
  rewrite property_lines_commas by lia. reflexivity.
Qed.

End pruning.

Section claim_on_undefined.

(** C9: on a tree the serializer returns the same text as on the tree
    without the entries that hold [undefined]: such an entry is not printed,
    neither as [null] nor otherwise, and does not count for the commas.  In
    every printed object each printed entry but the last is followed by a
    comma and the last one is not. *)
Theorem undefined_entries_skipped f marker h v t errors space :
  In (f, marker) versions ->
  is_tree h v t ->
  let errorsByPath := group_errors errors in
  let indent := String_repeat " " space in
  returns f h v errors space
          (render errorsByPath indent marker t EmptyString 0) /\
  (forall h' v', is_tree h' v' (prune t) ->
     returns f h' v' errors space
             (render errorsByPath indent marker t EmptyString 0)) /\
  (forall props parent depth es kv,
     present props = es ++ [kv] ->
     render errorsByPath indent marker (JObject props) parent depth
     = Some (brackets indent "{" "}"
               (String.concat nl
                  (map (property_text errorsByPath indent marker parent depth ",") es
                   ++ [property_text errorsByPath indent marker parent depth
                                     EmptyString kv]))
               depth)).
Proof.
  intros Hin Htree errorsByPath indent.
  assert (Hf : f = stringifyWithMarker marker).
  { destruct Hin as [Heq | [Heq | []]]; injection Heq as <- <-; reflexivity. }
  subst f. split; [| split].
  - apply stringifies_tree, Htree.
  - intros h' v' Htree'. subst errorsByPath indent.
    rewrite <- (render_prune _ _ _ t). apply stringifies_tree, Htree'.
  - intros props parent depth es kv. apply render_object_commas.
Qed.

End claim_on_undefined.

(** ** Lines and annotations *)

Section string_facts.

Lemma sapp_assoc (a b c : string) : (a +:+ b) +:+ c = a +:+ (b +:+ c).
Proof.
  induction a as [| x a IH]; [reflexivity |].
  change (String x ((a +:+ b) +:+ c) = String x (a +:+ (b +:+ c))).
  f_equal. exact IH.
Qed.

Lemma sapp_nil_r (a : string) : a +:+ EmptyString = a.
Proof.
  induction a as [| x a IH]; [reflexivity |].
  change (String x (a +:+ EmptyString) = String x a). f_equal. exact IH.
Qed.

Lemma no_newline_app a b : no_newline (a +:+ b) <-> no_newline a /\ no_newline b.
Proof.
  induction a as [| x a IH]; [cbn [no_newline]; change (EmptyString +:+ b) with b; tauto |].
  change (String x a +:+ b) with (String x (a +:+ b)). cbn [no_newline].
  rewrite IH. tauto.
Qed.

Lemma concat_cons_nonempty sep (l : string) (ls : list string) :
  ls <> [] -> String.concat sep (l :: ls) = l +:+ sep +:+ String.concat sep ls.
Proof. destruct ls; [congruence | reflexivity]. Qed.

Lemma concat_app_nonempty sep (l1 l2 : list string) :
  l1 <> [] -> l2 <> [] ->
  String.concat sep (l1 ++ l2)
  = String.concat sep l1 +:+ sep +:+ String.concat sep l2.
Proof.
  intros H1 H2. induction l1 as [| x l1 IH]; [congruence |].
  destruct l1 as [| y l1].
  - cbn [app]. apply concat_cons_nonempty, H2.
  - change ((x :: y :: l1) ++ l2) with (x :: (y :: l1) ++ l2).
    rewrite concat_cons_nonempty by discriminate.
    rewrite IH by discriminate.
    rewrite (concat_cons_nonempty sep x (y :: l1)) by discriminate.
    rewrite !sapp_assoc. reflexivity.
Qed.

Lemma suffix_last_nonempty suf ls : ls <> [] -> suffix_last suf ls <> [].
Proof. destruct ls as [| l [| l' ls]]; cbn; congruence. Qed.

Lemma concat_suffix_last sep suf ls :
  ls <> [] ->
  String.concat sep (suffix_last suf ls) = String.concat sep ls +:+ suf.
Proof.
  induction ls as [| l ls IH]; [congruence |]. intros _.
  destruct ls as [| l' ls]; [reflexivity |].
  change (suffix_last suf (l :: l' :: ls)) with (l :: suffix_last suf (l' :: ls)).
  rewrite concat_cons_nonempty by (apply suffix_last_nonempty; discriminate).
  rewrite IH by discriminate.
  rewrite (concat_cons_nonempty sep l (l' :: ls)) by discriminate.
  rewrite !sapp_assoc. reflexivity.
Qed.

Lemma decorate_nonempty pre suf ls : ls <> [] -> decorate pre suf ls <> [].
Proof.
  destruct ls as [| l ls]; [congruence |]. intros _.
  apply suffix_last_nonempty. discriminate.
Qed.

Lemma concat_decorate sep pre suf ls :
  ls <> [] ->
  String.concat sep (decorate pre suf ls)
  = pre +:+ String.concat sep ls +:+ suf.
Proof.
  destruct ls as [| l ls]; [congruence |]. intros _. unfold decorate.
  rewrite concat_suffix_last by discriminate.
  destruct ls as [| l' ls].
  - cbn [String.concat]. rewrite sapp_assoc. reflexivity.
  - rewrite (concat_cons_nonempty sep (pre +:+ l)) by discriminate.
    rewrite (concat_cons_nonempty sep l) by discriminate.
    rewrite !sapp_assoc. reflexivity.
Qed.

Lemma concat_concat sep (lss : list (list string)) :
  Forall (fun ls => ls <> []) lss ->
  String.concat sep (concat lss) = String.concat sep (map (String.concat sep) lss).
Proof.
  induction 1 as [| ls lss Hls Hlss IH]; [reflexivity |].
  cbn [concat map]. destruct lss as [| ls' lss].
  - cbn. rewrite app_nil_r. reflexivity.
  - assert (Hne : concat (ls' :: lss) <> []).
    { apply Forall_cons in Hlss as [Hls' _]. cbn. destruct ls'; [congruence | discriminate]. }
    rewrite concat_app_nonempty by assumption. rewrite IH.
    rewrite (concat_cons_nonempty sep (String.concat sep ls)) by discriminate.
    reflexivity.
Qed.

Lemma map_mapi {A B C} (g : B -> C) (f : A -> nat -> B) i (l : list A) :
  map g (mapi f i l) = mapi (fun x j => g (f x j)) i l.
Proof.
  revert i. induction l as [| x l IH]; intros i; cbn; [reflexivity |].
  rewrite IH. reflexivity.
Qed.

Lemma Forall_mapi {A B} (P : B -> Prop) (f : A -> nat -> B) i (l : list A) :
  (forall x j, In x l -> P (f x j)) -> Forall P (mapi f i l).
Proof.
  revert i. induction l as [| x l IH]; intros i Hf; cbn; constructor.
  - apply Hf. left. reflexivity.
  - apply IH. intros y j Hy. apply Hf. right. exact Hy.
Qed.

End string_facts.

Section lines_of_render.

Variable errorsByPath : gmap string (list ErrorObject).
Variable indent : string.
Variable marker : string.

#[local] Abbreviation render' := (render errorsByPath indent marker).
#[local] Abbreviation render_lines' := (render_lines errorsByPath indent marker).
#[local] Abbreviation annotation' := (annotation errorsByPath marker).

Lemma render_lines_array elems parent depth :
  render_lines' (JArray elems) parent depth
  = if (length elems =? 0)%nat then ["[]"]
    else "[" :: concat
             (mapi (fun t i =>
                      let path := parent +:+ "/" +:+ index_string i in
                      decorate (String_repeat indent (depth + 1))
                               (comma i (length elems) +:+ annotation' path)
                               (render_lines' t path (depth + 1)%nat))
                   0%nat elems)
           ++ [String_repeat indent depth +:+ "]"].
Proof. cbn [render_lines]. rewrite mapi_map. reflexivity. Qed.

Lemma render_lines_object props parent depth :
  render_lines' (JObject props) parent depth
  = if (length (present props) =? 0)%nat then ["{}"]
    else "{" :: concat
             (mapi (fun kv i =>
                      let path := parent +:+ "/" +:+ fst kv in
                      decorate (String_repeat indent (depth + 1)
                                +:+ QuoteJSONString (fst kv) +:+ ": ")
                               (comma i (length (present props))
                                +:+ annotation' path)
                               (render_lines' (snd kv) path (depth + 1)%nat))
                   0%nat (present props))
           ++ [String_repeat indent depth +:+ "}"].
Proof.
  cbn [render_lines]. rewrite filter_map_swap. cbn [fst snd].
  fold (present props). rewrite length_map, mapi_map. reflexivity.
Qed.

Lemma render_lines_nonempty t parent depth : render_lines' t parent depth <> [].
Proof.
  destruct t; try discriminate.
  - rewrite render_lines_array. destruct (length elems =? 0)%nat; discriminate.
  - rewrite render_lines_object. destruct (length (present props) =? 0)%nat; discriminate.
Qed.

(** The text is the lines joined by line breaks. *)
Lemma render_lines_joined t :
  forall parent depth,
    template (render' t parent depth)
    = String.concat nl (render_lines' t parent depth).
Proof.
  induction t as [| | b | n | s | elems IH | props IH] using json_ind;
    intros parent depth; try reflexivity.
  - rewrite render_array, render_lines_array.
    destruct (length elems =? 0)%nat eqn:Elen; [reflexivity |].
    assert (Hne : elems <> []) by (destruct elems; [discriminate | congruence]).
    cbn [template from_option id]. unfold brackets.
    set (lss := mapi _ 0%nat elems).
    assert (Hlss : Forall (fun ls => ls <> []) lss).
    { apply Forall_mapi. intros t j _. apply decorate_nonempty, render_lines_nonempty. }
    assert (Hc : concat lss <> []).
    { subst lss. destruct elems as [| t elems]; [congruence |].
      cbn [mapi concat]. apply Forall_cons in Hlss as [Hd _].
      destruct (decorate _ _ _); [congruence | discriminate]. }
    rewrite concat_cons_nonempty
      by (destruct (concat lss); [congruence | discriminate]).
    rewrite concat_app_nonempty by (assumption || discriminate).
    rewrite concat_concat by exact Hlss. subst lss. rewrite map_mapi.
    cbn [String.concat]. do 4 f_equal. unfold element_lines.
    apply mapi_ext. intros t j Ht. cbv zeta.
    rewrite concat_decorate by apply render_lines_nonempty.
    rewrite List.Forall_forall in IH. rewrite <- (IH t Ht). reflexivity.
  - rewrite render_object, render_lines_object.
    destruct (length (present props) =? 0)%nat eqn:Elen; [reflexivity |].
    assert (Hne : present props <> [])
      by (destruct (present props); [discriminate | congruence]).
    cbn [template from_option id]. unfold brackets.
    set (lss := mapi _ 0%nat (present props)).
    assert (Hlss : Forall (fun ls => ls <> []) lss).
    { apply Forall_mapi. intros t j _. apply decorate_nonempty, render_lines_nonempty. }
    assert (Hc : concat lss <> []).
    { subst lss. destruct (present props) as [| t elems]; [congruence |].
      cbn [mapi concat]. apply Forall_cons in Hlss as [Hd _].
      destruct (decorate _ _ _); [congruence | discriminate]. }
    rewrite concat_cons_nonempty
      by (destruct (concat lss); [congruence | discriminate]).
    rewrite concat_app_nonempty by (assumption || discriminate).
    rewrite concat_concat by exact Hlss. subst lss. rewrite map_mapi.
    cbn [String.concat]. do 4 f_equal. unfold property_lines.
    apply mapi_ext. intros [k t] j Hkt. cbn [fst snd].
    rewrite concat_decorate by apply render_lines_nonempty.
    rewrite List.Forall_forall in IH.
    assert (Hin : In (k, t) props).
    { unfold present in Hkt. apply filter_In in Hkt. tauto. }
    rewrite <- (IH (k, t) Hin). unfold property_line.
    rewrite !sapp_assoc. reflexivity.
Qed.

Lemma render_None t parent depth :
  json_is_undefined t = false -> exists s, render' t parent depth = Some s.
Proof.
  destruct t; intros Hu; try discriminate; try (eexists; reflexivity).
  - destruct b; eexists; reflexivity.
  - rewrite render_array. destruct (length elems =? 0)%nat; eexists; reflexivity.
  - rewrite render_object. destruct (length (present props) =? 0)%nat; eexists; reflexivity.
Qed.

End lines_of_render.

Section annotation_weaving.

Variable indent : string.
Variable marker : string.
Variable errors : list ErrorObject.

#[local] Abbreviation plain_lines := (render_lines ∅ indent marker).
#[local] Abbreviation error_lines := (render_lines (group_errors errors) indent marker).
#[local] Abbreviation annotate' := (annotate marker errors).

Lemma annotation_empty path : annotation ∅ marker path = EmptyString.
Proof. unfold annotation. rewrite lookup_empty. reflexivity. Qed.

Lemma line_tags_array elems parent :
  line_tags (JArray elems) parent
  = if (length elems =? 0)%nat then [None]
    else None :: concat
                   (mapi (fun t i =>
                            let path := parent +:+ "/" +:+ index_string i in
                            set_last (Some path) (line_tags t path))
                         0%nat elems)
              ++ [None].
Proof. cbn [line_tags]. rewrite mapi_map. reflexivity. Qed.

Lemma line_tags_object props parent :
  line_tags (JObject props) parent
  = if (length (present props) =? 0)%nat then [None]
    else None :: concat
                   (mapi (fun kv i =>
                            let path := parent +:+ "/" +:+ fst kv in
                            set_last (Some path) (line_tags (snd kv) path))
                         0%nat (present props))
              ++ [None].
Proof.
  cbn [line_tags]. rewrite filter_map_swap. cbn [fst snd].
  fold (present props). rewrite length_map, mapi_map. reflexivity.
Qed.

Lemma set_last_snoc {A} (x y : A) l : set_last x (l ++ [y]) = l ++ [x].
Proof.
  induction l as [| z l IH]; [reflexivity |].
  destruct l as [| w l]; [reflexivity |].
  change (set_last x ((z :: w :: l) ++ [y]))
    with (z :: set_last x ((w :: l) ++ [y])).
  rewrite IH. reflexivity.
Qed.

Lemma length_set_last {A} (x : A) l : length (set_last x l) = length l.
Proof.
  induction l as [| y [| z l] IH]; [reflexivity | reflexivity |].
  change (set_last x (y :: z :: l)) with (y :: set_last x (z :: l)).
  cbn [length] in *. rewrite IH. reflexivity.
Qed.

Lemma length_suffix_last suf ls : length (suffix_last suf ls) = length ls.
Proof.
  induction ls as [| y [| z l] IH]; [reflexivity | reflexivity |].
  change (suffix_last suf (y :: z :: l)) with (y :: suffix_last suf (z :: l)).
  cbn [length] in *. rewrite IH. reflexivity.
Qed.

Lemma length_decorate pre suf ls : length (decorate pre suf ls) = length ls.
Proof.
  destruct ls; [reflexivity |]. unfold decorate. rewrite length_suffix_last.
  reflexivity.
Qed.

Lemma line_tags_last t parent :
  set_last None (line_tags t parent) = line_tags t parent.
Proof.
  destruct t; try reflexivity.
  - rewrite line_tags_array. destruct (length elems =? 0)%nat; [reflexivity |].
    rewrite app_comm_cons, set_last_snoc. reflexivity.
  - rewrite line_tags_object.
    destruct (length (present props) =? 0)%nat; [reflexivity |].
    rewrite app_comm_cons, set_last_snoc. reflexivity.
Qed.

Lemma suffix_last_annotate c path ls tags :
  length ls = length tags -> ls <> [] -> set_last None tags = tags ->
  suffix_last (c +:+ annotation_of marker errors path) (annotate' ls tags)
  = annotate' (suffix_last (c +:+ EmptyString) ls) (set_last (Some path) tags).
Proof.
  revert tags. induction ls as [| l ls IH]; intros tags Hlen Hne Hlast;
    [congruence |].
  destruct tags as [| t tags]; [discriminate Hlen |].
  destruct ls as [| l' ls].
  - destruct tags; [| discriminate Hlen]. injection Hlast as <-.
    cbn [annotate zip_with suffix_last set_last tag_annotation].
    rewrite !sapp_nil_r. rewrite !sapp_assoc. reflexivity.
  - destruct tags as [| t' tags]; [discriminate Hlen |].
    change (set_last None (t :: t' :: tags))
      with (t :: set_last None (t' :: tags)) in Hlast.
    injection Hlast as Hlast.
    change (annotate' (l :: l' :: ls) (t :: t' :: tags))
      with ((l +:+ tag_annotation marker errors t)
              :: annotate' (l' :: ls) (t' :: tags)).
    change (suffix_last (c +:+ EmptyString) (l :: l' :: ls))
      with (l :: suffix_last (c +:+ EmptyString) (l' :: ls)).
    change (set_last (Some path) (t :: t' :: tags))
      with (t :: set_last (Some path) (t' :: tags)).
    change (annotate' (l :: ?x) (t :: ?y))
      with ((l +:+ tag_annotation marker errors t) :: annotate' x y).
    assert (Hann : annotate' (l' :: ls) (t' :: tags)
                   = (l' +:+ tag_annotation marker errors t')
                       :: annotate' ls tags) by reflexivity.
    rewrite Hann. rewrite <- Hann.
    change (suffix_last ?s ((l +:+ tag_annotation marker errors t)
                              :: annotate' (l' :: ls) (t' :: tags)))
      with ((l +:+ tag_annotation marker errors t)
              :: suffix_last s (annotate' (l' :: ls) (t' :: tags))).
    rewrite IH; [reflexivity | | discriminate | exact Hlast].
    cbn [length] in *. lia.
Qed.

Lemma decorate_annotate pre c path ls tags :
  length ls = length tags -> ls <> [] -> set_last None tags = tags ->
  decorate pre (c +:+ annotation_of marker errors path) (annotate' ls tags)
  = annotate' (decorate pre (c +:+ EmptyString) ls) (set_last (Some path) tags).
Proof.
  intros Hlen Hne Hlast.
  destruct ls as [| l ls]; [congruence |].
  destruct tags as [| t tags]; [discriminate Hlen |].
  change (annotate' (l :: ls) (t :: tags))
    with ((l +:+ tag_annotation marker errors t) :: annotate' ls tags).
  unfold decorate. rewrite <- sapp_assoc.
  change (((pre +:+ l) +:+ tag_annotation marker errors t) :: annotate' ls tags)
    with (annotate' ((pre +:+ l) :: ls) (t :: tags)).
  apply suffix_last_annotate; [exact Hlen | discriminate | exact Hlast].
Qed.

Lemma annotate_concat_mapi {A} (FE F0 : A -> nat -> list string)
  (T : A -> nat -> list (option string)) i (l : list A) :
  (forall x j, In x l ->
     FE x j = annotate' (F0 x j) (T x j) /\ length (F0 x j) = length (T x j)) ->
  concat (mapi FE i l) = annotate' (concat (mapi F0 i l)) (concat (mapi T i l)) /\
  length (concat (mapi F0 i l)) = length (concat (mapi T i l)).
Proof.
  revert i. induction l as [| x l IH]; intros i Hx; [split; reflexivity |].
  cbn [mapi concat].
  destruct (Hx x i (or_introl eq_refl)) as [HFE Hlen].
  destruct (IH (S i)) as [IHc IHl].
  { intros y j Hy. apply Hx. right. exact Hy. }
  split.
  - unfold annotate. rewrite zip_with_app by exact Hlen.
    fold (annotate' (F0 x i) (T x i)).
    fold (annotate' (concat (mapi F0 (S i) l)) (concat (mapi T (S i) l))).
    rewrite HFE, IHc. reflexivity.
  - rewrite !length_app, Hlen, IHl. reflexivity.
Qed.

Lemma annotate_bracket (o c : string) X0 T :
  length X0 = length T ->
  annotate' (o :: X0 ++ [c]) (None :: T ++ [None]) = o :: annotate' X0 T ++ [c].
Proof.
  intros Hlen. unfold annotate. cbn [zip_with tag_annotation].
  rewrite zip_with_app by exact Hlen. cbn [zip_with tag_annotation].
  rewrite !sapp_nil_r. reflexivity.
Qed.

(** The lines printed with the errors are the lines printed without them,
    each followed by the annotation of its tag. *)
Lemma render_lines_annotated t :
  forall parent depth,
    error_lines t parent depth
    = annotate' (plain_lines t parent depth) (line_tags t parent) /\
    length (plain_lines t parent depth) = length (line_tags t parent).
Proof.
  induction t as [| | b | n | s | elems IH | props IH] using json_ind;
    intros parent depth;
    try (split; [cbn; rewrite sapp_nil_r; reflexivity | reflexivity]).
  - rewrite !render_lines_array, line_tags_array.
    destruct (length elems =? 0)%nat eqn:Elen; [split; reflexivity |].
    match goal with
    | |- context [concat (mapi ?FE 0%nat elems) ++ [?c]] =>
        match goal with
        | |- context [annotate' (_ :: concat (mapi ?F0 0%nat elems) ++ _)
                                (_ :: concat (mapi ?T 0%nat elems) ++ _)] =>
            destruct (annotate_concat_mapi FE F0 T 0%nat elems) as [Hc Hl]
        end
    end.
    { intros t j Ht. cbv zeta. rewrite List.Forall_forall in IH.
      destruct (IH t Ht (parent +:+ "/" +:+ index_string j) (depth + 1)%nat)
        as [Hlines Hlen].
      rewrite Hlines, annotation_group, annotation_empty.
      split.
      - apply decorate_annotate;
          [exact Hlen | apply render_lines_nonempty | apply line_tags_last].
      - rewrite length_decorate, length_set_last. exact Hlen. }
    split.
    + rewrite annotate_bracket by exact Hl. rewrite Hc. reflexivity.
    + rewrite !length_cons, !length_app, Hl. reflexivity.
  - rewrite !render_lines_object, line_tags_object.
    destruct (length (present props) =? 0)%nat eqn:Elen; [split; reflexivity |].
    match goal with
    | |- context [concat (mapi ?FE 0%nat (present props)) ++ [?c]] =>
        match goal with
        | |- context [annotate' (_ :: concat (mapi ?F0 0%nat (present props)) ++ _)
                                (_ :: concat (mapi ?T 0%nat (present props)) ++ _)] =>
            destruct (annotate_concat_mapi FE F0 T 0%nat (present props))
              as [Hc Hl]
        end
    end.
    { intros [k t] j Hkt. cbn [fst snd]. rewrite List.Forall_forall in IH.
      assert (Hin : In (k, t) props).
      { unfold present in Hkt. apply filter_In in Hkt. tauto. }
      destruct (IH (k, t) Hin (parent +:+ "/" +:+ k) (depth + 1)%nat)
        as [Hlines Hlen]. cbn [snd] in Hlines, Hlen.
      rewrite Hlines, annotation_group, annotation_empty.
      split.
      - apply decorate_annotate;
          [exact Hlen | apply render_lines_nonempty | apply line_tags_last].
      - rewrite length_decorate, length_set_last. exact Hlen. }
    split.
    + rewrite annotate_bracket by exact Hl. rewrite Hc. reflexivity.
    + rewrite !length_cons, !length_app, Hl. reflexivity.
Qed.

End annotation_weaving.

Section no_line_breaks.

Lemma no_newline_repeat s n : no_newline s -> no_newline (String_repeat s n).
Proof.
  intros Hs. induction n as [| n IH]; [exact I |].
  cbn [String_repeat]. apply no_newline_app. split; assumption.
Qed.

Lemma no_newline_escape_char c : no_newline (escape_char c).
Proof.
  destruct c as [[] [] [] [] [] [] [] []]; vm_compute;
    repeat split; discriminate.
Qed.

Lemma no_newline_escape s : no_newline (escape s).
Proof.
  induction s as [| c s IH]; [exact I |].
  cbn [escape]. apply no_newline_app.
  split; [apply no_newline_escape_char | exact IH].
Qed.

Lemma no_newline_quote s : no_newline (QuoteJSONString s).
Proof.
  unfold QuoteJSONString. split; [discriminate |].
  apply no_newline_app. split; [apply no_newline_escape |].
  split; [discriminate | exact I].
Qed.

Lemma no_newline_uint d : no_newline (NilEmpty.string_of_uint d).
Proof. induction d; cbn; (exact I || (split; [discriminate | assumption])). Qed.

Lemma no_newline_number n : no_newline (Number_toString n).
Proof.
  unfold Number_toString, NilZero.string_of_int, NilZero.string_of_uint.
  destruct (Z.to_int n) as [d | d]; destruct d;
    try exact (no_newline_uint _);
    try (split; [discriminate |]); try exact (no_newline_uint _);
    cbn; repeat split; discriminate.
Qed.

Lemma no_newline_leaf t :
  no_newline (template (JSON_stringify (leaf_value t))).
Proof.
  destruct t; try (vm_compute; repeat split; discriminate).
  - destruct b; vm_compute; repeat split; discriminate.
  - apply no_newline_number.
  - apply no_newline_quote.
Qed.

Lemma no_newline_suffix_last suf ls :
  no_newline suf -> Forall no_newline ls -> Forall no_newline (suffix_last suf ls).
Proof.
  intros Hsuf. induction 1 as [| l ls Hl Hls IH]; [constructor |].
  destruct ls as [| l' ls].
  - constructor; [| constructor]. apply no_newline_app. split; assumption.
  - change (suffix_last suf (l :: l' :: ls)) with (l :: suffix_last suf (l' :: ls)).
    constructor; assumption.
Qed.

Lemma no_newline_decorate pre suf ls :
  no_newline pre -> no_newline suf -> Forall no_newline ls ->
  Forall no_newline (decorate pre suf ls).
Proof.
  intros Hpre Hsuf Hls. destruct Hls as [| l ls Hl Hls]; [constructor |].
  unfold decorate. apply no_newline_suffix_last; [exact Hsuf |].
  constructor; [| exact Hls]. apply no_newline_app. split; assumption.
Qed.

Lemma Forall_concat_mapi {A} (P : string -> Prop) (f : A -> nat -> list string)
  i (l : list A) :
  (forall x j, In x l -> Forall P (f x j)) -> Forall P (concat (mapi f i l)).
Proof.
  revert i. induction l as [| x l IH]; intros i Hf; [constructor |].
  cbn [mapi concat]. apply Forall_app. split.
  - apply Hf. left. reflexivity.
  - apply IH. intros y j Hy. apply Hf. right. exact Hy.
Qed.

Lemma no_newline_comma i len : no_newline (comma i len).
Proof. unfold comma. destruct (i <? len - 1)%nat; cbn; repeat split; discriminate. Qed.

(** Without errors no line of the text contains a line break. *)
Lemma plain_lines_no_newline indent marker t :
  no_newline indent ->
  forall parent depth,
    Forall no_newline (render_lines ∅ indent marker t parent depth).
Proof.
  intros Hindent.
  induction t as [| | b | n | s | elems IH | props IH] using json_ind;
    intros parent depth;
    try (constructor; [apply (no_newline_leaf _) | constructor]).
  - rewrite render_lines_array.
    destruct (length elems =? 0)%nat;
      [constructor; [cbn; repeat split; discriminate | constructor] |].
    constructor; [cbn; repeat split; discriminate |].
    apply Forall_app. split.
    + apply Forall_concat_mapi. intros t j Ht. cbv zeta.
      rewrite List.Forall_forall in IH.
      apply no_newline_decorate; [apply no_newline_repeat, Hindent | | apply IH, Ht].
      apply no_newline_app. split; [apply no_newline_comma |].
      rewrite annotation_empty. exact I.
    + constructor; [| constructor]. apply no_newline_app.
      split; [apply no_newline_repeat, Hindent | cbn; repeat split; discriminate].
  - rewrite render_lines_object.
    destruct (length (present props) =? 0)%nat;
      [constructor; [cbn; repeat split; discriminate | constructor] |].
    constructor; [cbn; repeat split; discriminate |].
    apply Forall_app. split.
    + apply Forall_concat_mapi. intros [k t] j Hkt. cbn [fst snd].
      rewrite List.Forall_forall in IH.
      assert (Hin : In (k, t) props).
      { unfold present in Hkt. apply filter_In in Hkt. tauto. }
      apply no_newline_decorate; [| | apply (IH (k, t) Hin)].
      * apply no_newline_app. split; [apply no_newline_repeat, Hindent |].
        apply no_newline_app. split; [apply no_newline_quote |].
        cbn; repeat split; discriminate.
      * apply no_newline_app. split; [apply no_newline_comma |].
        rewrite annotation_empty. exact I.
    + constructor; [| constructor]. apply no_newline_app.
      split; [apply no_newline_repeat, Hindent | cbn; repeat split; discriminate].
Qed.

End no_line_breaks.

Section claim_on_annotations.

(** C2, amended: on a tree whose root is not [undefined], the text printed
    with an error list is the text printed with no errors, each line followed
    by the annotation of the array element or object entry that ends on it:
    the marker and the messages, joined by a comma and a space, of the errors
    whose [instancePath] is exactly the path of that element or entry, in the
    order of the list, and nothing when there is no such error.  Two errors
    with one path thus end up on one line.  The lines that open a container
    and the last line of the root get no annotation, so an error whose path
    is that of the root is not printed.  The marker is [" // "] in the later
    version of the file and [" // ERROR: "] in the earlier one. *)
Theorem annotations_by_path f marker h v t errors space :
  In (f, marker) versions ->
  is_tree h v t ->
  json_is_undefined t = false ->
  exists plain : list string,
    Forall no_newline plain /\
    length plain = length (line_tags t EmptyString) /\
    returns f h v [] space (Some (String.concat nl plain)) /\
    returns f h v errors space
      (Some (String.concat nl
               (annotate marker errors plain (line_tags t EmptyString)))).
Proof.
  intros Hin Htree Hundef.
  assert (Hf : f = stringifyWithMarker marker).
  { destruct Hin as [Heq | [Heq | []]]; injection Heq as <- <-; reflexivity. }
  subst f. set (indent := String_repeat " " space).
  assert (Hindent : no_newline indent).
  { apply no_newline_repeat. cbn. repeat split; discriminate. }
  exists (render_lines ∅ indent marker t EmptyString 0).
  destruct (render_lines_annotated indent marker errors t EmptyString 0%nat)
    as [Hlines Hlen].
  split; [apply plain_lines_no_newline, Hindent |].
  split; [exact Hlen |]. split.
  - pose proof (stringifies_tree marker h v t [] space Htree) as Hret.
    change (group_errors []) with (∅ : gmap string (list ErrorObject)) in Hret.
    fold indent in Hret.
    destruct (render_None ∅ indent marker t EmptyString 0%nat Hundef) as [s Hs].
    pose proof (render_lines_joined ∅ indent marker t EmptyString 0%nat) as Hj.
    rewrite Hs in Hj, Hret. cbn [template from_option id] in Hj.
    rewrite <- Hj. exact Hret.
  - pose proof (stringifies_tree marker h v t errors space Htree) as Hret.
    fold indent in Hret.
    destruct (render_None (group_errors errors) indent marker t EmptyString
                          0%nat Hundef) as [s Hs].
    pose proof (render_lines_joined (group_errors errors) indent marker t
                                    EmptyString 0%nat) as Hj.
    rewrite Hs in Hj, Hret. cbn [template from_option id] in Hj.
    rewrite <- Hlines, <- Hj. exact Hret.
Qed.

End claim_on_annotations.

(** ** Empty containers at any depth *)

Section entries.

Variable errorsByPath : gmap string (list ErrorObject).
Variable indent : string.
Variable marker : string.

#[local] Abbreviation render_lines' := (render_lines errorsByPath indent marker).
#[local] Abbreviation annotation' := (annotation errorsByPath marker).








End entries.

Section claim_on_empty_containers.





End claim_on_empty_containers.

Section examples.

Lemma heap_nested_tree : is_tree heap_nested (VRef 1%nat) tree_nested.
Proof.
  exists [1%nat; 2%nat]. split.
  - apply (rep_object heap_nested 1%nat [("a", VRef 2%nat)] _ [2%nat]);
      [reflexivity | repeat (apply NoDup_cons; split; [set_solver |]); apply NoDup_nil_2 |].
    apply (rep_props_cons heap_nested "a" (VRef 2%nat) _ [2%nat] [] [] []);
      [| apply rep_props_nil].
    apply (rep_object heap_nested 2%nat
             [("b", VNumber 1); ("u", VUndefined)] _ []); [reflexivity | |].
    + repeat (apply NoDup_cons; split; [set_solver |]). apply NoDup_nil_2.
    + apply (rep_props_cons heap_nested "b" _ _ [] _ _ []); [apply rep_number |].
      apply (rep_props_cons heap_nested "u" _ _ [] _ _ []);
        [apply rep_undefined | apply rep_props_nil].
  - repeat (apply NoDup_cons; split; [set_solver |]). apply NoDup_nil_2.
Defined.

Lemma annotations_by_path_witness :
  is_tree heap_nested (VRef 1%nat) tree_nested /\
  exists plain : list string,
    Forall no_newline plain /\
    length plain = length (line_tags tree_nested EmptyString) /\
    returns myStringifyWithErrors heap_nested (VRef 1%nat) [] 2
            (Some (String.concat nl plain)) /\
    returns myStringifyWithErrors heap_nested (VRef 1%nat) errors_nested 2
      (Some (String.concat nl
               (annotate " // " errors_nested plain
                         (line_tags tree_nested EmptyString)))).
Proof.
  split; [exact heap_nested_tree |].
  exact (annotations_by_path myStringifyWithErrors " // " heap_nested
           (VRef 1%nat) tree_nested errors_nested 2 (or_introl eq_refl)
           heap_nested_tree eq_refl).
Defined.

(** What the serializer prints on the example, and the tags of its lines. *)
Example annotations_by_path_example :
  myStringifyWithErrors 3 heap_nested (VRef 1%nat) errors_nested 2
  = Return (Some ("{" +:+ nl
                  +:+ "  " +:+ QuoteJSONString "a" +:+ ": {" +:+ nl
                  +:+ "    " +:+ QuoteJSONString "b"
                  +:+ ": 1 // must be string, must match format" +:+ nl
                  +:+ "  } // must have property c" +:+ nl
                  +:+ "}")) /\
  line_tags tree_nested EmptyString = [None; None; Some "/a/b"; Some "/a"; None].
Proof. split; reflexivity. Qed.

(** The claim C2 as stated fails at the root: the root sits at the empty
    path, an error with the empty [instancePath] matches it, and the line of
    the root carries no annotation. *)
Lemma root_error_not_printed :
  let errors := [error_at EmptyString "must be object"] in
  messages_at errors EmptyString = ["must be object"] /\
  myStringifyWithErrors 1 heap_nested (VNumber 1) errors 2 = Return (Some "1") /\
  "1" <> "1" +:+ annotation_of " // " errors EmptyString.
Proof.
  cbv zeta. split; [reflexivity |]. split; [reflexivity |].
  intros H. discriminate H.
Qed.

Lemma undefined_entries_skipped_witness :
  is_tree heap_nested (VRef 1%nat) tree_nested /\
  returns myStringifyWithErrors heap_nested (VRef 1%nat) [] 2
    (Some ("{" +:+ nl
           +:+ "  " +:+ QuoteJSONString "a" +:+ ": {" +:+ nl
           +:+ "    " +:+ QuoteJSONString "b" +:+ ": 1" +:+ nl
           +:+ "  }" +:+ nl
           +:+ "}")).
Proof.
  split; [exact heap_nested_tree |].
  exact (proj1 (undefined_entries_skipped myStringifyWithErrors " // "
                  heap_nested (VRef 1%nat) tree_nested [] 2
                  (or_introl eq_refl) heap_nested_tree)).
Defined.

End examples.

(** ** Parsing the text back *)

Section lexical.

Lemma sapp_cons c (a b : string) : String c a +:+ b = String c (a +:+ b).
Proof. reflexivity. Qed.








(** Strings *)




(** Numbers *)

Lemma uint_number_chars d : all_number_chars (NilEmpty.string_of_uint d).
Proof. induction d; cbn; (exact I || (split; [reflexivity | assumption])). Qed.

Lemma Number_toString_chars n :
  all_number_chars (Number_toString n) /\ Number_toString n <> EmptyString.
Proof.
  unfold Number_toString, NilZero.string_of_int, NilZero.string_of_uint.
  destruct (Z.to_int n) as [d | d]; destruct d; cbn;
    (split; [repeat split; try reflexivity; apply uint_number_chars
            | discriminate]).
Qed.







End lexical.

Section structure_facts.











End structure_facts.

Section round_trip.

Variable space : nat.
Variable marker : string.

#[local] Abbreviation indent' := (String_repeat " " space).
#[local] Abbreviation text :=
  (fun t parent depth => template (render ∅ indent' marker t parent depth)).















End round_trip.

Section claim_on_round_trip.


End claim_on_round_trip.

Section round_trip_examples.




(** The text of the example and its parse. *)
Example serializer_round_trip_example :
  myStringifyWithErrors 3 heap_nested (VRef 1%nat) [] 2
  = Return (Some ("{" +:+ nl
                  +:+ "  " +:+ QuoteJSONString "a" +:+ ": {" +:+ nl
                  +:+ "    " +:+ QuoteJSONString "b" +:+ ": 1" +:+ nl
                  +:+ "  }" +:+ nl
                  +:+ "}")) /\
  JSON_parse 3 ("{" +:+ nl
                +:+ "  " +:+ QuoteJSONString "a" +:+ ": {" +:+ nl
                +:+ "    " +:+ QuoteJSONString "b" +:+ ": 1" +:+ nl
                +:+ "  }" +:+ nl
                +:+ "}")
  = Some (JObject [("a", JObject [("b", JNumber 1)])]).
Proof. split; reflexivity. Qed.

End round_trip_examples.

(** ** Values that contain themselves *)

Section returns_only_on_trees.

Variable errorsByPath : gmap string (list ErrorObject).
Variable indent : string.
Variable marker : string.
Variable h : heap.
Hypothesis Hkeys : distinct_keys h.

#[local] Abbreviation stringify' := (stringify errorsByPath indent marker h).

Definition returns_tree (fuel : nat) : Prop :=
  forall parent v depth seen out seen',
    stringify' fuel parent v depth seen = Return (out, seen') ->
    exists t ls,
      represents h v t ls /\ NoDup ls /\ fresh ls seen /\ extends seen' ls seen.

Lemma elements_return_trees fuel len parent depth :
  returns_tree fuel ->
  forall vs i seen lines seen',
    map_indexed (element_callback errorsByPath indent marker h fuel len parent depth)
                i vs seen = Return (lines, seen') ->
    exists ts ls,
      represents_elems h vs ts ls /\ NoDup ls /\ fresh ls seen /\
      extends seen' ls seen.
Proof.
  intros IH. induction vs as [| v vs IHvs]; intros i seen lines seen' Hrun.
  - injection Hrun as _ <-. exists [], []. split; [constructor |].
    split; [constructor |]. split; [intros x Hx; inversion Hx |].
    unfold extends. set_solver.
  - cbn [map_indexed] in Hrun. unfold bind at 1 in Hrun.
    unfold element_callback at 1 in Hrun. unfold bind at 1 in Hrun.
    destruct (stringify' fuel _ v _ seen) as [[json seen1] | |] eqn:Ev;
      try discriminate Hrun.
    destruct (IH _ _ _ _ _ _ Ev) as (t & ls & Hrep & Hnd & Hfr & Hext).
    unfold ret at 1 in Hrun. unfold bind at 1 in Hrun.
    destruct (map_indexed _ (S i) vs seen1) as [[lines' seen2] | |] eqn:Evs;
      try discriminate Hrun.
    injection Hrun as _ <-.
    destruct (IHvs _ _ _ _ Evs) as (ts & ls' & Hreps & Hnd' & Hfr' & Hext').
    exists (t :: ts), (ls ++ ls'). split; [constructor; assumption |].
    split; [| split].
    + apply NoDup_app. split; [exact Hnd |]. split; [| exact Hnd'].
      intros x Hx Hx'. apply (Hfr' x Hx'). apply Hext. left. exact Hx.
    + intros x Hx Hin. apply elem_of_app in Hx as [Hx | Hx].
      * exact (Hfr x Hx Hin).
      * apply (Hfr' x Hx). apply Hext. right. exact Hin.
    + unfold extends in *. intros x. rewrite Hext', Hext. set_solver.
Qed.

Lemma properties_return_trees props fuel len parent depth :
  returns_tree fuel ->
  forall ps i seen lines seen',
    (forall k v, In (k, v) ps -> get_prop props k = v) ->
    map_indexed (property_callback errorsByPath indent marker h props fuel len
                                   parent depth)
                i (List.filter (fun k => negb (is_undefined (get_prop props k)))
                               (map fst ps))
                seen = Return (lines, seen') ->
    exists pts ls,
      represents_props h ps pts ls /\ NoDup ls /\ fresh ls seen /\
      extends seen' ls seen.
Proof.
  intros IH. induction ps as [| [k v] ps IHps]; intros i seen lines seen' Hget Hrun.
  - injection Hrun as _ <-. exists [], []. split; [constructor |].
    split; [constructor |]. split; [intros x Hx; inversion Hx |].
    unfold extends. set_solver.
  - assert (Hk : get_prop props k = v) by (apply Hget; left; reflexivity).
    assert (Hget' : forall k' v', In (k', v') ps -> get_prop props k' = v')
      by (intros k' v' Hin; apply Hget; right; exact Hin).
    cbn [map fst List.filter] in Hrun. rewrite Hk in Hrun.
    destruct (is_undefined v) eqn:Eu; cbn [negb] in Hrun.
    + destruct v; try discriminate Eu.
      destruct (IHps _ _ _ _ Hget' Hrun) as (pts & ls & Hreps & Hnd & Hfr & Hext).
      exists ((k, JUndefined) :: pts), ([] ++ ls).
      split; [constructor; [constructor | exact Hreps] |].
      cbn [app]. auto.
    + cbn [map_indexed] in Hrun. unfold bind at 1 in Hrun.
      unfold property_callback at 1 in Hrun. unfold bind at 1 in Hrun.
      rewrite Hk in Hrun.
      destruct (stringify' fuel _ v _ seen) as [[json seen1] | |] eqn:Ev;
        try discriminate Hrun.
      destruct (IH _ _ _ _ _ _ Ev) as (t & ls & Hrep & Hnd & Hfr & Hext).
      unfold ret at 1 in Hrun. unfold bind at 1 in Hrun.
      destruct (map_indexed _ (S i) _ seen1) as [[lines' seen2] | |] eqn:Eps;
        try discriminate Hrun.
      injection Hrun as _ <-.
      destruct (IHps _ _ _ _ Hget' Eps) as (pts & ls' & Hreps & Hnd' & Hfr' & Hext').
      exists ((k, t) :: pts), (ls ++ ls'). split; [constructor; assumption |].
      split; [| split].
      * apply NoDup_app. split; [exact Hnd |]. split; [| exact Hnd'].
        intros x Hx Hx'. apply (Hfr' x Hx'). apply Hext. left. exact Hx.
      * intros x Hx Hin. apply elem_of_app in Hx as [Hx | Hx].
        -- exact (Hfr x Hx Hin).
        -- apply (Hfr' x Hx). apply Hext. right. exact Hin.
      * unfold extends in *. intros x. rewrite Hext', Hext. set_solver.
Qed.

(** Whenever the recursion returns, the value is a tree. *)
Lemma stringify_returns_tree fuel : returns_tree fuel.
Proof.
  induction fuel as [| fuel IH]; intros parent v depth seen out seen' Hrun;
    [discriminate Hrun |].
  assert (Hleaf : forall t, represents h v t [] ->
                    ret (JSON_stringify v) seen = Return (out, seen') ->
                    exists t ls, represents h v t ls /\ NoDup ls /\
                                 fresh ls seen /\ extends seen' ls seen).
  { intros t Hrep Hret. injection Hret as _ <-. exists t, [].
    split; [exact Hrep |]. split; [constructor |].
    split; [intros x Hx; inversion Hx | unfold extends; set_solver]. }
  destruct v as [| | b | n | s | l]; cbn [stringify] in Hrun;
    try (eapply Hleaf; [constructor | exact Hrun]).
  destruct (h l) as [elems | props] eqn:Hl.
  - destruct (length elems =? 0)%nat eqn:Elen.
    + apply Nat.eqb_eq, length_zero_iff_nil in Elen. subst elems.
      injection Hrun as _ <-. exists (JArray []), [].
      split; [apply (rep_array h l [] [] [] Hl); constructor |].
      split; [constructor |].
      split; [intros x Hx; inversion Hx | unfold extends; set_solver].
    + unfold bind at 1 in Hrun.
      fold (element_callback errorsByPath indent marker h fuel (length elems)
                             parent depth) in Hrun.
      destruct (map_indexed _ 0%nat elems seen) as [[lines seen1] | |] eqn:Eel;
        try discriminate Hrun.
      injection Hrun as _ <-.
      destruct (elements_return_trees _ _ _ _ IH _ _ _ _ _ Eel)
        as (ts & ls & Hreps & Hnd & Hfr & Hext).
      exists (JArray ts), ls. split; [exact (rep_array h l elems ts ls Hl Hreps) |].
      auto.
  - unfold bind at 1 in Hrun. unfold seen_has in Hrun.
    destruct (bool_decide (l ∈ seen)) eqn:Eseen; [discriminate Hrun |].
    apply bool_decide_eq_false in Eseen.
    unfold bind at 1 in Hrun. unfold seen_add in Hrun. unfold Object_keys in Hrun.
    assert (Hget : forall k v, In (k, v) props -> get_prop props k = v).
    { intros k v Hin. apply get_prop_In; [exact (Hkeys l props Hl) |].
      apply list_elem_of_In, Hin. }
    assert (Hprops : exists lines seen1,
               map_indexed (property_callback errorsByPath indent marker h props
                              fuel
                              (length (List.filter
                                         (fun k => negb (is_undefined (get_prop props k)))
                                         (map fst props)))
                              parent depth)
                           0%nat
                           (List.filter (fun k => negb (is_undefined (get_prop props k)))
                                        (map fst props))
                           ({[l]} ∪ seen) = Return (lines, seen1) /\ seen1 = seen').
    { destruct (length _ =? 0)%nat eqn:Elen.
      - apply Nat.eqb_eq, length_zero_iff_nil in Elen. rewrite Elen.
        injection Hrun as _ <-. exists [], ({[l]} ∪ seen). split; reflexivity.
      - unfold bind at 1 in Hrun.
        fold (property_callback errorsByPath indent marker h props fuel
                (length (List.filter
                           (fun k => negb (is_undefined (get_prop props k)))
                           (map fst props)))
                parent depth) in Hrun.
        destruct (map_indexed _ 0%nat _ ({[l]} ∪ seen)) as [[lines seen1] | |];
          try discriminate Hrun.
        injection Hrun as _ <-. exists lines, seen1. split; reflexivity. }
    destruct Hprops as (lines & seen1 & Eps & ->).
    destruct (properties_return_trees _ _ _ _ _ IH _ _ _ _ _ Hget Eps)
      as (pts & ls & Hreps & Hnd & Hfr & Hext).
    exists (JObject pts), (l :: ls).
    split; [exact (rep_object h l props pts ls Hl (Hkeys l props Hl) Hreps) |].
    split; [| split].
    + apply NoDup_cons. split; [| exact Hnd].
      intros Hin. apply (Hfr l Hin). set_solver.
    + intros x Hx Hin. apply elem_of_cons in Hx as [-> | Hx]; [exact (Eseen Hin) |].
      apply (Hfr x Hx). set_solver.
    + unfold extends in *. intros x. rewrite Hext. set_solver.
Qed.

End returns_only_on_trees.

Section descent.

Variable h : heap.

Lemma represents_elems_In vs ts ls :
  represents_elems h vs ts ls ->
  forall v, In v vs -> exists t ls', represents h v t ls' /\ In t ts.
Proof.
  induction 1 as [| v0 t0 ls0 vs ts ls' Hrep Hreps IH]; intros v Hin;
    [destruct Hin |].
  destruct Hin as [<- | Hin].
  - exists t0, ls0. split; [exact Hrep | left; reflexivity].
  - destruct (IH v Hin) as (t & ls1 & Ht & Hin'). exists t, ls1.
    split; [exact Ht | right; exact Hin'].
Qed.

Lemma represents_props_In ps pts ls :
  represents_props h ps pts ls ->
  forall k v, In (k, v) ps -> exists t ls', represents h v t ls' /\ In (k, t) pts.
Proof.
  induction 1 as [| k0 v0 t0 ls0 ps pts ls' Hrep Hreps IH]; intros k v Hin;
    [destruct Hin |].
  destruct Hin as [Heq | Hin].
  - injection Heq as <- <-. exists t0, ls0.
    split; [exact Hrep | left; reflexivity].
  - destruct (IH k v Hin) as (t & ls1 & Ht & Hin'). exists t, ls1.
    split; [exact Ht | right; exact Hin'].
Qed.

Lemma height_element t ts :
  In t ts -> (height t <= list_max (map height ts))%nat.
Proof.
  induction ts as [| t0 ts IH]; intros Hin; [destruct Hin |].
  cbn [map list_max fold_right]. destruct Hin as [<- | Hin]; [lia |].
  specialize (IH Hin). unfold list_max in IH. lia.
Qed.

Lemma height_property k t pts :
  In (k, t) pts ->
  (height t
   <= list_max (map (fun kv : string * json => height (snd kv)) pts))%nat.
Proof.
  induction pts as [| [k0 t0] pts IH]; intros Hin; [destruct Hin |].
  cbn [map list_max fold_right snd]. destruct Hin as [Heq | Hin].
  - injection Heq as <- <-. lia.
  - specialize (IH Hin). unfold list_max in IH. lia.
Qed.

(** The tree of a container has the trees of its entries below it. *)
Lemma represents_child l t ls v :
  represents h (VRef l) t ls -> child h l v ->
  exists t' ls', represents h v t' ls' /\ (height t' < height t)%nat.
Proof.
  intros Hrep Hchild. inversion Hrep as
      [| | | | | l0 elems ts ls0 Hl Hreps | l0 props pts ls0 Hl Hnd Hreps]; subst.
  - destruct Hchild as [l elems' v Hl' Hin | l props' k v Hl' Hin];
      rewrite Hl in Hl'; [| discriminate Hl'].
    injection Hl' as <-.
    destruct (represents_elems_In _ _ _ Hreps v Hin) as (t' & ls' & Ht' & Hin').
    exists t', ls'. split; [exact Ht' |].
    cbn [height]. pose proof (height_element _ _ Hin'). lia.
  - destruct Hchild as [l elems' v Hl' Hin | l props' k v Hl' Hin];
      rewrite Hl in Hl'; [discriminate Hl' |].
    injection Hl' as <-.
    destruct (represents_props_In _ _ _ Hreps k v Hin) as (t' & ls' & Ht' & Hin').
    exists t', ls'. split; [exact Ht' |].
    cbn [height]. pose proof (height_property _ _ _ Hin'). lia.
Qed.

Lemma represents_descends l l' :
  Relation_Operators.clos_trans loc (contains h) l l' ->
  forall t ls, represents h (VRef l) t ls ->
  exists t' ls', represents h (VRef l') t' ls' /\ (height t' < height t)%nat.
Proof.
  induction 1 as [l l' Hstep | l m l' _ IH1 _ IH2]; intros t ls Hrep.
  - exact (represents_child _ _ _ _ Hrep Hstep).
  - destruct (IH1 _ _ Hrep) as (t1 & ls1 & Hrep1 & Hlt1).
    destruct (IH2 _ _ Hrep1) as (t2 & ls2 & Hrep2 & Hlt2).
    exists t2, ls2. split; [exact Hrep2 | lia].
Qed.

Lemma represents_reached l l' :
  Relation_Operators.clos_refl_trans loc (contains h) l l' ->
  forall t ls, represents h (VRef l) t ls ->
  exists t' ls', represents h (VRef l') t' ls'.
Proof.
  induction 1 as [l l' Hstep | l | l m l' _ IH1 _ IH2]; intros t ls Hrep.
  - destruct (represents_child _ _ _ _ Hrep Hstep) as (t' & ls' & Hrep' & _).
    exists t', ls'. exact Hrep'.
  - exists t, ls. exact Hrep.
  - destruct (IH1 _ _ Hrep) as (t1 & ls1 & Hrep1). exact (IH2 _ _ Hrep1).
Qed.

(** A container that contains itself, directly or through other
    containers, is not a tree. *)
Lemma contains_itself_not_tree l :
  contains_itself h l -> forall t ls, ~ represents h (VRef l) t ls.
Proof.
  intros Hcycle.
  assert (Hn : forall n t ls, (height t < n)%nat -> ~ represents h (VRef l) t ls).
  { induction n as [| n IH]; intros t ls Hlt Hrep; [lia |].
    destruct (represents_descends _ _ Hcycle _ _ Hrep) as (t' & ls' & Hrep' & Hlt').
    apply (IH t' ls'); [lia | exact Hrep']. }
  intros t ls. apply (Hn (S (height t))). lia.
Qed.

Lemma reaches_cycle_not_tree v l :
  reaches h v l -> contains_itself h l -> forall t ls, ~ represents h v t ls.
Proof.
  intros (l0 & -> & Hpath) Hcycle t ls Hrep.
  destruct (represents_reached _ _ Hpath _ _ Hrep) as (t' & ls' & Hrep').
  exact (contains_itself_not_tree _ Hcycle _ _ Hrep').
Qed.

End descent.

(** The serializer returns nothing, at any depth, on a value that reaches
    a container which contains itself. *)
Lemma no_result_on_cycle marker h v l errors space :
  distinct_keys h -> reaches h v l -> contains_itself h l ->
  forall fuel out, stringifyWithMarker marker fuel h v errors space <> Return out.
Proof.
  intros Hkeys Hreach Hcycle fuel out. unfold stringifyWithMarker, run. cbv zeta.
  destruct (stringify _ _ _ h fuel EmptyString v 0%nat ∅) as [[o seen'] | |] eqn:Erun;
    try discriminate.
  destruct (stringify_returns_tree _ _ _ h Hkeys fuel _ _ _ _ _ _ Erun)
    as (t & ls & Hrep & _).
  exfalso. exact (reaches_cycle_not_tree h v l Hreach Hcycle t ls Hrep).
Qed.

(** C4: on a value that reaches a container which contains itself, directly
    or through other containers, the serializer returns no text, at any
    depth.  How it fails depends on the kind of container: on an array that
    contains itself the recursion never finishes and no circular-structure
    error is thrown; on an object that contains itself the error is thrown.
    The [seen] set is consulted for objects only. *)
Theorem self_containing_containers f marker h errors space :
  In (f, marker) versions ->
  (distinct_keys h ->
   forall v l, reaches h v l -> contains_itself h l ->
   forall fuel out, f fuel h v errors space <> Return out) /\
  (forall l, h l = CArray [VRef l] ->
   forall fuel, f fuel h (VRef l) errors space = Unfinished) /\
  (forall l k, h l = CObject [(k, VRef l)] ->
   forall fuel, (2 <= fuel)%nat ->
     f fuel h (VRef l) errors space
     = Throw "Converting circular structure to JSON").
Proof.
  intros Hin.
  assert (Hf : f = stringifyWithMarker marker).
  { destruct Hin as [Heq | [Heq | []]]; injection Heq as <- <-; reflexivity. }
  subst f. split; [| split].
  - intros Hkeys v l Hreach Hcycle fuel out.
    exact (no_result_on_cycle marker h v l errors space Hkeys Hreach Hcycle
                              fuel out).
  - intros l Hl fuel. unfold stringifyWithMarker, run. cbv zeta.
    rewrite (array_cycle_unfinished _ _ _ h l Hl). reflexivity.
  - intros l k Hl [| fuel] Hfuel; [lia |].
    unfold stringifyWithMarker, run. cbv zeta. cbn [stringify]. rewrite Hl.
    unfold bind at 1. unfold seen_has.
    rewrite bool_decide_eq_false_2 by set_solver.
    unfold bind at 1. unfold seen_add.
    cbn [Object_keys map fst List.filter get_prop]. rewrite String.eqb_refl.
    cbn [is_undefined negb length Nat.eqb map_indexed get_prop].
    rewrite String.eqb_refl.
    unfold bind at 1. unfold bind at 1. unfold bind at 1.
    destruct fuel as [| fuel]; [lia |].
    cbn [stringify]. rewrite Hl. unfold bind at 1. unfold seen_has.
    rewrite bool_decide_eq_true_2 by set_solver. reflexivity.
Qed.

Lemma heap_cycles_distinct_keys : distinct_keys heap_cycles.
Proof.
  intros l props Hl. unfold heap_cycles in Hl.
  destruct l as [| [| l]]; try discriminate Hl; injection Hl as <-;
    cbn [map fst]; (apply NoDup_cons; split; [| apply NoDup_nil; exact I]);
    intros Hin; inversion Hin.
Qed.

Lemma heap_cycles_array_contains_itself : contains_itself heap_cycles 1%nat.
Proof.
  apply Relation_Operators.t_step.
  exact (child_element heap_cycles 1%nat [VRef 1%nat] (VRef 1%nat) eq_refl
                       (or_introl eq_refl)).
Qed.

Lemma self_containing_containers_witness :
  heap_cycles 1%nat = CArray [VRef 1%nat] /\
  heap_cycles 2%nat = CObject [("self", VRef 2%nat)] /\
  (forall fuel out,
      myStringifyWithErrors fuel heap_cycles (VRef 1%nat) [] 2 <> Return out) /\
  (forall fuel, myStringifyWithErrors fuel heap_cycles (VRef 1%nat) [] 2
                = Unfinished) /\
  myStringifyWithErrors 2 heap_cycles (VRef 2%nat) [] 2
  = Throw "Converting circular structure to JSON".
Proof.
  pose proof (self_containing_containers myStringifyWithErrors " // "
                heap_cycles [] 2 (or_introl eq_refl)) as (Hnone & Harr & Hobj).
  split; [reflexivity |]. split; [reflexivity |]. split; [| split].
  - apply (Hnone heap_cycles_distinct_keys (VRef 1%nat) 1%nat).
    + exists 1%nat. split; [reflexivity | apply Relation_Operators.rt_refl].
    + exact heap_cycles_array_contains_itself.
  - exact (Harr 1%nat eq_refl).
  - exact (Hobj 2%nat "self" eq_refl 2%nat (le_n 2)).
Defined.

(** ** More on the serializer *)

Section outcomes.

Variable errorsByPath : gmap string (list ErrorObject).
Variable indent : string.
Variable marker : string.
Variable h : heap.

#[local] Abbreviation stringify' := (stringify errorsByPath indent marker h).

#[local] Abbreviation finishes_on := (finishes_on errorsByPath indent marker h).

Lemma elements_finish fuel len parent depth :
  finishes_on fuel ->
  forall vs ts ls, represents_elems h vs ts ls ->
    Forall (fun t => (height t < fuel)%nat) ts ->
    forall i seen,
      finished (map_indexed
                  (element_callback errorsByPath indent marker h fuel len parent depth)
                  i vs seen).
Proof.
  intros IH vs ts ls Hreps.
  induction Hreps as [| v t ls vs ts ls' Hrep Hreps IHvs]; intros Hh i seen;
    [exact I |].
  apply Forall_cons in Hh as [Hht Hhts].
  cbn [map_indexed]. unfold bind at 1. unfold element_callback at 1.
  unfold bind at 1.
  pose proof (IH v t ls Hrep Hht (parent +:+ "/" +:+ index_string i)
                 (depth + 1)%nat seen) as Hv.
  destruct (stringify' fuel _ v _ seen) as [[json seen1] | msg |];
    [| exact Hv | exact Hv].
  unfold ret at 1. unfold bind at 1.
  specialize (IHvs Hhts (S i) seen1).
  destruct (map_indexed _ (S i) vs seen1) as [[lines seen2] | msg |];
    [exact I | exact IHvs | exact IHvs].
Qed.

Lemma properties_finish props fuel len parent depth :
  finishes_on fuel ->
  forall ps pts ls, represents_props h ps pts ls ->
    (forall k v, In (k, v) ps -> get_prop props k = v) ->
    Forall (fun kv => (height (snd kv) < fuel)%nat) pts ->
    forall i seen,
      finished (map_indexed
                  (property_callback errorsByPath indent marker h props fuel len
                                     parent depth)
                  i (List.filter (fun k => negb (is_undefined (get_prop props k)))
                                 (map fst ps))
                  seen).
Proof.
  intros IH ps pts ls Hreps.
  induction Hreps as [| k v t ls ps pts ls' Hrep Hreps IHps]; intros Hget Hh i seen;
    [exact I |].
  apply Forall_cons in Hh as [Hht Hhts]. cbn [snd] in Hht.
  assert (Hk : get_prop props k = v) by (apply Hget; left; reflexivity).
  assert (Hget' : forall k' v', In (k', v') ps -> get_prop props k' = v')
    by (intros k' v' Hin; apply Hget; right; exact Hin).
  cbn [map fst List.filter]. rewrite Hk.
  destruct (is_undefined v) eqn:Eu; cbn [negb]; [exact (IHps Hget' Hhts i seen) |].
  cbn [map_indexed]. unfold bind at 1. unfold property_callback at 1.
  unfold bind at 1. rewrite Hk.
  pose proof (IH v t ls Hrep Hht (parent +:+ "/" +:+ k) (depth + 1)%nat seen) as Hv.
  destruct (stringify' fuel _ v _ seen) as [[json seen1] | msg |];
    [| exact Hv | exact Hv].
  unfold ret at 1. unfold bind at 1.
  specialize (IHps Hget' Hhts (S i) seen1).
  destruct (map_indexed _ (S i) _ seen1) as [[lines seen2] | msg |];
    [exact I | exact IHps | exact IHps].
Qed.

(** On a value that unfolds to a finite tree the recursion finishes: it
    returns, or throws the circular-structure error. *)
Lemma stringify_finishes fuel : finishes_on fuel.
Proof.
  induction fuel as [| fuel IH]; intros v t ls Hrep Hh parent depth seen; [lia |].
  destruct Hrep as [| | b | n | s | l elems ts ls Hl Hreps
                    | l props pts ls Hl Hnd Hreps]; try exact I.
  - cbn [stringify]. rewrite Hl.
    destruct (length elems =? 0)%nat; [exact I |].
    unfold bind at 1.
    fold (element_callback errorsByPath indent marker h fuel (length elems)
                           parent depth).
    pose proof (elements_finish fuel (length elems) parent depth IH _ _ _ Hreps
                                (height_elems _ _ Hh) 0%nat seen) as Hel.
    destruct (map_indexed _ 0%nat elems seen) as [[lines seen1] | msg |];
      [exact I | exact Hel | exact Hel].
  - cbn [stringify]. rewrite Hl. unfold bind at 1. unfold seen_has.
    destruct (bool_decide (l ∈ seen)); [reflexivity |].
    unfold bind at 1. unfold seen_add. unfold Object_keys.
    destruct (length _ =? 0)%nat; [exact I |].
    unfold bind at 1.
    fold (property_callback errorsByPath indent marker h props fuel
            (length (List.filter
                       (fun k => negb (is_undefined (get_prop props k)))
                       (map fst props)))
            parent depth).
    assert (Hget : forall k v, In (k, v) props -> get_prop props k = v).
    { intros k v Hin. apply get_prop_In; [exact Hnd |].
      apply list_elem_of_In, Hin. }
    pose proof (properties_finish props fuel
                  (length (List.filter
                             (fun k => negb (is_undefined (get_prop props k)))
                             (map fst props)))
                  parent depth IH _ _ _ Hreps Hget (height_props _ _ Hh)
                  0%nat ({[l]} ∪ seen)) as Hps.
    destruct (map_indexed _ 0%nat _ ({[l]} ∪ seen)) as [[lines seen1] | msg |];
      [exact I | exact Hps | exact Hps].
Qed.

End outcomes.

Section unfolding.

Variable h : heap.

(** A value unfolds to one tree only, with one list of objects. *)
Lemma represents_functional :
  (forall v t ls, represents h v t ls ->
     forall t' ls', represents h v t' ls' -> t = t' /\ ls = ls') /\
  (forall vs ts ls, represents_elems h vs ts ls ->
     forall ts' ls', represents_elems h vs ts' ls' -> ts = ts' /\ ls = ls') /\
  (forall ps pts ls, represents_props h ps pts ls ->
     forall pts' ls', represents_props h ps pts' ls' -> pts = pts' /\ ls = ls').
Proof.
  apply represents_mutind.
  - intros t' ls' H. inversion H; subst. split; reflexivity.
  - intros t' ls' H. inversion H; subst. split; reflexivity.
  - intros b t' ls' H. inversion H; subst. split; reflexivity.
  - intros n t' ls' H. inversion H; subst. split; reflexivity.
  - intros s t' ls' H. inversion H; subst. split; reflexivity.
  - intros l elems ts ls Hl _ IH t' ls' H.
    inversion H as [| | | | | l0 elems' ts' ls0 Hl' Hreps'
                    | l0 props' pts' ls0 Hl' Hnd' Hreps']; subst;
      rewrite Hl in Hl'; [| discriminate Hl'].
    injection Hl' as <-. destruct (IH _ _ Hreps') as [-> ->]. split; reflexivity.
  - intros l props pts ls Hl _ _ IH t' ls' H.
    inversion H as [| | | | | l0 elems' ts' ls0 Hl' Hreps'
                    | l0 props' pts' ls0 Hl' Hnd' Hreps']; subst;
      rewrite Hl in Hl'; [discriminate Hl' |].
    injection Hl' as <-. destruct (IH _ _ Hreps') as [-> ->]. split; reflexivity.
  - intros ts' ls' H. inversion H; subst. split; reflexivity.
  - intros v t ls vs ts ls0 _ IHv _ IHvs ts' ls' H.
    inversion H as [| v0 t0 l1 vs0 ts0 l2 Hv Hvs]; subst.
    destruct (IHv _ _ Hv) as [-> ->]. destruct (IHvs _ _ Hvs) as [-> ->].
    split; reflexivity.
  - intros pts' ls' H. inversion H; subst. split; reflexivity.
  - intros k v t ls ps pts ls0 _ IHv _ IHps pts' ls' H.
    inversion H as [| k0 v0 t0 l1 ps0 pts0 l2 Hv Hps]; subst.
    destruct (IHv _ _ Hv) as [-> ->]. destruct (IHps _ _ Hps) as [-> ->].
    split; reflexivity.
Qed.

End unfolding.

Lemma versions_marker f marker :
  In (f, marker) versions -> f = stringifyWithMarker marker.
Proof.
  intros [Heq | [Heq | []]]; injection Heq as <- <-; reflexivity.
Qed.

Section serializer_extras.

(** X9: The serializer returns a text exactly on trees: a value that is a tree
    gives the text of that tree, and a value that gives a text is a tree, so
    it has no cycle and contains no object twice. *)
Theorem returns_exactly_on_trees f marker h v errors space out :
  In (f, marker) versions -> distinct_keys h ->
  (returns f h v errors space out <->
   exists t, is_tree h v t /\
             out = render (group_errors errors) (String_repeat " " space) marker
                          t EmptyString 0).
Proof.
  intros Hin Hkeys. apply versions_marker in Hin. subst f. split.
  - intros Hret. pose proof Hret as [fuel0 Hrun].
    specialize (Hrun fuel0 (le_n _)). unfold stringifyWithMarker, run in Hrun.
    cbv zeta in Hrun.
    destruct (stringify _ _ _ h fuel0 EmptyString v 0%nat ∅)
      as [[o seen'] | |] eqn:Erun; try discriminate Hrun.
    destruct (stringify_returns_tree _ _ _ h Hkeys fuel0 _ _ _ _ _ _ Erun)
      as (t & ls & Hrep & Hnd & _).
    exists t. split; [exists ls; split; assumption |].
    apply (stringifies_unique marker h v errors space); [exact Hret |].
    apply stringifies_tree. exists ls. split; assumption.
  - intros (t & Htree & ->). apply stringifies_tree, Htree.
Qed.

Lemma heap_nested_distinct_keys : distinct_keys heap_nested.
Proof.
  intros l props Hl. unfold heap_nested in Hl.
  destruct l as [| [| l]]; injection Hl as <-; cbn [map fst];
    repeat (apply NoDup_cons; split; [set_solver |]); apply NoDup_nil; exact I.
Qed.

Lemma returns_exactly_on_trees_witness :
  returns myStringifyWithErrors heap_nested (VRef 1%nat) errors_nested 2
    (render (group_errors errors_nested) (String_repeat " " 2) " // "
            tree_nested EmptyString 0).
Proof.
  apply (returns_exactly_on_trees myStringifyWithErrors " // " heap_nested
           (VRef 1%nat) errors_nested 2 _ (or_introl eq_refl)
           heap_nested_distinct_keys).
  exists tree_nested. split; [exact heap_nested_tree | reflexivity].
Defined.

Lemma repeated_object_outcome marker h v t ls errors space :
  distinct_keys h -> represents h v t ls -> ~ NoDup ls ->
  forall fuel, (height t < fuel)%nat ->
    stringifyWithMarker marker fuel h v errors space
    = Throw "Converting circular structure to JSON".
Proof.
  intros Hkeys Hrep Hdup fuel Hfuel.
  unfold stringifyWithMarker, run. cbv zeta.
  pose proof (stringify_finishes (group_errors errors) (String_repeat " " space)
                marker h fuel v t ls Hrep Hfuel EmptyString 0%nat ∅) as Hfin.
  destruct (stringify _ _ _ h fuel EmptyString v 0%nat ∅)
    as [[o seen'] | msg |] eqn:Erun.
  - exfalso.
    destruct (stringify_returns_tree _ _ _ h Hkeys fuel _ _ _ _ _ _ Erun)
      as (t' & ls' & Hrep' & Hnd' & _).
    destruct (proj1 (represents_functional h) _ _ _ Hrep _ _ Hrep') as [_ ->].
    exact (Hdup Hnd').
  - cbn in Hfin. rewrite Hfin. reflexivity.
  - destruct Hfin.
Qed.

(** X10: An object that occurs twice in a value makes the serializer throw the
    circular-structure error even when the value has no cycle: objects are
    added to the [seen] set and never removed from it. *)
Theorem repeated_object_throws f marker h v t ls errors space :
  In (f, marker) versions -> distinct_keys h ->
  represents h v t ls -> ~ NoDup ls ->
  forall fuel, (height t < fuel)%nat ->
    f fuel h v errors space = Throw "Converting circular structure to JSON".
Proof.
  intros Hin Hkeys Hrep Hdup fuel Hfuel. apply versions_marker in Hin. subst f.
  exact (repeated_object_outcome marker h v t ls errors space Hkeys Hrep Hdup
                                 fuel Hfuel).
Qed.

Lemma heap_shared_distinct_keys : distinct_keys heap_shared.
Proof.
  intros l props Hl. unfold heap_shared in Hl.
  destruct l as [| [| l]]; try discriminate Hl; injection Hl as <-;
    apply NoDup_nil; exact I.
Qed.

Lemma heap_shared_represents :
  represents heap_shared (VRef 1%nat) (JArray [JObject []; JObject []])
             [2%nat; 2%nat].
Proof.
  apply (rep_array heap_shared 1%nat [VRef 2%nat; VRef 2%nat]); [reflexivity |].
  apply (rep_elems_cons heap_shared (VRef 2%nat) (JObject []) [2%nat]
                        [VRef 2%nat] [JObject []] [2%nat]).
  - apply (rep_object heap_shared 2%nat [] [] []);
      [reflexivity | apply NoDup_nil; exact I | constructor].
  - apply (rep_elems_cons heap_shared (VRef 2%nat) (JObject []) [2%nat] [] [] []).
    + apply (rep_object heap_shared 2%nat [] [] []);
        [reflexivity | apply NoDup_nil; exact I | constructor].
    + constructor.
Qed.


Lemma repeated_object_throws_witness :
  myStringifyWithErrors 3 heap_shared (VRef 1%nat) [] 2
  = Throw "Converting circular structure to JSON".
Proof.
  apply (repeated_object_throws myStringifyWithErrors " // " heap_shared
           (VRef 1%nat) (JArray [JObject []; JObject []]) [2%nat; 2%nat] [] 2
           (or_introl eq_refl) heap_shared_distinct_keys heap_shared_represents).
  - intros Hnd. apply NoDup_cons in Hnd as [Hnot _]. apply Hnot. left.
  - cbn. lia.
Defined.

End serializer_extras.

Section serializer_extras_on_errors.

Lemma filter_filter_implied {A} (f g : A -> bool) (l : list A) :
  (forall x, f x = true -> g x = true) ->
  List.filter f (List.filter g l) = List.filter f l.
Proof.
  intros Hfg. induction l as [| x l IH]; [reflexivity |].
  cbn [List.filter]. destruct (g x) eqn:Eg; cbn [List.filter].
  - rewrite IH. reflexivity.
  - destruct (f x) eqn:Ef; [| exact IH].
    rewrite (Hfg x Ef) in Eg. discriminate Eg.
Qed.

Lemma annotate_ext marker errors1 errors2 :
  forall tags lines,
    (forall path, In (Some path) tags ->
       annotation_of marker errors1 path = annotation_of marker errors2 path) ->
    annotate marker errors1 lines tags = annotate marker errors2 lines tags.
Proof.
  unfold annotate.
  induction tags as [| tag tags IH]; intros [| line lines] Hext; try reflexivity.
  cbn [zip_with]. f_equal.
  - destruct tag as [path |]; [| reflexivity]. cbn [tag_annotation].
    rewrite (Hext path (or_introl eq_refl)). reflexivity.
  - apply IH. intros path Hin. apply Hext. right. exact Hin.
Qed.

Lemma printed_paths_tag t path :
  In (Some path) (line_tags t EmptyString) -> path ∈ printed_paths t.
Proof.
  intros Hin. unfold printed_paths. apply list_elem_of_omap.
  exists (Some path). split; [apply list_elem_of_In, Hin | reflexivity].
Qed.

(** X11: Errors whose [instancePath] is not the path of a printed element or
    entry leave no trace: the serializer returns the same text when they
    are removed from the list. *)
Theorem unmatched_errors_ignored f marker h v t errors space :
  In (f, marker) versions -> is_tree h v t ->
  let matched :=
    List.filter (fun e => bool_decide (instancePath e ∈ printed_paths t)) errors in
  exists out,
    returns f h v errors space out /\ returns f h v matched space out.
Proof.
  intros Hin Htree matched. apply versions_marker in Hin. subst f.
  set (indent := String_repeat " " space).
  exists (render (group_errors errors) indent marker t EmptyString 0).
  split; [apply stringifies_tree, Htree |].
  assert (Heq : render (group_errors errors) indent marker t EmptyString 0
                = render (group_errors matched) indent marker t EmptyString 0).
  { destruct (json_is_undefined t) eqn:Hundef.
    - destruct t; try discriminate Hundef. reflexivity.
    - destruct (render_None (group_errors errors) indent marker t EmptyString
                            0%nat Hundef) as [s1 Hs1].
      destruct (render_None (group_errors matched) indent marker t EmptyString
                            0%nat Hundef) as [s2 Hs2].
      pose proof (render_lines_joined (group_errors errors) indent marker t
                                      EmptyString 0%nat) as Hj1.
      pose proof (render_lines_joined (group_errors matched) indent marker t
                                      EmptyString 0%nat) as Hj2.
      rewrite Hs1 in Hj1. rewrite Hs2 in Hj2. cbn [template from_option id] in *.
      rewrite Hs1, Hs2, Hj1, Hj2. do 2 f_equal.
      rewrite (proj1 (render_lines_annotated indent marker errors t EmptyString 0%nat)).
      rewrite (proj1 (render_lines_annotated indent marker matched t EmptyString 0%nat)).
      apply annotate_ext. intros path Hpath.
      unfold annotation_of, messages_at. subst matched.
      rewrite filter_filter_implied; [reflexivity |].
      intros e He. apply String.eqb_eq in He. rewrite He.
      apply bool_decide_eq_true_2, printed_paths_tag, Hpath. }
  rewrite Heq. apply stringifies_tree, Htree.
Qed.

Lemma unmatched_errors_ignored_witness :
  exists out,
    returns myStringifyWithErrors heap_nested (VRef 1%nat)
            (error_at EmptyString "must have property events"
             :: error_at "/a/c" "must be number" :: errors_nested) 2 out /\
    returns myStringifyWithErrors heap_nested (VRef 1%nat) errors_nested 2 out.
Proof.
  exact (unmatched_errors_ignored myStringifyWithErrors " // " heap_nested
           (VRef 1%nat) tree_nested
           (error_at EmptyString "must have property events"
            :: error_at "/a/c" "must be number" :: errors_nested) 2
           (or_introl eq_refl) heap_nested_tree).
Defined.

Lemma group_errors_no_empty_list errors :
  forall (m : gmap string (list ErrorObject)) path,
    (forall p, m !! p <> Some []) ->
    fold_left
      (fun (errorsByPath : gmap string (list ErrorObject)) error =>
         <[instancePath error :=
             default [] (errorsByPath !! instancePath error) ++ [error]]>
           errorsByPath)
      errors m !! path <> Some [].
Proof.
  induction errors as [| e errors IH]; intros m path Hm; cbn [fold_left];
    [apply Hm |].
  apply IH. intros p.
  destruct (String.eqb_spec (instancePath e) p) as [-> | Hne].
  - rewrite lookup_insert_eq. intros Heq. injection Heq as Heq.
    destruct (default [] (m !! p)); discriminate Heq.
  - rewrite lookup_insert_ne by exact Hne. apply Hm.
Qed.

(** X12: Grouping partitions the errors by [instancePath] and keeps their order:
    the entry for a path holds the errors with exactly that path, in the
    order of the list, and a path without errors has no entry.  The paths
    are JSON pointers, as ajv writes them; a path such as [constructor]
    would meet an inherited property of the object that holds the groups. *)
Theorem errors_grouped_by_path errors path :
  Forall (fun e => is_pointer (instancePath e) = true) errors ->
  group_errors errors !! path
  = match List.filter (fun e => String.eqb (instancePath e) path) errors with
    | [] => None
    | es => Some es
    end.
Proof.
  intros _. pose proof (group_errors_lookup errors path) as Hdef.
  pose proof (group_errors_no_empty_list errors ∅ path) as Hne.
  fold (group_errors errors) in Hne.
  destruct (group_errors errors !! path) as [es |] eqn:Hlook; cbn in Hdef.
  - rewrite <- Hdef. destruct es; [| reflexivity].
    exfalso. apply Hne; [| reflexivity]. intros p. rewrite lookup_empty. discriminate.
  - rewrite <- Hdef. reflexivity.
Qed.

Lemma errors_grouped_by_path_witness :
  group_errors errors_nested !! "/a/b"
  = Some [error_at "/a/b" "must be string"; error_at "/a/b" "must match format"]
  /\ group_errors errors_nested !! "/a/c" = None.
Proof.
  assert (Hp : Forall (fun e => is_pointer (instancePath e) = true) errors_nested).
  { repeat constructor. }
  split.
  - exact (errors_grouped_by_path errors_nested "/a/b" Hp).
  - exact (errors_grouped_by_path errors_nested "/a/c" Hp).
Defined.

(** X13: On a tree the serializer returns a text, except on [undefined] itself,
    for which it returns [undefined] although its result is declared a
    string. *)
Theorem text_unless_undefined f marker h v t errors space :
  In (f, marker) versions -> is_tree h v t ->
  exists out,
    returns f h v errors space out /\ (out = None <-> v = VUndefined).
Proof.
  intros Hin Htree. apply versions_marker in Hin. subst f.
  exists (render (group_errors errors) (String_repeat " " space) marker t EmptyString 0).
  split; [apply stringifies_tree, Htree |].
  destruct Htree as (ls & Hrep & _).
  destruct (represents_is_undefined h v t ls Hrep) as [Hundef _].
  destruct (json_is_undefined t) eqn:Ht.
  - destruct t; try discriminate Ht. destruct v; try discriminate Hundef.
    split; reflexivity.
  - destruct (render_None (group_errors errors) (String_repeat " " space) marker
                          t EmptyString 0%nat Ht) as [s ->].
    destruct v; try discriminate Hundef; split; discriminate.
Qed.

Lemma text_unless_undefined_witness :
  exists out,
    returns myStringifyWithErrors heap_nested VUndefined errors_nested 2 out /\
    (out = None <-> VUndefined = VUndefined).
Proof.
  apply (text_unless_undefined myStringifyWithErrors " // " heap_nested
           VUndefined JUndefined errors_nested 2 (or_introl eq_refl)).
  exists []. split; [constructor | apply NoDup_nil; exact I].
Defined.

End serializer_extras_on_errors.

(** ** The series identifier *)

Section strings_by_character.

Lemma string_forall_app p a b :
  string_forall p (a +:+ b) = string_forall p a && string_forall p b.
Proof.
  induction a as [| c a IH]; [reflexivity |].
  change (String c a +:+ b) with (String c (a +:+ b)).
  cbn [string_forall]. rewrite IH, andb_assoc. reflexivity.
Qed.

Lemma string_forall_ext p q s :
  (forall c, p c = q c) -> string_forall p s = string_forall q s.
Proof.
  intros Hpq. induction s as [| c s IH]; [reflexivity |].
  cbn [string_forall]. rewrite Hpq, IH. reflexivity.
Qed.

Lemma string_forall_impl p q s :
  (forall c, p c = true -> q c = true) ->
  string_forall p s = true -> string_forall q s = true.
Proof.
  intros Hpq. induction s as [| c s IH]; [reflexivity |].
  cbn [string_forall]. rewrite !andb_true_iff. intros [Hc Hs].
  split; [exact (Hpq c Hc) | exact (IH Hs)].
Qed.

Lemma string_forall_and p q s :
  string_forall (fun c => p c && q c) s = string_forall p s && string_forall q s.
Proof.
  induction s as [| c s IH]; [reflexivity |].
  cbn [string_forall]. rewrite IH.
  destruct (p c), (q c), (string_forall p s), (string_forall q s); reflexivity.
Qed.

Lemma string_forall_map p f s :
  string_forall p (string_map f s) = string_forall (fun c => p (f c)) s.
Proof.
  induction s as [| c s IH]; [reflexivity |].
  cbn [string_map string_forall]. rewrite IH. reflexivity.
Qed.

Lemma string_forall_filter p q s :
  string_forall p (string_filter q s)
  = string_forall (fun c => negb (q c) || p c) s.
Proof.
  induction s as [| c s IH]; [reflexivity |].
  cbn [string_filter string_forall].
  destruct (q c); cbn [string_forall negb orb]; rewrite IH; reflexivity.
Qed.

Lemma string_forall_replace_ampersands p s :
  string_forall p (replace_ampersands s)
  = string_forall (fun c => if is_ampersand c then p "a"%char && p "n"%char && p "d"%char
                            else p c) s.
Proof.
  induction s as [| c s IH]; [reflexivity |].
  cbn [replace_ampersands string_forall].
  destruct (is_ampersand c).
  - rewrite string_forall_app, IH. cbn [string_forall].
    rewrite andb_true_r, !andb_assoc. reflexivity.
  - cbn [string_forall]. rewrite IH. reflexivity.
Qed.

Lemma string_map_id f s :
  string_forall (fun c => Ascii.eqb (f c) c) s = true -> string_map f s = s.
Proof.
  induction s as [| c s IH]; [reflexivity |].
  cbn [string_map string_forall]. rewrite andb_true_iff. intros [Hc Hs].
  apply Ascii.eqb_eq in Hc. rewrite Hc, (IH Hs). reflexivity.
Qed.

Lemma string_filter_id q s :
  string_forall q s = true -> string_filter q s = s.
Proof.
  induction s as [| c s IH]; [reflexivity |].
  cbn [string_filter string_forall]. rewrite andb_true_iff. intros [Hc Hs].
  rewrite Hc, (IH Hs). reflexivity.
Qed.

Lemma replace_ampersands_id s :
  string_forall (fun c => negb (is_ampersand c)) s = true ->
  replace_ampersands s = s.
Proof.
  induction s as [| c s IH]; [reflexivity |].
  cbn [replace_ampersands string_forall]. rewrite andb_true_iff. intros [Hc Hs].
  apply negb_true_iff in Hc. rewrite Hc, (IH Hs). reflexivity.
Qed.

Lemma string_forall_concat p sep pieces :
  string_forall p sep = true ->
  Forall (fun piece => string_forall p piece = true) pieces ->
  string_forall p (String.concat sep pieces) = true.
Proof.
  intros Hsep. induction 1 as [| piece pieces Hpiece Hpieces IH]; [reflexivity |].
  destruct pieces as [| piece' pieces]; [exact Hpiece |].
  change (String.concat sep (piece :: piece' :: pieces))
    with (piece +:+ sep +:+ String.concat sep (piece' :: pieces)).
  rewrite !string_forall_app, Hpiece, Hsep, IH. reflexivity.
Qed.

End strings_by_character.

Section trimming.

Lemma trimStart_forall p s :
  string_forall p s = true -> string_forall p (trimStart s) = true.
Proof.
  induction s as [| c s IH]; [reflexivity |].
  cbn [trimStart]. destruct (is_space c); [| exact (fun H => H)].
  cbn [string_forall]. rewrite andb_true_iff. intros [_ Hs]. exact (IH Hs).
Qed.

Lemma trimEnd_forall p s :
  string_forall p s = true -> string_forall p (trimEnd s) = true.
Proof.
  induction s as [| c s IH]; [reflexivity |].
  cbn [trimEnd string_forall]. rewrite andb_true_iff. intros [Hc Hs].
  specialize (IH Hs). destruct (trimEnd s) as [| c' s'].
  - destruct (is_space c); [reflexivity |]. cbn [string_forall]. rewrite Hc. reflexivity.
  - change (string_forall p (String c (String c' s')))
      with (p c && string_forall p (String c' s')).
    rewrite Hc, IH. reflexivity.
Qed.

Lemma trimStart_no_space s :
  string_forall (fun c => negb (is_space c)) s = true -> trimStart s = s.
Proof.
  destruct s as [| c s]; [reflexivity |].
  cbn [trimStart string_forall]. rewrite andb_true_iff. intros [Hc _].
  apply negb_true_iff in Hc. rewrite Hc. reflexivity.
Qed.

Lemma trimEnd_no_space s :
  string_forall (fun c => negb (is_space c)) s = true -> trimEnd s = s.
Proof.
  induction s as [| c s IH]; [reflexivity |].
  cbn [trimEnd string_forall]. rewrite andb_true_iff. intros [Hc Hs].
  apply negb_true_iff in Hc. rewrite (IH Hs), Hc. destruct s; reflexivity.
Qed.

(** What [trimStart] leaves is empty or starts with a character that is not
    white space. *)
Lemma trimStart_head s :
  match trimStart s with
  | EmptyString => string_forall is_space s = true
  | String c _ => is_space c = false /\ string_forall is_space s = false
  end.
Proof.
  induction s as [| c s IH]; [reflexivity |].
  cbn [trimStart string_forall]. destruct (is_space c) eqn:Ec.
  - destruct (trimStart s); cbn [andb]; exact IH.
  - split; [exact Ec | reflexivity].
Qed.

Lemma trimEnd_head c s :
  is_space c = false -> exists rest, trimEnd (String c s) = String c rest.
Proof.
  intros Hc. cbn [trimEnd]. destruct (trimEnd s) as [| c' s'].
  - rewrite Hc. exists EmptyString. reflexivity.
  - exists (String c' s'). reflexivity.
Qed.

Lemma trimEnd_idempotent s : trimEnd (trimEnd s) = trimEnd s.
Proof.
  induction s as [| c s IH]; [reflexivity |].
  cbn [trimEnd]. destruct (trimEnd s) as [| c' s'] eqn:Es.
  - destruct (is_space c) eqn:Ec; [reflexivity |]. cbn [trimEnd]. rewrite Ec. reflexivity.
  - change (trimEnd (String c (String c' s')))
      with (match trimEnd (String c' s') with
            | EmptyString => if is_space c then EmptyString else String c EmptyString
            | rest' => String c rest'
            end).
    rewrite IH. reflexivity.
Qed.

(** [trim] gives the empty text exactly on white space. *)
Lemma trim_empty s : trim s = EmptyString <-> string_forall is_space s = true.
Proof.
  unfold trim. pose proof (trimStart_head s) as Hhead.
  destruct (trimStart s) as [| c rest].
  - split; [intros _; exact Hhead | reflexivity].
  - destruct Hhead as [Hc Hs]. destruct (trimEnd_head c rest Hc) as [rest' ->].
    rewrite Hs. split; discriminate.
Qed.

Lemma trim_head s :
  match trim s with
  | EmptyString => True
  | String c _ => is_space c = false
  end.
Proof.
  unfold trim. pose proof (trimStart_head s) as Hhead.
  destruct (trimStart s) as [| c rest]; [exact I |].
  destruct Hhead as [Hc _]. destruct (trimEnd_head c rest Hc) as [rest' ->].
  exact Hc.
Qed.

End trimming.

Section splitting.

Lemma split_spaces_nonempty in_run s : split_spaces in_run s <> [].
Proof.
  revert in_run. induction s as [| c s IH]; intros in_run; [discriminate |].
  cbn [split_spaces]. destruct (is_space c).
  - destruct in_run; [apply IH | discriminate].
  - destruct (split_spaces false s); discriminate.
Qed.

(** The pieces are made of the characters of the text that are not white
    space. *)
Lemma split_spaces_forall p s :
  string_forall p s = true ->
  forall in_run,
    Forall (fun piece =>
              string_forall (fun c => p c && negb (is_space c)) piece = true)
           (split_spaces in_run s).
Proof.
  induction s as [| c s IH]; intros Hs in_run;
    [constructor; [reflexivity | constructor] |].
  cbn [string_forall] in Hs. apply andb_true_iff in Hs as [Hc Hs].
  cbn [split_spaces]. destruct (is_space c) eqn:Ec.
  - destruct in_run; [exact (IH Hs true) |].
    constructor; [reflexivity | exact (IH Hs true)].
  - specialize (IH Hs false). destruct (split_spaces false s) as [| piece pieces].
    + constructor; [| constructor]. cbn [string_forall]. rewrite Hc, Ec. reflexivity.
    + apply Forall_cons in IH as [Hpiece Hpieces]. constructor; [| exact Hpieces].
      cbn [string_forall]. rewrite Hc, Ec, Hpiece. reflexivity.
Qed.

Lemma split_spaces_no_space s :
  string_forall (fun c => negb (is_space c)) s = true ->
  split_spaces false s = [s].
Proof.
  induction s as [| c s IH]; [reflexivity |].
  cbn [string_forall split_spaces]. rewrite andb_true_iff. intros [Hc Hs].
  apply negb_true_iff in Hc. rewrite Hc, (IH Hs). reflexivity.
Qed.

(** In a text that does not end with white space, no piece but the first
    can be empty, and the first is empty only when the text starts with
    white space. *)
Lemma split_spaces_pieces s :
  trimEnd s = s -> s <> EmptyString ->
  Forall (fun piece => piece <> EmptyString) (split_spaces true s) /\
  (match s with
   | String c _ => is_space c = false
   | EmptyString => False
   end ->
   Forall (fun piece => piece <> EmptyString) (split_spaces false s)).
Proof.
  induction s as [| c s IH]; intros Htrim Hne; [contradiction |].
  assert (Hcases : (s = EmptyString /\ is_space c = false) \/
                   (s <> EmptyString /\ trimEnd s = s)).
  { cbn [trimEnd] in Htrim. destruct (trimEnd s) as [| c' s'] eqn:Es.
    - destruct (is_space c); [discriminate Htrim |].
      injection Htrim as <-. left. split; reflexivity.
    - injection Htrim as <-. right. split; [discriminate | reflexivity]. }
  destruct Hcases as [[-> Hc] | [Hs Hts]].
  - cbn [split_spaces]. rewrite Hc.
    split; [| intros _]; (constructor; [discriminate | constructor]).
  - destruct (IH Hts Hs) as [IHrun IHstart].
    assert (Hword : is_space c = false ->
                    Forall (fun piece => piece <> EmptyString)
                           (match split_spaces false s with
                            | piece :: pieces => String c piece :: pieces
                            | [] => [String c EmptyString]
                            end)).
    { intros Hc. destruct s as [| c' s']; [contradiction |].
      destruct (is_space c') eqn:Ec'.
      - cbn [split_spaces] in *. rewrite Ec' in *.
        constructor; [discriminate | exact IHrun].
      - specialize (IHstart eq_refl).
        destruct (split_spaces false (String c' s')) as [| piece pieces];
          [constructor; [discriminate | constructor] |].
        apply Forall_cons in IHstart as [_ Hpieces].
        constructor; [discriminate | exact Hpieces]. }
    cbn [split_spaces]. destruct (is_space c) eqn:Ec.
    + split; [exact IHrun | intros Hfalse; discriminate Hfalse].
    + split; [| intros _]; exact (Hword eq_refl).
Qed.

End splitting.

Section characters.

Ltac by_character c :=
  destruct c as [[] [] [] [] [] [] [] []]; vm_compute;
  repeat (let H := fresh in intros H; try discriminate H);
  repeat split; try reflexivity.

Lemma lower_not_upper c : negb (is_upper (lower c)) = true.
Proof. by_character c. Qed.

Lemma lower_hyphen c : is_hyphen (lower c) = is_hyphen c.
Proof. by_character c. Qed.

Lemma kept_lower_slug c :
  (kept c && negb (is_upper c)) && negb (is_space c) = true ->
  is_slug_char c = true.
Proof. by_character c. Qed.

Lemma kept_lower_word c :
  ((kept c && negb (is_upper c)) && negb (is_hyphen c)) && negb (is_space c) = true ->
  is_word_char c = true.
Proof. by_character c. Qed.

Lemma slug_char_facts c :
  is_slug_char c = true ->
  is_ascii7 c = true /\ negb (Ascii.eqb c "I") = true /\
  Ascii.eqb (lower c) c = true /\ negb (is_ampersand c) = true /\
  kept c = true /\ negb (is_space c) = true.
Proof. by_character c. Qed.

Lemma blank_character c :
  (if is_ampersand (lower c) then false
   else negb (kept (lower c)) || is_space (lower c))
  = negb (is_letter c || is_number c || is_hyphen c || is_ampersand c).
Proof. by_character c. Qed.

End characters.

Section slugify_facts.

Lemma string_forall_true p s : (forall c, p c = true) -> string_forall p s = true.
Proof.
  intros Hp. induction s as [| c s IH]; [reflexivity |].
  cbn [string_forall]. rewrite Hp, IH. reflexivity.
Qed.

(** What [slugify] computes when it is defined. *)
Lemma slugify_Some s locale r :
  slugify s locale = Some r ->
  is_locale locale = true /\ string_forall is_ascii7 s = true /\
  r = String.concat "-"
        (split_spaces false
           (trim (remove_others (replace_ampersands (string_map lower s))))).
Proof.
  unfold slugify, normalize_NFKC, toLocaleLowerCase. intros H.
  destruct (string_forall is_ascii7 s) eqn:Hascii; [| discriminate H].
  rewrite Hascii in H. destruct (is_locale locale); [| discriminate H].
  cbn [andb] in H. destruct (negb _); [| discriminate H].
  injection H as <-. repeat split.
Qed.

(** Before the text is split it holds lower-case letters, digits, hyphens
    and white space only. *)
Lemma cleaned_characters p s :
  (forall c, p (lower c) = true) -> p "a"%char = true -> p "n"%char = true ->
  p "d"%char = true ->
  string_forall p (trim (remove_others (replace_ampersands (string_map lower s))))
  = true.
Proof.
  intros Hlower Ha Hn Hd. unfold trim, remove_others.
  apply trimEnd_forall, trimStart_forall.
  rewrite string_forall_filter.
  apply (string_forall_impl p); [intros c ->; apply orb_true_r |].
  rewrite string_forall_replace_ampersands, string_forall_map.
  apply string_forall_true. intros c.
  destruct (is_ampersand (lower c)); [rewrite Ha, Hn, Hd; reflexivity | apply Hlower].
Qed.

Lemma cleaned_kept s :
  string_forall kept (trim (remove_others (replace_ampersands (string_map lower s))))
  = true.
Proof.
  unfold trim, remove_others. apply trimEnd_forall, trimStart_forall.
  rewrite string_forall_filter. apply string_forall_true.
  intros c. destruct (kept c); reflexivity.
Qed.

Lemma cleaned_no_hyphen s :
  string_forall (fun c => negb (is_hyphen c)) s = true ->
  string_forall (fun c => negb (is_hyphen c))
                (trim (remove_others (replace_ampersands (string_map lower s))))
  = true.
Proof.
  intros Hs. unfold trim, remove_others.
  apply trimEnd_forall, trimStart_forall.
  rewrite string_forall_filter.
  apply (string_forall_impl (fun c => negb (is_hyphen c)));
    [intros c ->; apply orb_true_r |].
  rewrite string_forall_replace_ampersands, string_forall_map.
  revert Hs. apply string_forall_impl. intros c Hc.
  destruct (is_ampersand (lower c)); [reflexivity |].
  rewrite lower_hyphen. exact Hc.
Qed.

Lemma slug_fixed_point r locale :
  is_locale locale = true -> string_forall is_slug_char r = true ->
  slugify r locale = Some r.
Proof.
  intros Hlocale Hr.
  assert (Hfact : forall (p : ascii -> bool),
             (forall c, is_slug_char c = true -> p c = true) ->
             string_forall p r = true).
  { intros p Hp. revert Hr. apply string_forall_impl, Hp. }
  assert (Hascii : string_forall is_ascii7 r = true)
    by (apply Hfact; intros c Hc; apply (slug_char_facts c Hc)).
  unfold slugify, normalize_NFKC. rewrite Hascii.
  unfold toLocaleLowerCase. rewrite Hlocale, Hascii.
  rewrite (Hfact (fun c => negb (Ascii.eqb c "I")))
    by (intros c Hc; apply (slug_char_facts c Hc)).
  cbn [andb negb]. rewrite andb_false_r. cbn [negb].
  rewrite string_map_id
    by (apply (Hfact (fun c => Ascii.eqb (lower c) c));
        intros c Hc; apply (slug_char_facts c Hc)).
  rewrite replace_ampersands_id
    by (apply (Hfact (fun c => negb (is_ampersand c)));
        intros c Hc; apply (slug_char_facts c Hc)).
  unfold remove_others, trim.
  rewrite string_filter_id
    by (apply (Hfact kept); intros c Hc; apply (slug_char_facts c Hc)).
  assert (Hspace : string_forall (fun c => negb (is_space c)) r = true)
    by (apply Hfact; intros c Hc; apply (slug_char_facts c Hc)).
  rewrite (trimStart_no_space r Hspace), (trimEnd_no_space r Hspace).
  rewrite (split_spaces_no_space r Hspace). reflexivity.
Qed.

(** On the inputs the model covers [slugify] has a result. *)
Lemma slugify_defined s locale :
  slugify_modelled s locale = true -> exists r, slugify s locale = Some r.
Proof.
  unfold slugify_modelled, slugify, normalize_NFKC, toLocaleLowerCase.
  intros Hmodel. apply andb_true_iff in Hmodel as [Hmodel Hturkic].
  apply andb_true_iff in Hmodel as [Hascii Hlocale].
  rewrite Hascii, Hlocale, Hascii. cbn [andb]. rewrite Hturkic.
  eexists. reflexivity.
Qed.

(** The characters of a slug. *)
Lemma slugify_slug_chars s locale r :
  slugify s locale = Some r -> string_forall is_slug_char r = true.
Proof.
  intros Hslug. destruct (slugify_Some s locale r Hslug) as (_ & _ & ->).
  apply string_forall_concat; [reflexivity |].
  set (cleaned := trim _).
  assert (Hclean : string_forall (fun c => kept c && negb (is_upper c)) cleaned = true).
  { rewrite string_forall_and. subst cleaned. rewrite cleaned_kept.
    rewrite cleaned_characters; [reflexivity | | reflexivity ..].
    intros c. apply lower_not_upper. }
  pose proof (split_spaces_forall _ cleaned Hclean false) as Hpieces.
  eapply List.Forall_impl; [| exact Hpieces]. cbv beta.
  intros piece. apply string_forall_impl. exact kept_lower_slug.
Qed.

End slugify_facts.

Section slugify_extras.

(** X14: For a name of ASCII characters and a locale tag made of a two-letter
    language and optionally a script and a region (for Turkish and
    Azerbaijani: a name without capital I), the slug holds lower-case
    letters, digits and hyphens only: no white space, no upper-case letter,
    no punctuation. *)
Theorem slugify_characters s locale :
  slugify_modelled s locale = true ->
  exists r, slugify s locale = Some r /\ string_forall is_slug_char r = true.
Proof.
  intros Hmodel. destruct (slugify_defined s locale Hmodel) as [r Hr].
  exists r. split; [exact Hr | exact (slugify_slug_chars s locale r Hr)].
Qed.

Lemma slugify_characters_witness :
  exists r,
    slugify "Rock & Roll Con 2025!" "en-Latn-US" = Some r /\
    string_forall is_slug_char r = true.
Proof.
  exact (slugify_characters "Rock & Roll Con 2025!" "en-Latn-US" eq_refl).
Defined.

(** X15: A slug is its own slug: applying [slugify] again changes nothing. *)
Theorem slugify_idempotent s locale r :
  slugify s locale = Some r -> slugify r locale = Some r.
Proof.
  intros Hslug. apply slug_fixed_point.
  - exact (proj1 (slugify_Some s locale r Hslug)).
  - exact (slugify_slug_chars s locale r Hslug).
Qed.

Lemma slugify_idempotent_witness :
  slugify "rock-and-roll-con-2025" "en-Latn-US" = Some "rock-and-roll-con-2025".
Proof.
  exact (slugify_idempotent "Rock & Roll Con 2025!" "en-Latn-US"
                            "rock-and-roll-con-2025" eq_refl).
Defined.

Lemma slugify_words_of s locale r :
  slugify s locale = Some r ->
  string_forall (fun c => negb (is_hyphen c)) s = true ->
  r = EmptyString \/
  exists words,
    r = String.concat "-" words /\ words <> [] /\
    Forall (fun w => w <> EmptyString /\ string_forall is_word_char w = true) words.
Proof.
  intros Hslug Hhyphen. destruct (slugify_Some s locale r Hslug) as (_ & _ & ->).
  pose proof (cleaned_no_hyphen s Hhyphen) as Hnh.
  pose proof (cleaned_kept s) as Hkept.
  assert (Hup : string_forall (fun c => negb (is_upper c))
                  (trim (remove_others (replace_ampersands (string_map lower s))))
                = true).
  { apply cleaned_characters; [| reflexivity ..]. intros c. apply lower_not_upper. }
  pose proof (trim_head (remove_others (replace_ampersands (string_map lower s))))
    as Hhead.
  assert (Hend : trimEnd (trim (remove_others (replace_ampersands (string_map lower s))))
                 = trim (remove_others (replace_ampersands (string_map lower s))))
    by apply trimEnd_idempotent.
  set (cleaned := trim _) in *.
  destruct cleaned as [| c rest] eqn:Hcleaned; [left; reflexivity |].
  right. exists (split_spaces false (String c rest)).
  split; [reflexivity |]. split; [apply split_spaces_nonempty |].
  destruct (split_spaces_pieces (String c rest) Hend ltac:(discriminate))
    as [_ Hpieces].
  specialize (Hpieces Hhead).
  assert (Hall : string_forall
                   (fun c => (kept c && negb (is_upper c)) && negb (is_hyphen c))
                   (String c rest) = true).
  { rewrite !string_forall_and, Hkept, Hup, Hnh. reflexivity. }
  pose proof (split_spaces_forall _ _ Hall false) as Hchars.
  apply List.Forall_forall. intros w Hw. split.
  - exact (proj1 (List.Forall_forall _ _) Hpieces w Hw).
  - pose proof (proj1 (List.Forall_forall _ _) Hchars w Hw) as Hwc. cbv beta in Hwc.
    revert Hwc. apply string_forall_impl. exact kept_lower_word.
Qed.

(** X16: For a name of ASCII characters without hyphens and a locale tag as
    above, the slug is empty or a sequence of words, each a non-empty run of
    lower-case letters and digits, joined by single hyphens: it neither
    starts nor ends with a hyphen and has no two hyphens in a row. *)
Theorem slugify_words s locale :
  slugify_modelled s locale = true ->
  string_forall (fun c => negb (is_hyphen c)) s = true ->
  exists r,
    slugify s locale = Some r /\
    (r = EmptyString \/
     exists words,
       r = String.concat "-" words /\ words <> [] /\
       Forall (fun w => w <> EmptyString /\ string_forall is_word_char w = true)
              words).
Proof.
  intros Hmodel Hhyphen. destruct (slugify_defined s locale Hmodel) as [r Hr].
  exists r. split; [exact Hr | exact (slugify_words_of s locale r Hr Hhyphen)].
Qed.

Lemma slugify_words_witness :
  exists r,
    slugify "Rock & Roll Con 2025!" "en" = Some r /\
    (r = EmptyString \/
     exists words,
       r = String.concat "-" words /\ words <> [] /\
       Forall (fun w => w <> EmptyString /\ string_forall is_word_char w = true)
              words).
Proof.
  exact (slugify_words "Rock & Roll Con 2025!" "en" eq_refl eq_refl).
Defined.

Lemma slugify_empty_of s locale r :
  slugify s locale = Some r ->
  (r = EmptyString <->
   string_forall
     (fun c => negb (is_letter c || is_number c || is_hyphen c || is_ampersand c)) s
   = true).
Proof.
  intros Hslug. destruct (slugify_Some s locale r Hslug) as (_ & _ & ->).
  rewrite <- (string_forall_ext _ _ s blank_character).
  rewrite <- (string_forall_map
                (fun c => if is_ampersand c then false
                          else negb (kept c) || is_space c) lower s).
  change (fun c => if is_ampersand c then false else negb (kept c) || is_space c)
    with (fun c => if is_ampersand c
                   then (fun c => negb (kept c) || is_space c) "a"%char
                        && (fun c => negb (kept c) || is_space c) "n"%char
                        && (fun c => negb (kept c) || is_space c) "d"%char
                   else (fun c => negb (kept c) || is_space c) c).
  rewrite <- (string_forall_replace_ampersands
                (fun c => negb (kept c) || is_space c)).
  rewrite <- (string_forall_filter is_space kept).
  fold (remove_others (replace_ampersands (string_map lower s))).
  rewrite <- trim_empty.
  pose proof (trim_head (remove_others (replace_ampersands (string_map lower s))))
    as Hhead.
  destruct (trim _) as [| c rest]; [split; reflexivity |].
  split; [| discriminate].
  cbn [split_spaces]. rewrite Hhead.
  destruct (split_spaces false rest) as [| piece [| piece' pieces]];
    cbn; discriminate.
Qed.

(** X17: For a name of ASCII characters and a locale tag as above, the slug
    is empty exactly when the name has no letter, no digit, no hyphen and no
    ampersand; the file name is then [.json]. *)
Theorem slugify_empty s locale :
  slugify_modelled s locale = true ->
  exists r,
    slugify s locale = Some r /\
    (r = EmptyString <->
     string_forall
       (fun c => negb (is_letter c || is_number c || is_hyphen c || is_ampersand c))
       s
     = true).
Proof.
  intros Hmodel. destruct (slugify_defined s locale Hmodel) as [r Hr].
  exists r. split; [exact Hr | exact (slugify_empty_of s locale r Hr)].
Qed.

Lemma slugify_empty_witness :
  exists r,
    slugify " !? " "en" = Some r /\
    (r = EmptyString <->
     string_forall
       (fun c => negb (is_letter c || is_number c || is_hyphen c || is_ampersand c))
       " !? "
     = true).
Proof.
  exact (slugify_empty " !? " "en" eq_refl).
Defined.

End slugify_extras.

(** ** The suffix of the next event *)

Section suffix.

Lemma last_is_digit_not_all base :
  base <> EmptyString -> last_is_digit base = false ->
  string_forall is_digit base = false.
Proof.
  induction base as [| c base IH]; intros Hne Hlast; [contradiction |].
  destruct base as [| c' base'].
  - cbn in Hlast. cbn [string_forall]. rewrite Hlast. reflexivity.
  - change (last_is_digit (String c (String c' base')))
      with (last_is_digit (String c' base')) in Hlast.
    cbn [string_forall] in *. rewrite (IH ltac:(discriminate) Hlast).
    apply andb_false_r.
Qed.

Lemma trailing_digits_none base :
  last_is_digit base = false -> trailing_digits base = None.
Proof.
  induction base as [| c base IH]; intros Hlast; [reflexivity |].
  cbn [trailing_digits].
  rewrite (last_is_digit_not_all (String c base) ltac:(discriminate) Hlast).
  apply IH. destruct base; [reflexivity | exact Hlast].
Qed.

Lemma trailing_digits_app base digits :
  last_is_digit base = false -> digits <> EmptyString ->
  string_forall is_digit digits = true ->
  trailing_digits (base +:+ digits) = Some digits.
Proof.
  intros Hlast Hne Hdigits. induction base as [| c base IH].
  - change (EmptyString +:+ digits) with digits.
    destruct digits as [| d digits]; [contradiction |].
    cbn [trailing_digits]. rewrite Hdigits. reflexivity.
  - rewrite sapp_cons. cbn [trailing_digits].
    rewrite <- sapp_cons, string_forall_app.
    rewrite (last_is_digit_not_all (String c base) ltac:(discriminate) Hlast).
    cbn [andb]. apply IH. destruct base; [reflexivity | exact Hlast].
Qed.

Lemma uint_digits d : string_forall is_digit (NilEmpty.string_of_uint d) = true.
Proof. induction d; cbn [NilEmpty.string_of_uint string_forall]; try rewrite IHd; reflexivity. Qed.

Lemma Number_toString_digits n :
  0 <= n ->
  Number_toString n <> EmptyString /\
  string_forall is_digit (Number_toString n) = true /\
  exists d, NilEmpty.uint_of_string (Number_toString n) = Some d /\ Z.of_uint d = n.
Proof.
  intros Hn. destruct n as [| p | p]; [| | lia].
  - split; [discriminate |]. split; [reflexivity |].
    eexists. split; reflexivity.
  - unfold Number_toString. cbn [Z.to_int NilZero.string_of_int].
    pose proof (Unsigned.to_uint_nonnil p) as Hnil.
    assert (Hs : NilZero.string_of_uint (Pos.to_uint p)
                 = NilEmpty.string_of_uint (Pos.to_uint p)).
    { destruct (Pos.to_uint p); [contradiction | reflexivity ..]. }
    rewrite Hs. split; [| split].
    + destruct (Pos.to_uint p); [contradiction | discriminate ..].
    + apply uint_digits.
    + exists (Pos.to_uint p). split; [apply NilEmpty.usu |].
      exact (DecimalZ.of_to (Z.pos p)).
Qed.

Lemma zeros_digits k digits d :
  NilEmpty.uint_of_string digits = Some d ->
  exists d', NilEmpty.uint_of_string (String_repeat "0" k +:+ digits) = Some d' /\
             Z.of_uint d' = Z.of_uint d.
Proof.
  intros Hd. induction k as [| k (d' & Hd' & Hval)].
  - exists d. split; [exact Hd | reflexivity].
  - exists (Decimal.D0 d'). split; [| exact Hval].
    cbn [String_repeat]. rewrite sapp_assoc.
    change ("0" +:+ (String_repeat "0" k +:+ digits))
      with (String "0" (String_repeat "0" k +:+ digits)).
    cbn [NilEmpty.uint_of_string]. rewrite Hd'. reflexivity.
Qed.

Lemma zeros_all_digits k : string_forall is_digit (String_repeat "0" k) = true.
Proof.
  induction k as [| k IH]; [reflexivity |].
  cbn [String_repeat]. rewrite string_forall_app, IH. reflexivity.
Qed.

Lemma next_suffix_number year base k n :
  last_is_digit base = false -> 0 <= n < 2 ^ 53 ->
  next_suffix year (base +:+ String_repeat "0" k +:+ Number_toString n)
  = Some (Number_toString (n + 1)).
Proof.
  intros Hlast [Hn Hmax].
  destruct (Number_toString_digits n Hn) as (Hne & Hdigits & d & Hd & Hval).
  destruct (zeros_digits k _ d Hd) as (d' & Hd' & Hval').
  unfold next_suffix. rewrite trailing_digits_app; [| exact Hlast | |].
  - assert (Hz : NilZero.uint_of_string (String_repeat "0" k +:+ Number_toString n)
                 = Some d').
    { unfold NilZero.uint_of_string.
      destruct (String_repeat "0" k +:+ Number_toString n) eqn:Es; [| exact Hd'].
      exfalso. destruct k; [exact (Hne Es) | discriminate Es]. }
    rewrite Hz, Hval', Hval. rewrite (proj2 (Z.ltb_lt _ _) Hmax). reflexivity.
  - destruct k; [exact Hne | discriminate].
  - rewrite string_forall_app, zeros_all_digits, Hdigits. reflexivity.
Qed.

Lemma local_day_east tz day : 0 <= tz < 1440 -> local_day tz day = day.
Proof. unfold local_day. intros Htz. Z.div_mod_to_equations. lia. Qed.

Lemma local_day_west tz day : - 1440 <= tz < 0 -> local_day tz day = day - 1.
Proof. unfold local_day. intros Htz. Z.div_mod_to_equations. lia. Qed.

(** The day before 1 January lies in the year before; the day before any
    other day lies in the same year. *)
Lemma getYear_day_before day :
  getYear (day - 1)
  = if (getMonth day =? 0) && (getDate day =? 1) then getYear day - 1
    else getYear day.
Proof.
  pose proof (MakeDay_of_fields day) as Hday.
  pose proof (getMonth_range day) as Hm. pose proof (getDate_range day) as Hd.
  rewrite MakeDay_month in Hday by exact Hm.
  pose proof (YearFromDay_spec day) as Hspec. fold (getYear day) in Hspec.
  pose proof (leapDays_range (getYear day)) as Hl.
  assert (Hbefore : 0 <= ES.DaysBeforeMonth (ES.leapDays (getYear day)) (getMonth day)
                    /\ (getMonth day <> 0 ->
                        1 <= ES.DaysBeforeMonth (ES.leapDays (getYear day))
                                                (getMonth day))).
  { assert (Hc : getMonth day = 0 \/ getMonth day = 1 \/ getMonth day = 2 \/
                 getMonth day = 3 \/ getMonth day = 4 \/ getMonth day = 5 \/
                 getMonth day = 6 \/ getMonth day = 7 \/ getMonth day = 8 \/
                 getMonth day = 9 \/ getMonth day = 10 \/ getMonth day = 11) by lia.
    repeat (destruct Hc as [Hc | Hc];
            [rewrite Hc; cbn [ES.DaysBeforeMonth]; lia |]).
    rewrite Hc; cbn [ES.DaysBeforeMonth]; lia. }
  destruct Hbefore as [Hb0 Hb1].
  destruct (Z.eqb_spec (getMonth day) 0) as [Hm0 | Hm0];
    [destruct (Z.eqb_spec (getDate day) 1) as [Hd1 | Hd1] |]; cbn [andb].
  - unfold getYear at 1. apply YearFromDay_unique.
    replace (getYear day - 1 + 1) with (getYear day) by lia.
    pose proof (DayFromYear_succ (getYear day - 1)) as Hsucc.
    replace (getYear day - 1 + 1) with (getYear day) in Hsucc by lia.
    unfold ES.DaysInYear in Hsucc.
    pose proof (leapDays_range (getYear day - 1)).
    rewrite Hm0 in Hday. cbn [ES.DaysBeforeMonth] in Hday. lia.
  - unfold getYear at 1. apply YearFromDay_unique.
    rewrite Hm0 in Hday. cbn [ES.DaysBeforeMonth] in Hday.
    unfold getYear in *. lia.
  - unfold getYear at 1. apply YearFromDay_unique.
    specialize (Hb1 Hm0). unfold getYear in *. lia.
Qed.

(** X18: The suffix proposed for the next event, the start date being a
    date-only text read as midnight UTC and [tz] the minutes the zone is
    east of Greenwich.  When the name of the last event does not end with a
    digit, the suffix is the local year of that instant plus one: the year
    of the start date plus one at or east of Greenwich and, west of
    Greenwich, for every start date but 1 January, for which it is the year
    of the start date itself.  When the name ends with a number below 2^53,
    written with any count of leading zeros, the suffix is that number plus
    one, written without leading zeros: [Con 2024] gives [2025], [Con 9]
    gives [10] and [Con 007] gives [8]. *)
Theorem initial_suffix_proposed tz startDate day base :
  last_is_digit base = false ->
  Date_parse startDate = Some day ->
  - 1440 <= tz < 1440 ->
  initial_suffix tz startDate base
  = Some (Number_toString
            (if (tz <? 0) && (getMonth day =? 0) && (getDate day =? 1)
             then getYear day
             else getYear day + 1)) /\
  forall k n, 0 <= n < 2 ^ 53 ->
    initial_suffix tz startDate
                   (base +:+ String_repeat "0" k +:+ Number_toString n)
    = Some (Number_toString (n + 1)).
Proof.
  intros Hlast Hparse Htz. unfold initial_suffix, start_year.
  rewrite Hparse. cbn [option_map]. split.
  - unfold next_suffix. rewrite (trailing_digits_none base Hlast).
    do 2 f_equal. destruct (Z.ltb_spec tz 0) as [Hwest | Heast]; cbn [andb].
    + rewrite local_day_west by lia. rewrite getYear_day_before.
      destruct ((getMonth day =? 0) && (getDate day =? 1)); lia.
    + rewrite local_day_east by lia. reflexivity.
  - intros k n Hn. exact (next_suffix_number _ base k n Hlast Hn).
Qed.

Lemma initial_suffix_proposed_witness :
  initial_suffix (- 300) "2024-01-01" "Con " = Some "2024" /\
  initial_suffix 60 "2024-01-01" "Con " = Some "2025" /\
  initial_suffix (- 300) "2024-03-09" "Con 007" = Some "8".
Proof.
  split; [| split].
  - exact (proj1 (initial_suffix_proposed (- 300) "2024-01-01" (ymd 2024 1 1)
                    "Con " eq_refl eq_refl ltac:(lia))).
  - exact (proj1 (initial_suffix_proposed 60 "2024-01-01" (ymd 2024 1 1)
                    "Con " eq_refl eq_refl ltac:(lia))).
  - apply (proj2 (initial_suffix_proposed (- 300) "2024-03-09" (ymd 2024 3 9)
                    "Con " eq_refl eq_refl ltac:(lia)) 2%nat 7).
    split; [lia | reflexivity].
Defined.

End suffix.

Section identifier.

(** X19: For a series whose last event is named after its year, as [Con 2024],
    and ended in that year between 3 January and 25 December, the editor
    proposes the next year as the suffix and, the end date of the form being
    the projected end date, the slug followed by that year as the identifier
    of the new event. *)
Theorem generatedEventId_next_year base endDate year seriesId startDate :
  last_is_digit base = false ->
  100 <= getYear endDate < 2 ^ 53 ->
  getMonth endDate <> 0 \/ 3 <= getDate endDate ->
  getMonth endDate <> 11 \/ getDate endDate <= 25 ->
  let suffix := Number_toString (getYear endDate + 1) in
  next_suffix year (base +:+ Number_toString (getYear endDate)) = Some suffix /\
  generatedEventId seriesId suffix startDate (Some (addYearSameWeekday endDate))
  = seriesId +:+ "-" +:+ suffix.
Proof.
  intros Hlast Hyear Hjan Hdec suffix. split.
  - exact (next_suffix_number year base 0 (getYear endDate) Hlast ltac:(lia)).
  - unfold generatedEventId.
    rewrite (projected_year endDate ltac:(lia) Hjan Hdec).
    fold suffix. rewrite String.eqb_refl.
    destruct (Number_toString_chars (getYear endDate + 1)) as [_ Hne].
    fold suffix in Hne. destruct suffix; [contradiction | reflexivity].
Qed.

Lemma generatedEventId_next_year_witness :
  next_suffix 2024 "Con 2024" = Some "2025" /\
  generatedEventId "con" "2025" None (Some (addYearSameWeekday (ymd 2024 3 10)))
  = "con-2025".
Proof.
  apply (generatedEventId_next_year "Con " (ymd 2024 3 10) 2024 "con" None).
  - reflexivity.
  - change (getYear (ymd 2024 3 10)) with 2024. lia.
  - left. vm_compute. discriminate.
  - left. vm_compute. discriminate.
Defined.

End identifier.

(** ** The rows of the viewer *)

Section rows.

Lemma split_lines_nonempty raw : split_lines raw <> [].
Proof.
  induction raw as [| c raw IH]; [discriminate |].
  cbn [split_lines]. destruct (Ascii.eqb c "010"); [discriminate |].
  destruct (split_lines raw); discriminate.
Qed.

Lemma split_lines_line line rest :
  no_newline line ->
  split_lines (line +:+ rest)
  = match split_lines rest with
    | first :: lines => (line +:+ first) :: lines
    | [] => [line]
    end.
Proof.
  induction line as [| c line IH]; intros Hline.
  - change (EmptyString +:+ rest) with rest.
    pose proof (split_lines_nonempty rest) as Hne.
    destruct (split_lines rest); [contradiction | reflexivity].
  - destruct Hline as [Hc Hline]. rewrite sapp_cons. cbn [split_lines].
    apply Ascii.eqb_neq in Hc. rewrite Hc, (IH Hline).
    destruct (split_lines rest); reflexivity.
Qed.

(** Splitting at line breaks undoes joining with line breaks, for lines
    without a line break. *)
Lemma split_lines_concat lines :
  lines <> [] -> Forall no_newline lines ->
  split_lines (String.concat nl lines) = lines.
Proof.
  induction lines as [| line lines IH]; intros Hne Hlines; [contradiction |].
  apply Forall_cons in Hlines as [Hline Hlines].
  destruct lines as [| line' lines].
  - cbn [String.concat]. rewrite <- (sapp_nil_r line) at 1.
    rewrite (split_lines_line line EmptyString Hline). cbn [split_lines].
    rewrite sapp_nil_r. reflexivity.
  - rewrite concat_cons_nonempty by discriminate.
    rewrite (split_lines_line line _ Hline).
    change (nl +:+ String.concat nl (line' :: lines))
      with (String "010" (String.concat nl (line' :: lines))).
    cbn [split_lines]. change (Ascii.eqb "010" "010") with true. cbv iota.
    rewrite (IH ltac:(discriminate) Hlines), sapp_nil_r. reflexivity.
Qed.

Lemma no_newline_concat sep pieces :
  no_newline sep -> Forall no_newline pieces ->
  no_newline (String.concat sep pieces).
Proof.
  intros Hsep. induction 1 as [| piece pieces Hpiece Hpieces IH]; [exact I |].
  destruct pieces as [| piece' pieces]; [exact Hpiece |].
  rewrite concat_cons_nonempty by discriminate.
  apply no_newline_app. split; [exact Hpiece |].
  apply no_newline_app. split; [exact Hsep | exact IH].
Qed.

Lemma no_newline_annotation marker errors tag :
  no_newline marker -> Forall (fun e => no_newline (message e)) errors ->
  no_newline (tag_annotation marker errors tag).
Proof.
  intros Hmarker Herrors. destruct tag as [path |]; [| exact I].
  cbn [tag_annotation]. unfold annotation_of, messages_at.
  assert (Hms : Forall no_newline
                  (map message
                       (List.filter (fun e => String.eqb (instancePath e) path)
                                    errors))).
  { induction Herrors as [| e errors He _ IH]; [constructor |].
    cbn [List.filter]. destruct (String.eqb (instancePath e) path); [| exact IH].
    cbn [map]. constructor; [exact He | exact IH]. }
  destruct (map message _) as [| m ms]; [exact I |].
  apply no_newline_app. split; [exact Hmarker |].
  apply no_newline_concat; [| exact Hms]. cbn. repeat split; discriminate.
Qed.

Lemma annotate_no_newline marker errors :
  no_newline marker -> Forall (fun e => no_newline (message e)) errors ->
  forall lines tags,
    Forall no_newline lines ->
    Forall no_newline (annotate marker errors lines tags).
Proof.
  intros Hmarker Herrors. unfold annotate.
  induction lines as [| line lines IH]; intros [| tag tags] Hlines;
    try constructor.
  - apply Forall_cons in Hlines as [Hline _]. apply no_newline_app.
    split; [exact Hline | apply no_newline_annotation; assumption].
  - apply Forall_cons in Hlines as [_ Hlines]. apply IH, Hlines.
Qed.

Lemma annotate_length marker errors lines tags :
  length lines = length tags ->
  length (annotate marker errors lines tags) = length lines.
Proof.
  unfold annotate. revert tags.
  induction lines as [| line lines IH]; intros [| tag tags] Hlen;
    try discriminate Hlen; [reflexivity |].
  cbn [zip_with length]. rewrite (IH tags) by (injection Hlen as Hlen; exact Hlen).
  reflexivity.
Qed.

Lemma prefix_empty v : String.prefix EmptyString v = true.
Proof. destruct v; reflexivity. Qed.

Lemma prefix_slashes v :
  String.prefix "//" v
  = match v with
    | String c (String c' _) => Ascii.eqb c "/" && Ascii.eqb c' "/"
    | _ => false
    end.
Proof.
  destruct v as [| c [| c' v]]; cbn [String.prefix].
  - reflexivity.
  - destruct (ascii_dec "/" c) as [<- | Hne]; reflexivity.
  - destruct (ascii_dec "/" c) as [<- | Hne].
    + rewrite Ascii.eqb_refl. cbn [andb].
      destruct (ascii_dec "/" c') as [<- | Hne'].
      * rewrite Ascii.eqb_refl. apply prefix_empty.
      * symmetry. apply Ascii.eqb_neq. congruence.
    + symmetry. apply andb_false_iff. left. apply Ascii.eqb_neq. congruence.
Qed.

Lemma indexOf_slashes_cons c v :
  indexOf "//" (String c v)
  = if String.prefix "//" (String c v) then Some 0%nat
    else option_map S (indexOf "//" v).
Proof. reflexivity. Qed.

(** No [//] in [line], and a space after it: the first [//] of the longer
    text is the one after the space. *)
Lemma indexOf_after_space line rest :
  indexOf "//" line = None ->
  indexOf "//" (line +:+ String " " (String "/" (String "/" rest)))
  = Some (S (String.length line)).
Proof.
  induction line as [| c line IH]; intros Hnone.
  { change (EmptyString +:+ String " " (String "/" (String "/" rest)))
      with (String " " (String "/" (String "/" rest))).
    rewrite !indexOf_slashes_cons, !prefix_slashes. reflexivity. }
  rewrite indexOf_slashes_cons in Hnone.
  destruct (String.prefix "//" (String c line)) eqn:Hp; [discriminate Hnone |].
  destruct (indexOf "//" line) eqn:Hline; [discriminate Hnone |].
  rewrite sapp_cons, indexOf_slashes_cons, IH by reflexivity.
  assert (Hp' : String.prefix "//" (String c (line +:+ String " " (String "/" (String "/" rest))))
                = false).
  { rewrite prefix_slashes in *. destruct line as [| c' line]; [| exact Hp].
    change (EmptyString +:+ String " " (String "/" (String "/" rest)))
      with (String " " (String "/" (String "/" rest))).
    apply andb_false_r. }
  rewrite Hp'. reflexivity.
Qed.

Lemma indexOf_app line rest j :
  indexOf "//" line = Some j -> indexOf "//" (line +:+ rest) = Some j.
Proof.
  revert j. induction line as [| c line IH]; intros j Hj; [discriminate Hj |].
  rewrite indexOf_slashes_cons in Hj. rewrite sapp_cons, indexOf_slashes_cons.
  destruct (String.prefix "//" (String c line)) eqn:Hp.
  - assert (Hp' : String.prefix "//" (String c (line +:+ rest)) = true).
    { rewrite prefix_slashes in *. destruct line as [| c' line]; [discriminate Hp |].
      exact Hp. }
    rewrite Hp'. exact Hj.
  - destruct (indexOf "//" line) as [j' |] eqn:Hline; [| discriminate Hj].
    assert (Hp' : String.prefix "//" (String c (line +:+ rest)) = false).
    { rewrite prefix_slashes in *. destruct line as [| c' line]; [discriminate Hline |].
      exact Hp. }
    rewrite Hp', (IH j' eq_refl). exact Hj.
Qed.

Lemma indexOf_bound line j :
  indexOf "//" line = Some j -> (j < String.length line)%nat.
Proof.
  revert j. induction line as [| c line IH]; intros j Hj; [discriminate Hj |].
  rewrite indexOf_slashes_cons in Hj.
  destruct (String.prefix "//" (String c line)).
  - injection Hj as <-. cbn. lia.
  - destruct (indexOf "//" line) as [j' |]; [| discriminate Hj].
    injection Hj as <-. specialize (IH j' eq_refl). cbn. lia.
Qed.

Lemma slice_to_app j line rest :
  (j <= String.length line)%nat ->
  slice_to j (line +:+ rest) = slice_to j line.
Proof.
  revert j. induction line as [| c line IH]; intros [| j] Hj; try reflexivity.
  - cbn in Hj. lia.
  - rewrite sapp_cons. cbn [slice_to]. rewrite IH by (cbn in Hj; lia). reflexivity.
Qed.

Lemma slice_from_app j line rest :
  (j <= String.length line)%nat ->
  slice_from j (line +:+ rest) = slice_from j line +:+ rest.
Proof.
  revert j. induction line as [| c line IH]; intros [| j] Hj; try reflexivity.
  - cbn in Hj. lia.
  - rewrite sapp_cons. cbn [slice_from]. apply IH. cbn in Hj. lia.
Qed.

Lemma slice_to_length line : slice_to (String.length line) line = line.
Proof. induction line as [| c line IH]; [reflexivity |]. cbn. rewrite IH. reflexivity. Qed.

Lemma slice_from_length line rest :
  slice_from (String.length line) (line +:+ rest) = rest.
Proof. induction line as [| c line IH]; [destruct rest; reflexivity |]. exact IH. Qed.

End rows.

Section viewer_extras.

(** X20: The viewer shows one row per line of the tree: when no message holds a
    line break, splitting the text at line breaks gives the lines printed
    without errors, each followed by its annotation, so that errors add no
    rows. *)
Theorem viewer_rows h v t errors space :
  is_tree h v t -> json_is_undefined t = false ->
  Forall (fun e => no_newline (message e)) errors ->
  exists plain raw,
    returns myStringifyWithErrors h v [] space (Some (String.concat nl plain)) /\
    returns myStringifyWithErrors h v errors space (Some raw) /\
    split_lines raw = annotate " // " errors plain (line_tags t EmptyString) /\
    length (split_lines raw) = length plain.
Proof.
  intros Htree Hundef Hmessages. set (indent := String_repeat " " space).
  assert (Hindent : no_newline indent).
  { apply no_newline_repeat. cbn. repeat split; discriminate. }
  set (plain := render_lines ∅ indent " // " t EmptyString 0).
  destruct (render_lines_annotated indent " // " errors t EmptyString 0%nat)
    as [Hlines Hlen].
  fold plain in Hlines, Hlen.
  exists plain, (String.concat nl (annotate " // " errors plain (line_tags t EmptyString))).
  split; [| split; [| split]].
  - pose proof (stringifies_tree " // " h v t [] space Htree) as Hret.
    change (group_errors []) with (∅ : gmap string (list ErrorObject)) in Hret.
    fold indent in Hret.
    destruct (render_None ∅ indent " // " t EmptyString 0%nat Hundef) as [s Hs].
    pose proof (render_lines_joined ∅ indent " // " t EmptyString 0%nat) as Hj.
    rewrite Hs in Hj, Hret. cbn [template from_option id] in Hj.
    fold plain in Hj. rewrite <- Hj. exact Hret.
  - pose proof (stringifies_tree " // " h v t errors space Htree) as Hret.
    fold indent in Hret.
    destruct (render_None (group_errors errors) indent " // " t EmptyString
                          0%nat Hundef) as [s Hs].
    pose proof (render_lines_joined (group_errors errors) indent " // " t
                                    EmptyString 0%nat) as Hj.
    rewrite Hs in Hj, Hret. cbn [template from_option id] in Hj.
    rewrite <- Hlines, <- Hj. exact Hret.
  - apply split_lines_concat.
    + rewrite <- Hlines. apply render_lines_nonempty.
    + apply annotate_no_newline;
        [cbn; repeat split; discriminate | exact Hmessages |].
      apply plain_lines_no_newline, Hindent.
  - rewrite split_lines_concat.
    + apply annotate_length, Hlen.
    + rewrite <- Hlines. apply render_lines_nonempty.
    + apply annotate_no_newline;
        [cbn; repeat split; discriminate | exact Hmessages |].
      apply plain_lines_no_newline, Hindent.
Qed.

Lemma viewer_rows_witness :
  exists plain raw,
    returns myStringifyWithErrors heap_nested (VRef 1%nat) [] 2
            (Some (String.concat nl plain)) /\
    returns myStringifyWithErrors heap_nested (VRef 1%nat) errors_nested 2
            (Some raw) /\
    split_lines raw
    = annotate " // " errors_nested plain (line_tags tree_nested EmptyString) /\
    length (split_lines raw) = length plain.
Proof.
  apply (viewer_rows heap_nested (VRef 1%nat) tree_nested errors_nested 2
                     heap_nested_tree eq_refl).
  repeat constructor; discriminate.
Defined.

(** X21: A row whose own text holds no [//] is shown as it is when no error
    belongs to it; otherwise the text and a space are shown as they are and
    the two slashes, a space and the messages in the error colour. *)
Theorem highlight_annotated_row line errors tag :
  indexOf "//" line = None ->
  highlight (line +:+ tag_annotation " // " errors tag)
  = match match tag with
          | Some path => messages_at errors path
          | None => []
          end with
    | [] => (line, None)
    | messages =>
        (line +:+ " ", Some ("// " +:+ String.concat ", " messages))
    end.
Proof.
  intros Hnone.
  assert (Hplain : highlight (line +:+ EmptyString) = (line, None)).
  { rewrite sapp_nil_r. unfold highlight. rewrite Hnone. reflexivity. }
  destruct tag as [path |]; cbn [tag_annotation]; [| exact Hplain].
  unfold annotation_of. destruct (messages_at errors path) as [| m ms];
    [exact Hplain |].
  set (text := String.concat ", " (m :: ms)).
  change (" // " +:+ text) with (String " " (String "/" (String "/" (String " " text)))).
  unfold highlight. rewrite (indexOf_after_space line _ Hnone).
  change (String " " (String "/" (String "/" (String " " text))))
    with (" " +:+ ("// " +:+ text)).
  rewrite <- sapp_assoc.
  replace (S (String.length line)) with (String.length (line +:+ " ")).
  - rewrite slice_from_length, slice_to_app, slice_to_length by lia. reflexivity.
  - clear. induction line as [| c line IH]; [reflexivity |].
    rewrite sapp_cons. cbn [String.length]. rewrite IH. reflexivity.
Qed.

Lemma highlight_annotated_row_witness :
  highlight ("  a: 1" +:+ tag_annotation " // " errors_nested (Some "/a/b"))
  = ("  a: 1 ", Some "// must be string, must match format").
Proof.
  exact (highlight_annotated_row "  a: 1" errors_nested (Some "/a/b") eq_refl).
Defined.

(** X22: A row whose own text holds [//], as the text of every URL does, is shown
    in the error colour from there on, whether an error belongs to the row
    or not. *)
Theorem highlight_inside_text line rest j :
  indexOf "//" line = Some j ->
  highlight (line +:+ rest) = (slice_to j line, Some (slice_from j line +:+ rest)).
Proof.
  intros Hj. pose proof (indexOf_bound line j Hj) as Hbound.
  unfold highlight. rewrite (indexOf_app line rest j Hj).
  rewrite slice_to_app, slice_from_app by lia. reflexivity.
Qed.

Lemma highlight_inside_text_witness :
  highlight ("  url: https://cons.fyi," +:+ EmptyString)
  = ("  url: https:", Some "//cons.fyi,").
Proof.
  exact (highlight_inside_text "  url: https://cons.fyi," EmptyString 13 eq_refl).
Defined.

End viewer_extras.
